(** * Project Explorer: the view-state and projection logic of ProjectsGrid

    A shallow embedding of the front end's logic (components/ProjectsTable
    and services/api): the map-id derivation, the sort and the grouping of the
    project list, the URL query-string state, and the fetch of the snapshot.

    Conventions.  A JavaScript string is the Rocq [string] of its text.  On
    ASCII text (identifiers, names, dates, query strings) a character is one
    code unit of the string and one byte of its URL encoding; the order on
    strings compares characters by their codes.  A JavaScript [Set] is the
    list of its members in insertion order.  Platform functions whose result
    is fixed by ECMAScript or by the URL standard are defined here from their
    specification; the two that are left to the host ([Date] parsing and
    [localeCompare]) are parameters.  The sort of an array is fixed by the
    language for a consistent comparator only: [JS.sort] is that result, and
    [V8.sort] is what one engine does for every comparator. *)

From Stdlib Require Import List String Ascii ZArith NArith Bool Lia.
From Stdlib Require Import Sorted Permutation.
Import ListNotations.

Local Open Scope string_scope.
Local Open Scope list_scope.
Local Open Scope Z_scope.

(* ================================================================= *)
(** ** The platform: strings, arrays, sets *)

Module JS.

(** [a < b] on two strings: the first differing code unit decides, a proper
    prefix is smaller. *)
Fixpoint string_lt (a b : string) : bool :=
  match a, b with
  | _, EmptyString => false
  | EmptyString, String _ _ => true
  | String c a', String d b' =>
      if (N_of_ascii c <? N_of_ascii d)%N then true
      else if (N_of_ascii d <? N_of_ascii c)%N then false
      else string_lt a' b'
  end.

(** Truthiness of a string: every string but the empty one. *)
Definition truthy (s : string) : bool := negb (String.eqb s "").

(** [x || d] for a value that is [null] or a string. *)
Definition or_default (x : option string) (d : string) : string :=
  match x with
  | Some s => if truthy s then s else d
  | None => d
  end.

(** *** Array.prototype.sort

    [cmp a b < 0] puts [a] first, [cmp a b > 0] puts [b] first, and the sort
    is stable.  The language fixes the result only for a comparator that is
    consistent on the array ([cmp a b] and [cmp b a] of opposite signs, and
    [<= 0] transitive): then the result is the one arrangement that is in the
    order of the comparator with tied members in their input order, whatever
    the algorithm, and it is computed here by insertion.  For any other
    comparator the order is left to the engine, and [sort] below is the
    answer of one possible engine only; what V8 does is [V8.sort], further
    down, and [V8Facts.sort_agrees] relates the two. *)
Section Sort.
Context {A : Type}.
Variable cmp : A -> A -> Z.

Fixpoint insert (x : A) (l : list A) : list A :=
  match l with
  | [] => [x]
  | y :: l' => if cmp x y <=? 0 then x :: l else y :: insert x l'
  end.

Definition sort (l : list A) : list A := fold_right insert [] l.
End Sort.

(** The comparison [sort()] uses when it is given no comparator. *)
Definition default_compare (x y : string) : Z :=
  if string_lt x y then -1 else if string_lt y x then 1 else 0.

(** *** Set<string> *)
Definition Set_has (s : list string) (x : string) : bool :=
  existsb (String.eqb x) s.

Definition Set_add (s : list string) (x : string) : list string :=
  if Set_has s x then s else s ++ [x].

Definition Set_delete (s : list string) (x : string) : list string :=
  filter (fun y => negb (String.eqb x y)) s.

(** [new Set(array)] *)
Definition Set_of (l : list string) : list string := fold_left Set_add l [].

End JS.

(* ================================================================= *)
(** ** The data model (types/api) *)

Record RequestPayload := {
  map_type : string;
  project_id : string;
  baseline_project_id : string;
  payload_map_id : option string;
  service_period_id : option string
}.

Record RidershipJob := {
  job_id : string;
  job_type : string;
  job_status : string;
  user_id : Z;
  map_id : option string;          (* string | null *)
  request_payload : RequestPayload;
  job_created_at : string;
  job_updated_at : string
}.

Record UniqueProject := {
  id : string;
  name : string;
  agency_id : string;
  agency_name : string;
  author_id : Z;
  author_name : string;
  created_at : string;
  updated_at : string
}.

Record Projects := {
  exported_at : string;
  total_jobs : Z;
  total_unique_projects : Z;
  jobs : list RidershipJob;
  unique_projects : list UniqueProject
}.

Record ProjectsData := {
  projects : Projects;
  lastModified : string;
  totalCount : Z;
  sourceFile : string;
  fromCache : bool
}.

(* ================================================================= *)
(** ** getUniqueMapIds *)

(** [job.map_id] as a condition: neither [null] nor the empty string. *)
Definition map_id_truthy (j : RidershipJob) : bool :=
  match map_id j with
  | Some m => JS.truthy m
  | None => false
  end.

(** The body of the [forEach] over the jobs. *)
Definition collect (selectedProjects mapIds : list string)
    (job : RidershipJob) : list string :=
  if JS.Set_has selectedProjects (project_id (request_payload job))
     && map_id_truthy job
  then match map_id job with
       | Some m => JS.Set_add mapIds m
       | None => mapIds
       end
  else mapIds.

Definition getUniqueMapIds (data : option ProjectsData)
    (selectedProjects : list string) : list string :=
  match data with
  | None => []
  | Some d =>
      if (List.length selectedProjects =? 0)%nat then []
      else
        let mapIds :=
          fold_left (collect selectedProjects) (jobs (projects d)) [] in
        JS.sort JS.default_compare mapIds
  end.

(* ================================================================= *)
(** ** Values *)

(** The numbers that occur here are epoch milliseconds and identifiers, or
    [NaN] (the time value of an invalid date). *)
Inductive number := NaN | Int (z : Z).

(** What [a[sortBy]] can evaluate to on a project record: [undefined], one of
    the record's own fields, or a member inherited from [Object.prototype]
    (named by its property name; it is the same object for every record). *)
Inductive value :=
| Undefined
| Num (n : number)
| Str (s : string)
| Builtin (member : string).

(** [a === b] *)
Definition strict_eq (a b : value) : bool :=
  match a, b with
  | Undefined, Undefined => true
  | Num (Int x), Num (Int y) => x =? y
  | Str x, Str y => String.eqb x y
  | Builtin x, Builtin y => String.eqb x y
  | _, _ => false
  end.

(** [a < b].  Two numbers compare numerically ([NaN] is below nothing), two
    strings by code units.  [undefined] converts to [NaN].  The remaining
    combinations do not arise: both operands are always read from the same
    property of two project records, and an inherited member is compared only
    with itself. *)
Definition less_than (a b : value) : bool :=
  match a, b with
  | Num (Int x), Num (Int y) => x <? y
  | Str x, Str y => JS.string_lt x y
  | _, _ => false
  end.

(** The property names every object inherits from [Object.prototype]. *)
Definition Object_prototype_names : list string :=
  [ "constructor"; "hasOwnProperty"; "isPrototypeOf"; "propertyIsEnumerable";
    "toLocaleString"; "toString"; "valueOf"; "__proto__";
    "__defineGetter__"; "__defineSetter__"; "__lookupGetter__";
    "__lookupSetter__" ].

Definition inherited (k : string) : bool :=
  existsb (String.eqb k) Object_prototype_names.

(** [project[k]] *)
Definition get (p : UniqueProject) (k : string) : value :=
  if String.eqb k "id" then Str (id p)
  else if String.eqb k "name" then Str (name p)
  else if String.eqb k "agency_id" then Str (agency_id p)
  else if String.eqb k "agency_name" then Str (agency_name p)
  else if String.eqb k "author_id" then Num (Int (author_id p))
  else if String.eqb k "author_name" then Str (author_name p)
  else if String.eqb k "created_at" then Str (created_at p)
  else if String.eqb k "updated_at" then Str (updated_at p)
  else if inherited k then Builtin k
  else Undefined.

(* ================================================================= *)
(** ** sortedProjects *)

Section Sorting.
(** [new Date(s).getTime()] *)
Variable Date_getTime : string -> number.

Definition time_of (v : value) : value :=
  match v with
  | Str s => Num (Date_getTime s)
  | _ => Num NaN
  end.

(** The [switch (sortBy)] of the comparator. *)
Definition sort_values (sortBy : string) (a b : UniqueProject)
  : value * value :=
  if String.eqb sortBy "created_at" || String.eqb sortBy "updated_at"
  then (time_of (get a sortBy), time_of (get b sortBy))
  else if String.eqb sortBy "author"
  then (Str (author_name a), Str (author_name b))
  else if String.eqb sortBy "agency"
  then (Str (agency_name a), Str (agency_name b))
  else (get a sortBy, get b sortBy).

(** The comparator after the [switch]. *)
Definition compare_values (sortDirection : string) (aValue bValue : value)
  : Z :=
  if strict_eq aValue bValue then 0
  else
    let comparison :=
      if less_than aValue bValue then -1
      else if less_than bValue aValue then 1
      else 0 in
    if String.eqb sortDirection "desc" then comparison * -1 else comparison.

Definition compareProjects (sortBy sortDirection : string)
    (a b : UniqueProject) : Z :=
  let '(aValue, bValue) := sort_values sortBy a b in
  compare_values sortDirection aValue bValue.

Definition sortedProjects (data : option ProjectsData)
    (sortBy sortDirection : string) : list UniqueProject :=
  match data with
  | None => []
  | Some d =>
      JS.sort (compareProjects sortBy sortDirection)
              (unique_projects (projects d))
  end.
End Sorting.

(* ================================================================= *)
(** ** Plain objects used as dictionaries *)

(** The outcome of evaluating code that may throw. *)
Inductive completion (A : Type) :=
| Normal (a : A)
| Throw (error : string).
Arguments Normal {A} a.
Arguments Throw {A} error.

Definition bind {A B} (c : completion A) (k : A -> completion B)
  : completion B :=
  match c with
  | Normal a => k a
  | Throw e => Throw e
  end.

Notation "x <- c ;; k" := (bind c (fun x => k))
  (at level 61, c at next level, right associativity).

Module Obj.

(** An object literal [{}] filled by assignment: its own properties in the
    order they were created.  Reads fall through to [Object.prototype]. *)
Definition t (V : Type) := list (string * V).

Inductive lookup (V : Type) :=
| Own (v : V)
| Inherited (member : string)
| Absent.
Arguments Own {V} v.
Arguments Inherited {V} member.
Arguments Absent {V}.

Fixpoint own {V} (o : t V) (k : string) : option V :=
  match o with
  | [] => None
  | (k', v) :: o' => if String.eqb k k' then Some v else own o' k
  end.

(** [o[k]] *)
Definition read {V} (o : t V) (k : string) : lookup V :=
  match own o k with
  | Some v => Own v
  | None => if inherited k then Inherited k else Absent
  end.

Fixpoint replace {V} (o : t V) (k : string) (v : V) : t V :=
  match o with
  | [] => []
  | (k', v') :: o' =>
      if String.eqb k k' then (k', v) :: o' else (k', v') :: replace o' k v
  end.

(** [o[k] = v], for a key that [Object.prototype] does not define
    (an assignment to such a key is never reached below). *)
Definition write {V} (o : t V) (k : string) (v : V) : t V :=
  match own o k with
  | Some _ => replace o k v
  | None => o ++ [(k, v)]
  end.

(** The value of a run of decimal digits. *)
Fixpoint digits (s : string) (acc : N) : option N :=
  match s with
  | EmptyString => Some acc
  | String c s' =>
      let n := N_of_ascii c in
      if ((48 <=? n) && (n <=? 57))%N
      then digits s' (10 * acc + (n - 48))%N
      else None
  end.

(** A key is an array index when it is the canonical decimal numeral of an
    integer below 2^32 - 1. *)
Definition array_index (k : string) : option N :=
  match k with
  | EmptyString => None
  | String c rest =>
      if Ascii.eqb c "0" && negb (String.eqb rest "") then None
      else match digits k 0%N with
           | Some n => if (n <? 4294967295)%N then Some n else None
           | None => None
           end
  end.

Definition is_index (k : string) : bool :=
  match array_index k with Some _ => true | None => false end.

Definition index_compare (a b : string) : Z :=
  match array_index a, array_index b with
  | Some x, Some y => Z.of_N x - Z.of_N y
  | _, _ => 0
  end.

(** [Object.entries(o)]: the array indices in ascending numeric order, then
    the other keys in creation order. *)
Definition entries {V} (o : t V) : list (string * V) :=
  JS.sort (fun a b => index_compare (fst a) (fst b))
          (filter (fun e => is_index (fst e)) o)
  ++ filter (fun e => negb (is_index (fst e))) o.

End Obj.

(* ================================================================= *)
(** ** groupedProjects *)

Module Group.
Record t := {
  key : string;
  title : string;
  projects : list UniqueProject
}.
End Group.

Section Grouping.
(** [a.localeCompare(b)] *)
Variable localeCompare : string -> string -> Z.

Definition groupKey (groupBy : string) (project : UniqueProject) : string :=
  if String.eqb groupBy "author" then author_name project
  else agency_name project.

(** One turn of the [forEach] body. *)
Definition add_to_group (groupBy : string)
    (groups : Obj.t (list UniqueProject)) (project : UniqueProject)
  : completion (Obj.t (list UniqueProject)) :=
  let k := groupKey groupBy project in
  let groups :=
    match Obj.read groups k with
    | Obj.Absent => Obj.write groups k []       (* !groups[k] *)
    | _ => groups
    end in
  match Obj.read groups k with
  | Obj.Own members => Normal (Obj.write groups k (members ++ [project]))
  | _ => Throw "TypeError: groups[groupKey].push is not a function"
  end.

Fixpoint forEach (groupBy : string) (l : list UniqueProject)
    (groups : Obj.t (list UniqueProject))
  : completion (Obj.t (list UniqueProject)) :=
  match l with
  | [] => Normal groups
  | project :: l' =>
      groups' <- add_to_group groupBy groups project ;;
      forEach groupBy l' groups'
  end.

Definition groupedProjects (sortedProjects : list UniqueProject)
    (groupBy : string) : completion (list Group.t) :=
  if String.eqb groupBy "none"
  then Normal [ {| Group.key := "all"; Group.title := "";
                   Group.projects := sortedProjects |} ]
  else
    groups <- forEach groupBy sortedProjects [] ;;
    Normal
      (map (fun e => {| Group.key := fst e; Group.title := fst e;
                        Group.projects := snd e |})
           (JS.sort (fun a b => localeCompare (fst a) (fst b))
                    (Obj.entries groups))).
End Grouping.

(** The dictionary of a list of projects: one property for each key that
    occurs, holding the projects of that key in the order of the list. *)
Definition groups_of (groupBy : string) (l : list UniqueProject)
    (o : Obj.t (list UniqueProject)) : Prop :=
  NoDup (map fst o)
  /\ (forall k members,
         In (k, members) o ->
         members <> []
         /\ members
            = filter (fun p => String.eqb (groupKey groupBy p) k) l)
  /\ (forall p, In p l -> In (groupKey groupBy p) (map fst o)).

(* ================================================================= *)
(** ** Query strings *)

Module Str.

(** [s.split(sep)] for a one-character separator: always at least one
    piece. *)
Fixpoint split (sep : ascii) (s : string) : list string :=
  match s with
  | EmptyString => [EmptyString]
  | String c s' =>
      if Ascii.eqb c sep then EmptyString :: split sep s'
      else match split sep s' with
           | piece :: pieces => String c piece :: pieces
           | [] => [String c EmptyString]
           end
  end.

(** [pieces.join(sep)] *)
Fixpoint join (sep : ascii) (pieces : list string) : string :=
  match pieces with
  | [] => EmptyString
  | [piece] => piece
  | piece :: rest => (piece ++ String sep (join sep rest))%string
  end.

(** The text before the first [sep] and the text after it. *)
Fixpoint cut (sep : ascii) (s : string) : string * string :=
  match s with
  | EmptyString => (EmptyString, EmptyString)
  | String c s' =>
      if Ascii.eqb c sep then (EmptyString, s')
      else let '(before, after) := cut sep s' in (String c before, after)
  end.

(** [s.includes(c)] *)
Fixpoint contains (c : ascii) (s : string) : bool :=
  match s with
  | EmptyString => false
  | String d s' => Ascii.eqb d c || contains c s'
  end.

Fixpoint replace_char (from to : ascii) (s : string) : string :=
  match s with
  | EmptyString => EmptyString
  | String c s' =>
      String (if Ascii.eqb c from then to else c) (replace_char from to s')
  end.

End Str.

Module URLSearchParams.

(** The list of name-value pairs, in order. *)
Definition t := list (string * string).

(** *** application/x-www-form-urlencoded *)

Definition hex_digit (n : N) : ascii :=
  ascii_of_N (if (n <? 10)%N then 48 + n else 55 + n)%N.

Definition hex_value (c : ascii) : option N :=
  let n := N_of_ascii c in
  if ((48 <=? n) && (n <=? 57))%N then Some (n - 48)%N
  else if ((65 <=? n) && (n <=? 70))%N then Some (n - 55)%N
  else if ((97 <=? n) && (n <=? 102))%N then Some (n - 87)%N
  else None.

(** The characters the serializer leaves as they are: letters, digits and
    [*], [-], [.], [_]. *)
Definition unreserved (c : ascii) : bool :=
  let n := N_of_ascii c in
  (((48 <=? n) && (n <=? 57)) || ((65 <=? n) && (n <=? 90))
   || ((97 <=? n) && (n <=? 122))
   || (n =? 42) || (n =? 45) || (n =? 46) || (n =? 95))%N.

Definition encode_char (c : ascii) : string :=
  if unreserved c then String c EmptyString
  else if Ascii.eqb c " " then "+"
  else let n := N_of_ascii c in
       String "%" (String (hex_digit (n / 16))
                          (String (hex_digit (n mod 16)) EmptyString)).

Fixpoint encode (s : string) : string :=
  match s with
  | EmptyString => EmptyString
  | String c s' => (encode_char c ++ encode s')%string
  end.

Fixpoint percent_decode (s : string) : string :=
  match s with
  | EmptyString => EmptyString
  | String c s' =>
      if Ascii.eqb c "%" then
        match s' with
        | String h1 (String h2 rest) =>
            match hex_value h1, hex_value h2 with
            | Some a, Some b =>
                String (ascii_of_N (16 * a + b)) (percent_decode rest)
            | _, _ => String c (percent_decode s')
            end
        | _ => String c (percent_decode s')
        end
      else String c (percent_decode s')
  end.

Definition decode (s : string) : string :=
  percent_decode (Str.replace_char "+" " " s).

(** [params.toString()] *)
Definition toString (params : t) : string :=
  Str.join "&"
    (map (fun p => (encode (fst p) ++ String "=" (encode (snd p)))%string)
         params).

(** [new URLSearchParams(search)]: a leading [?] is dropped, empty pieces
    between [&] are skipped, a piece without [=] has the empty value. *)
Definition parse (search : string) : t :=
  let query :=
    match search with
    | String c rest => if Ascii.eqb c "?" then rest else search
    | EmptyString => search
    end in
  map (fun piece =>
         let '(n, v) := Str.cut "=" piece in (decode n, decode v))
      (filter (fun piece => negb (String.eqb piece ""))
              (Str.split "&" query)).

(** [params.get(name)]: the first value, or [null]. *)
Fixpoint get (params : t) (name : string) : option string :=
  match params with
  | [] => None
  | (n, v) :: rest => if String.eqb n name then Some v else get rest name
  end.

(** [params.delete(name)]: every pair of that name goes. *)
Definition delete (params : t) (name : string) : t :=
  filter (fun p => negb (String.eqb (fst p) name)) params.

(** [params.set(name, value)]: the first pair of that name takes the value
    and the others go; without such a pair, one is appended. *)
Fixpoint set (params : t) (name value : string) : t :=
  match params with
  | [] => [(name, value)]
  | (n, v) :: rest =>
      if String.eqb n name then (n, value) :: delete rest name
      else (n, v) :: set rest name value
  end.

End URLSearchParams.

(* ================================================================= *)
(** ** View state and the location *)

Record ViewState := {
  environment : string;
  groupBy : string;
  sortBy : string;
  sortDirection : string;
  selectedProjects : list string     (* Set<string> *)
}.

(** The selection handlers; each returns the set handed to
    [setSelectedProjects]. *)
Definition handleProjectSelect (selectedProjects : list string)
    (projectId : string) (isSelected : bool) : list string :=
  let newSelected := JS.Set_of selectedProjects in
  if isSelected then JS.Set_add newSelected projectId
  else JS.Set_delete newSelected projectId.

Definition handleSelectAll (data : option ProjectsData)
    (selectedProjects : list string) : list string :=
  match data with
  | None => selectedProjects
  | Some d => JS.Set_of (map id (unique_projects (projects d)))
  end.

Definition handleClearAll : list string := JS.Set_of [].

(** The argument of [updateUrlParams]: a field is [undefined] or given. *)
Record Updates := {
  upd_environment : option string;
  upd_groupBy : option string;
  upd_sortBy : option string;
  upd_sortDirection : option string;
  upd_selectedProjects : option (list string)
}.

Definition no_update : Updates :=
  {| upd_environment := None; upd_groupBy := None; upd_sortBy := None;
     upd_sortDirection := None; upd_selectedProjects := None |}.

(** [getUrlParams], reading [window.location.search]. *)
Definition getUrlParams (search : string) : ViewState :=
  let params := URLSearchParams.parse search in
  {| environment := JS.or_default (URLSearchParams.get params "env") "local";
     groupBy := JS.or_default (URLSearchParams.get params "groupBy") "none";
     sortBy := JS.or_default (URLSearchParams.get params "sortBy") "updated_at";
     sortDirection :=
       JS.or_default (URLSearchParams.get params "sortDir") "desc";
     selectedProjects :=
       match URLSearchParams.get params "selected" with
       | Some s => if JS.truthy s then JS.Set_of (Str.split "," s) else []
       | None => []
       end |}.

Definition set_if (field : option string) (name : string)
    (params : URLSearchParams.t) : URLSearchParams.t :=
  match field with
  | Some v => URLSearchParams.set params name v
  | None => params
  end.

(** The parameters [updateUrlParams] ends with. *)
Definition updatedParams (updates : Updates) (params : URLSearchParams.t)
  : URLSearchParams.t :=
  let params := set_if (upd_environment updates) "env" params in
  let params := set_if (upd_groupBy updates) "groupBy" params in
  let params := set_if (upd_sortBy updates) "sortBy" params in
  let params := set_if (upd_sortDirection updates) "sortDir" params in
  match upd_selectedProjects updates with
  | Some selected =>
      if (0 <? List.length selected)%nat
      then URLSearchParams.set params "selected" (Str.join "," selected)
      else URLSearchParams.delete params "selected"
  | None => params
  end.

(** [field !== undefined] *)
Definition given {A} (field : option A) : bool :=
  match field with Some _ => true | None => false end.

(** The parameter names an update writes or deletes. *)
Definition written (updates : Updates) (name : string) : bool :=
  (given (upd_environment updates) && String.eqb name "env")
  || (given (upd_groupBy updates) && String.eqb name "groupBy")
  || (given (upd_sortBy updates) && String.eqb name "sortBy")
  || (given (upd_sortDirection updates) && String.eqb name "sortDir")
  || (given (upd_selectedProjects updates) && String.eqb name "selected").

(** [window.location.search] once the URL [pathname?query] has replaced the
    current one: empty for an empty query. *)
Definition search_of (query : string) : string :=
  match query with
  | EmptyString => EmptyString
  | _ => String "?" query
  end.

(** [updateUrlParams]: from the current [window.location.search] to the new
    one. *)
Definition updateUrlParams (updates : Updates) (search : string) : string :=
  let params := URLSearchParams.parse search in
  search_of (URLSearchParams.toString (updatedParams updates params)).

(** The five effects that write the state to the URL, in the order they are
    declared. *)
Definition synchronize (st : ViewState) (search : string) : string :=
  let search :=
    updateUrlParams
      {| upd_environment := Some (environment st); upd_groupBy := None;
         upd_sortBy := None; upd_sortDirection := None;
         upd_selectedProjects := None |} search in
  let search :=
    updateUrlParams
      {| upd_environment := None; upd_groupBy := Some (groupBy st);
         upd_sortBy := None; upd_sortDirection := None;
         upd_selectedProjects := None |} search in
  let search :=
    updateUrlParams
      {| upd_environment := None; upd_groupBy := None;
         upd_sortBy := Some (sortBy st); upd_sortDirection := None;
         upd_selectedProjects := None |} search in
  let search :=
    updateUrlParams
      {| upd_environment := None; upd_groupBy := None; upd_sortBy := None;
         upd_sortDirection := Some (sortDirection st);
         upd_selectedProjects := None |} search in
  updateUrlParams
    {| upd_environment := None; upd_groupBy := None; upd_sortBy := None;
       upd_sortDirection := None;
       upd_selectedProjects := Some (selectedProjects st) |} search.

(* ================================================================= *)
(** ** Fetching the snapshot (services/api and fetchProjects) *)

Module Api.
(** [ApiResponse<ProjectsData>] *)
Record Response := {
  success : bool;
  data : option ProjectsData;
  error : option string
}.
End Api.

(** What a [catch] clause receives: an [Error] with its message, or some
    other value. *)
Inductive thrown :=
| Error (message : string)
| NotAnError.

(** How a promise settles. *)
Inductive settled (A : Type) :=
| Fulfilled (a : A)
| Rejected (reason : thrown).
Arguments Fulfilled {A} a.
Arguments Rejected {A} reason.

(** The network, seen from the client: [outcome n] is how the [n]-th call of
    [apiClient.get('/api/projects')] settles (the two interceptors log and
    pass the outcome on); [sent] lists the requests made so far by their
    [environment] parameter. *)
Record Network := {
  outcome : nat -> settled Api.Response;
  sent : list string
}.

Definition apiClient_get (environment : string) (net : Network)
  : settled Api.Response * Network :=
  (outcome net (List.length (sent net)),
   {| outcome := outcome net; sent := sent net ++ [environment] |}).

(** [projectsApi.getProjects] *)
Definition getProjects (environment : string) (net : Network)
  : settled Api.Response * Network :=
  let '(response, net) := apiClient_get environment net in
  match response with
  | Fulfilled response_data => (Fulfilled response_data, net)
  | Rejected error =>
      (Fulfilled
         {| Api.success := false;
            Api.data := None;
            Api.error :=
              Some match error with
                   | Error message => message
                   | NotAnError => "Unknown error occurred"
                   end |},
       net)
  end.

(** The three state variables [fetchProjects] writes. *)
Record FetchState := {
  data : option ProjectsData;
  loading : bool;
  error : option string
}.

Definition setData (d : ProjectsData) (st : FetchState) : FetchState :=
  {| data := Some d; loading := loading st; error := error st |}.
Definition setLoading (b : bool) (st : FetchState) : FetchState :=
  {| data := data st; loading := b; error := error st |}.
Definition setError (e : option string) (st : FetchState) : FetchState :=
  {| data := data st; loading := loading st; error := e |}.

Definition fetchProjects (environment : string) (st : FetchState)
    (net : Network) : FetchState * Network :=
  let st := setLoading true st in
  let st := setError None st in
  let '(response, net) := getProjects environment net in
  let st :=
    match response with
    | Fulfilled response =>
        match Api.success response, Api.data response with
        | true, Some d => setData d st
        | _, _ =>
            setError
              (Some (JS.or_default (Api.error response)
                                   "Failed to fetch projects")) st
        end
    | Rejected err =>                                   (* catch *)
        setError (Some match err with
                       | Error message => message
                       | NotAnError => "An error occurred"
                       end) st
    end in
  (setLoading false st, net).                           (* finally *)

(** What the component shows: the early returns of the render body.  The
    error panel carries the [Try Again] button, the grid the [Refresh]
    button; both call [fetchProjects]. *)
Inductive screen :=
| Spinner
| ErrorPanel (message : string)
| NoProjects
| Grid (d : ProjectsData).

Definition grid_or_empty (st : FetchState) : screen :=
  match data st with
  | Some d =>
      match unique_projects (projects d) with
      | [] => NoProjects
      | _ => Grid d
      end
  | None => NoProjects
  end.

Definition render (st : FetchState) : screen :=
  if loading st then Spinner
  else
    match error st with
    | Some message =>
        if JS.truthy message then ErrorPanel message else grid_or_empty st
    | None => grid_or_empty st
    end.

Definition offers_refetch (s : screen) : bool :=
  match s with
  | ErrorPanel _ | Grid _ => true
  | Spinner | NoProjects => false
  end.

(* ================================================================= *)
(** ** Two hosts *)

Module Host.

(** Days from 1970-01-01 to a date of the proleptic Gregorian calendar. *)
Definition days_from_civil (y m d : Z) : Z :=
  let y := if m <=? 2 then y - 1 else y in
  let era := y / 400 in
  let yoe := y - era * 400 in
  let doy := (153 * (if 2 <? m then m - 3 else m + 9) + 2) / 5 + d - 1 in
  let doe := yoe * 365 + yoe / 4 - yoe / 100 + doy in
  era * 146097 + doe - 719468.

Definition leap (y : Z) : bool :=
  ((y mod 4 =? 0) && negb (y mod 100 =? 0)) || (y mod 400 =? 0).

Definition days_in_month (y m : Z) : Z :=
  if m =? 2 then (if leap y then 29 else 28)
  else if (m =? 4) || (m =? 6) || (m =? 9) || (m =? 11) then 30
  else 31.

Definition number_of (s : string) : option Z :=
  option_map Z.of_N (Obj.digits s 0%N).

(** [new Date(s).getTime()] on the date-only form [YYYY-MM-DD] of the
    date-time string format, which is read as midnight UTC.  Every other
    string is given [NaN] here; a browser accepts more forms. *)
Definition Date_getTime (s : string) : number :=
  match Str.split "-" s with
  | [ys; ms; ds] =>
      if ((String.length ys =? 4) && (String.length ms =? 2)
          && (String.length ds =? 2))%nat
      then match number_of ys, number_of ms, number_of ds with
           | Some y, Some m, Some d =>
               if (1 <=? m) && (m <=? 12) && (1 <=? d)
                  && (d <=? days_in_month y m)
               then Int (days_from_civil y m d * 86400000)
               else NaN
           | _, _, _ => NaN
           end
      else NaN
  | _ => NaN
  end.

Definition lower (c : ascii) : ascii :=
  let n := N_of_ascii c in
  if ((65 <=? n) && (n <=? 90))%N then ascii_of_N (n + 32) else c.

Fixpoint fold_case (s : string) : string :=
  match s with
  | EmptyString => EmptyString
  | String c s' => String (lower c) (fold_case s')
  end.

(** [a.localeCompare(b)] in a browser, on strings of ASCII letters: the
    alphabet decides without regard to case; between strings that differ in
    case only, lower case comes first. *)
Definition localeCompare (a b : string) : Z :=
  let primary := JS.default_compare (fold_case a) (fold_case b) in
  if primary =? 0 then JS.default_compare b a else primary.

End Host.

(* ================================================================= *)
(** ** Sample data *)

Module Sample.

Definition project (i n agency author updated : string) : UniqueProject :=
  {| id := i; name := n; agency_id := "7"; agency_name := agency;
     author_id := 1; author_name := author;
     created_at := "2024-12-31"; updated_at := updated |}.

Definition job (i pid : string) (mid : option string) : RidershipJob :=
  {| job_id := i; job_type := "ridership"; job_status := "completed";
     user_id := 1; map_id := mid;
     request_payload :=
       {| map_type := "proposed"; project_id := pid;
          baseline_project_id := pid; payload_map_id := None;
          service_period_id := None |};
     job_created_at := "2025-01-01"; job_updated_at := "2025-01-01" |}.

Definition snapshot (J : list RidershipJob) (P : list UniqueProject)
  : ProjectsData :=
  {| projects :=
       {| exported_at := "2025-01-03";
          total_jobs := Z.of_nat (List.length J);
          total_unique_projects := Z.of_nat (List.length P);
          jobs := J; unique_projects := P |};
     lastModified := "2025-01-03"; totalCount := Z.of_nat (List.length J);
     sourceFile := "dump.json"; fromCache := false |}.

Definition pB := project "p1" "B" "Zeta" "kim" "2025-01-02".
Definition pA := project "p2" "A" "alpha" "lee" "2025-01-01".
Definition pC := project "p3" "C" "alpha" "kim" "2025-01-01".

Definition data := snapshot [job "j1" "p1" (Some "m1");
                             job "j2" "p2" (Some "m2");
                             job "j3" "p1" (Some "m1")]
                            [pB; pA; pC].

End Sample.

(* ================================================================= *)
(** ** The whole state as one update *)

(** [updateUrlParams] called with all five fields of a view state. *)
Definition full_update (st : ViewState) : Updates :=
  {| upd_environment := Some (environment st);
     upd_groupBy := Some (groupBy st);
     upd_sortBy := Some (sortBy st);
     upd_sortDirection := Some (sortDirection st);
     upd_selectedProjects := Some (selectedProjects st) |}.

(** [params.getAll(name)]: the values of every pair of that name. *)
Definition getAll (params : URLSearchParams.t) (name : string)
  : list string :=
  map snd (filter (fun p => String.eqb (fst p) name) params).

(** Two values that [<] or [===] relates, one way or the other. *)
Definition comparable (a b : value) : bool :=
  less_than a b || less_than b a || strict_eq a b.

(* ================================================================= *)
(** ** The sort of one engine *)

(** [Array.prototype.sort] as V8 computes it on an array of fewer than 64
    members, where its TimSort has a single run: the run the array starts
    with is found (and reversed when it descends strictly), then the other
    members are put in place one by one by binary insertion.  The language
    fixes the result only for a comparator that is consistent on the array;
    this is what the engine does in every case. *)
Module V8.
Section Sort.
Context {A : Type}.
Variable cmp : A -> A -> Z.

(** [CountAndMakeRun]: the run so far, last member first, and what follows
    it.  A descending run goes on while the next member is strictly below
    the one before it, an ascending run while it is not. *)
Fixpoint extend (descending : bool) (previous : A) (run : list A)
    (rest : list A) : list A * list A :=
  match rest with
  | [] => (run, [])
  | current :: rest' =>
      let order := cmp current previous in
      if (if descending then 0 <=? order else order <? 0)
      then (run, rest)
      else extend descending current (current :: run) rest'
  end.

(** The loop of [BinaryInsertionSort] that looks for the place of [pivot]
    between [left] and [right]. *)
Fixpoint search (fuel : nat) (pivot : A) (sorted : list A)
    (left right : nat) : nat :=
  match fuel with
  | O => left
  | S fuel' =>
      if (left <? right)%nat then
        let mid := (left + Nat.div2 (right - left))%nat in
        if cmp pivot (nth mid sorted pivot) <? 0
        then search fuel' pivot sorted left mid
        else search fuel' pivot sorted (S mid) right
      else left
  end.

Definition place (sorted : list A) (pivot : A) : list A :=
  let left := search (List.length sorted) pivot sorted 0
                     (List.length sorted) in
  firstn left sorted ++ pivot :: skipn left sorted.

(** [BinaryInsertionSort], from a sorted start. *)
Definition binary_insertion (sorted rest : list A) : list A :=
  fold_left place rest sorted.

Definition sort (l : list A) : list A :=
  match l with
  | first :: second :: rest =>
      let descending := cmp second first <? 0 in
      let '(run, rest') := extend descending second [second; first] rest in
      binary_insertion (if descending then run else rev run) rest'
  | _ => l
  end.
End Sort.

(** [sortedProjects] as this engine computes it. *)
Definition sortedProjects (Date_getTime : string -> number)
    (data : option ProjectsData) (sortBy sortDirection : string)
    : list UniqueProject :=
  match data with
  | None => []
  | Some d =>
      sort (compareProjects Date_getTime sortBy sortDirection)
           (unique_projects (projects d))
  end.
End V8.

(* ================================================================= *)
(** ** Projects with an invalid date *)

Module Dated.

Definition p1 := Sample.project "p1" "A" "north" "kim" "2025-01-03".
Definition p2 := Sample.project "p2" "B" "north" "kim" "2025-01-02".
Definition p3 := Sample.project "p3" "C" "north" "kim" "n/a".
Definition p4 := Sample.project "p4" "D" "north" "kim" "2025-01-01".

Definition data := Sample.snapshot [] [p1; p2; p3; p4].

End Dated.

(* ================================================================= *)
(** * Properties *)

(** ** The order on strings *)

Module StringOrder.

Lemma code_unit_inj (c d : ascii) : N_of_ascii c = N_of_ascii d -> c = d.
Proof.
  intro H.
  rewrite <- (ascii_N_embedding c), <- (ascii_N_embedding d).
  now rewrite H.
Qed.

Lemma lt_irrefl (a : string) : JS.string_lt a a = false.
Proof.
  induction a as [|c a IH]; simpl; [reflexivity|].
  now rewrite N.ltb_irrefl.
Qed.

Lemma lt_trans (a b c : string) :
  JS.string_lt a b = true -> JS.string_lt b c = true ->
  JS.string_lt a c = true.
Proof.
  revert b c.
  induction a as [|x a IH]; intros [|y b] [|z c]; simpl;
    try discriminate; try reflexivity.
  destruct (N.ltb_spec (N_of_ascii x) (N_of_ascii y)) as [Hxy|Hxy];
  destruct (N.ltb_spec (N_of_ascii y) (N_of_ascii x)) as [Hyx|Hyx];
  destruct (N.ltb_spec (N_of_ascii y) (N_of_ascii z)) as [Hyz|Hyz];
  destruct (N.ltb_spec (N_of_ascii z) (N_of_ascii y)) as [Hzy|Hzy];
  destruct (N.ltb_spec (N_of_ascii x) (N_of_ascii z)) as [Hxz|Hxz];
  destruct (N.ltb_spec (N_of_ascii z) (N_of_ascii x)) as [Hzx|Hzx];
    try discriminate; try reflexivity; try lia.
  apply IH.
Qed.

Lemma lt_asym (a b : string) :
  JS.string_lt a b = true -> JS.string_lt b a = false.
Proof.
  intro H.
  destruct (JS.string_lt b a) eqn:E; [|reflexivity].
  pose proof (lt_trans _ _ _ H E) as Haa.
  now rewrite lt_irrefl in Haa.
Qed.

Lemma lt_total (a b : string) :
  JS.string_lt a b = false -> JS.string_lt b a = false -> a = b.
Proof.
  revert b.
  induction a as [|x a IH]; intros [|y b]; simpl;
    try discriminate; try reflexivity.
  destruct (N.ltb_spec (N_of_ascii x) (N_of_ascii y)) as [Hxy|Hxy];
  destruct (N.ltb_spec (N_of_ascii y) (N_of_ascii x)) as [Hyx|Hyx];
    try discriminate; try lia.
  intros H1 H2.
  assert (x = y) by (apply code_unit_inj; lia).
  subst. f_equal. now apply IH.
Qed.

(** [default_compare] is a consistent comparator. *)
Lemma default_compare_le (a b : string) :
  JS.default_compare a b <= 0 <-> JS.string_lt b a = false.
Proof.
  unfold JS.default_compare.
  destruct (JS.string_lt a b) eqn:Hab.
  - rewrite (lt_asym _ _ Hab). split; [reflexivity | lia].
  - destruct (JS.string_lt b a); split; intros; try lia; try discriminate;
      reflexivity.
Qed.

Lemma default_compare_total (a b : string) :
  JS.default_compare a b > 0 -> JS.default_compare b a <= 0.
Proof.
  unfold JS.default_compare.
  destruct (JS.string_lt a b) eqn:Hab; [lia|].
  destruct (JS.string_lt b a) eqn:Hba; lia.
Qed.

Lemma default_compare_trans (a b c : string) :
  JS.default_compare a b <= 0 -> JS.default_compare b c <= 0 ->
  JS.default_compare a c <= 0.
Proof.
  rewrite !default_compare_le.
  intros Hba Hcb.
  destruct (JS.string_lt c a) eqn:Hca; [|reflexivity].
  destruct (JS.string_lt a b) eqn:Hab.
  - now rewrite (lt_trans _ _ _ Hca Hab) in Hcb.
  - assert (a = b) by now apply lt_total.
    subst. congruence.
Qed.

Lemma default_compare_zero (a b : string) :
  JS.default_compare a b = 0 -> a = b.
Proof.
  unfold JS.default_compare.
  destruct (JS.string_lt a b) eqn:Hab; [lia|].
  destruct (JS.string_lt b a) eqn:Hba; [lia|].
  intros _. now apply lt_total.
Qed.

End StringOrder.

(** ** Array.prototype.sort *)

Module SortFacts.

Section Generic.
Context {A : Type}.
Variable cmp : A -> A -> Z.

Lemma insert_perm (x : A) (l : list A) :
  Permutation (JS.insert cmp x l) (x :: l).
Proof.
  induction l as [|y l IH]; simpl; [reflexivity|].
  destruct (cmp x y <=? 0); [reflexivity|].
  rewrite IH. apply perm_swap.
Qed.

Lemma sort_perm (l : list A) : Permutation (JS.sort cmp l) l.
Proof.
  induction l as [|x l IH]; simpl; [reflexivity|].
  rewrite insert_perm. now apply perm_skip.
Qed.

Lemma sort_In (l : list A) (x : A) : In x (JS.sort cmp l) <-> In x l.
Proof.
  split; apply Permutation_in; [|symmetry]; apply sort_perm.
Qed.

Lemma sort_length (l : list A) :
  List.length (JS.sort cmp l) = List.length l.
Proof. apply Permutation_length, sort_perm. Qed.

(** *** Stability

    Members of the array that the comparator does not tell apart keep the
    order they had.  Of the insertion this is true whatever the comparator
    is; of the sort of an engine, for a comparator that is consistent on the
    array (see [V8Facts]). *)
Lemma filter_insert (Q : A -> bool) (x : A) (l : list A) :
  (forall y, In y l -> Q x = true -> Q y = true -> cmp x y <= 0) ->
  filter Q (JS.insert cmp x l) = filter Q (x :: l).
Proof.
  induction l as [|y l IH]; intro H; [reflexivity|].
  simpl JS.insert.
  destruct (cmp x y <=? 0) eqn:E; [reflexivity|].
  apply Z.leb_gt in E.
  assert (IH' : filter Q (JS.insert cmp x l) = filter Q (x :: l)).
  { apply IH. intros z Hz Qx Qz. apply H; simpl; auto. }
  simpl in *. rewrite IH'.
  destruct (Q x) eqn:Qx; [|reflexivity].
  destruct (Q y) eqn:Qy; [|reflexivity].
  specialize (H y (or_introl eq_refl) eq_refl Qy). lia.
Qed.

Lemma sort_stable (Q : A -> bool) (l : list A) :
  (forall x y, In x l -> In y l -> Q x = true -> Q y = true ->
               cmp x y <= 0) ->
  filter Q (JS.sort cmp l) = filter Q l.
Proof.
  induction l as [|x l IH]; intro H; [reflexivity|].
  assert (IH' : filter Q (JS.sort cmp l) = filter Q l).
  { apply IH. intros a b Ha Hb Qa Qb. apply H; simpl; auto. }
  simpl JS.sort. rewrite filter_insert.
  - simpl. now rewrite IH'.
  - intros y Hy Qx Qy. apply (proj1 (sort_In _ _)) in Hy.
    apply H; simpl; auto.
Qed.

(** An array whose members are all tied comes back as it is. *)
Lemma sort_tied (l : list A) :
  (forall x y, In x l -> In y l -> cmp x y <= 0) -> JS.sort cmp l = l.
Proof.
  intro H.
  pose proof (sort_stable (fun _ => true) l) as S.
  rewrite !forallb_filter_id in S
    by (apply forallb_forall; reflexivity).
  apply S. intros; now apply H.
Qed.

(** *** Order, for a consistent comparator *)
Section Consistent.
Hypothesis total : forall a b, cmp a b > 0 -> cmp b a <= 0.
Hypothesis trans :
  forall a b c, cmp a b <= 0 -> cmp b c <= 0 -> cmp a c <= 0.

Lemma insert_sorted (x : A) (l : list A) :
  StronglySorted (fun a b => cmp a b <= 0) l ->
  StronglySorted (fun a b => cmp a b <= 0) (JS.insert cmp x l).
Proof.
  induction 1 as [|y l Hl IH Hy]; simpl.
  - constructor; constructor.
  - destruct (cmp x y <=? 0) eqn:E.
    + apply Z.leb_le in E.
      constructor; [now constructor|].
      constructor; [exact E|].
      eapply Forall_impl; [|exact Hy].
      intros z Hz. now apply trans with y.
    + apply Z.leb_gt in E.
      constructor; [exact IH|].
      rewrite Forall_forall. intros z Hz.
      apply (Permutation_in _ (insert_perm x l)) in Hz.
      destruct Hz as [<-|Hz].
      * apply total. lia.
      * rewrite Forall_forall in Hy. now apply Hy.
Qed.

Lemma sort_sorted (l : list A) :
  StronglySorted (fun a b => cmp a b <= 0) (JS.sort cmp l).
Proof.
  induction l as [|x l IH]; simpl; [constructor|].
  now apply insert_sorted.
Qed.
End Consistent.

(** *** Order, when no two members are tied

    [cmp] is then only asked to be a strict order where it is negative. *)
Section Strict.
Hypothesis antisym : forall a b, cmp b a = - cmp a b.
Hypothesis strict_trans :
  forall a b c, cmp a b < 0 -> cmp b c < 0 -> cmp a c < 0.

Lemma insert_strict (x : A) (l : list A) :
  Forall (fun y => cmp x y <> 0) l ->
  StronglySorted (fun a b => cmp a b < 0) l ->
  StronglySorted (fun a b => cmp a b < 0) (JS.insert cmp x l).
Proof.
  intros Hx Hl. revert Hx.
  induction Hl as [|y l Hl IH Hy]; simpl; intro Hx.
  - constructor; constructor.
  - inversion Hx as [|? ? Hxy Hx']; subst.
    destruct (cmp x y <=? 0) eqn:E.
    + apply Z.leb_le in E.
      assert (cmp x y < 0) by lia.
      constructor; [now constructor|].
      constructor; [assumption|].
      eapply Forall_impl; [|exact Hy].
      intros z Hz. now apply strict_trans with y.
    + apply Z.leb_gt in E.
      constructor; [now apply IH|].
      rewrite Forall_forall. intros z Hz.
      apply (Permutation_in _ (insert_perm x l)) in Hz.
      destruct Hz as [<-|Hz].
      * rewrite antisym. lia.
      * rewrite Forall_forall in Hy. now apply Hy.
Qed.

Lemma sort_strict (l : list A) :
  ForallOrdPairs (fun a b => cmp a b <> 0) l ->
  StronglySorted (fun a b => cmp a b < 0) (JS.sort cmp l).
Proof.
  induction 1 as [|x l Hx Hl IH]; simpl; [constructor|].
  apply insert_strict; [|exact IH].
  rewrite Forall_forall in *. intros y Hy.
  apply Hx. now apply (proj1 (sort_In _ _)) in Hy.
Qed.
End Strict.
End Generic.

Lemma sort_ext {A} (f g : A -> A -> Z) (l : list A) :
  (forall a b, f a b = g a b) -> JS.sort f l = JS.sort g l.
Proof.
  intro H. induction l as [|x l IH]; simpl; [reflexivity|].
  rewrite IH. generalize (JS.sort g l). intro s.
  induction s as [|y s IHs]; simpl; [reflexivity|].
  now rewrite H, IHs.
Qed.

Lemma StronglySorted_snoc {A} (R : A -> A -> Prop) (l : list A) (x : A) :
  StronglySorted R l -> Forall (fun y => R y x) l ->
  StronglySorted R (l ++ [x]).
Proof.
  induction 1 as [|y l Hl IH Hy]; simpl; intro Hx.
  - constructor; constructor.
  - inversion Hx; subst.
    constructor; [now apply IH|].
    apply Forall_app. split; [exact Hy|]. now constructor.
Qed.

Lemma StronglySorted_rev {A} (R : A -> A -> Prop) (l : list A) :
  StronglySorted R l -> StronglySorted (fun a b => R b a) (rev l).
Proof.
  induction 1 as [|x l Hl IH Hx]; simpl; [constructor|].
  apply StronglySorted_snoc; [exact IH|].
  rewrite Forall_forall in *. intros y Hy.
  apply Hx. now apply in_rev.
Qed.

(** Two arrangements of the same members in a strict order are equal. *)
Lemma sorted_unique {A} (R : A -> A -> Prop) (l1 l2 : list A) :
  (forall a b, R a b -> R b a -> False) ->
  StronglySorted R l1 -> StronglySorted R l2 -> Permutation l1 l2 ->
  l1 = l2.
Proof.
  intros asym H1. revert l2.
  induction H1 as [|a t1 Ht1 IH Ha]; intros l2 H2 P.
  - apply Permutation_nil in P. now subst.
  - destruct H2 as [|b t2 Ht2 Hb].
    + symmetry in P. apply Permutation_nil in P. discriminate.
    + assert (a = b).
      { assert (Ia : In a (b :: t2))
          by (eapply Permutation_in; [exact P | now left]).
        assert (Ib : In b (a :: t1))
          by (eapply Permutation_in; [symmetry; exact P | now left]).
        destruct Ia as [->|Ia]; [reflexivity|].
        destruct Ib as [->|Ib]; [reflexivity|].
        rewrite Forall_forall in Ha, Hb.
        exfalso. apply (asym a b); auto. }
      subst. f_equal. apply IH; [exact Ht2|].
      now apply Permutation_cons_inv in P.
Qed.

End SortFacts.

(** ** Sets *)

Module SetFacts.

Lemma has_In (s : list string) (x : string) :
  JS.Set_has s x = true <-> In x s.
Proof.
  unfold JS.Set_has. rewrite existsb_exists. split.
  - intros (y & Hy & E). apply String.eqb_eq in E. now subst.
  - intro H. exists x. split; [exact H | apply String.eqb_refl].
Qed.

Lemma add_In (s : list string) (x y : string) :
  In y (JS.Set_add s x) <-> In y s \/ y = x.
Proof.
  unfold JS.Set_add.
  destruct (JS.Set_has s x) eqn:E.
  - apply has_In in E. split; [auto|]. intros [H| ->]; assumption.
  - rewrite in_app_iff. simpl. intuition.
Qed.

Lemma add_NoDup (s : list string) (x : string) :
  NoDup s -> NoDup (JS.Set_add s x).
Proof.
  intro H. unfold JS.Set_add.
  destruct (JS.Set_has s x) eqn:E; [exact H|].
  apply NoDup_app; [exact H | constructor; [intros [] | constructor] |].
  intros y Hy [<-|[]].
  apply has_In in Hy. congruence.
Qed.

Lemma truthy_nonempty (s : string) : JS.truthy s = true <-> s <> "".
Proof.
  unfold JS.truthy. rewrite negb_true_iff. split.
  - intros E ->. discriminate.
  - intro H. apply String.eqb_neq. exact H.
Qed.

End SetFacts.

(** ** getUniqueMapIds *)

Module MapIds.

(** The set built by the [forEach] over the jobs, from any starting set. *)
Lemma collected (S : list string) (J : list RidershipJob) (acc : list string) :
  NoDup acc ->
  NoDup (fold_left (collect S) J acc) /\
  forall m, In m (fold_left (collect S) J acc) <->
            In m acc \/
            exists j, In j J /\ In (project_id (request_payload j)) S /\
                      map_id j = Some m /\ m <> "".
Proof.
  revert acc.
  induction J as [|j J IH]; intros acc Hacc; simpl.
  - split; [exact Hacc|]. intro m. split; [auto|].
    intros [H|(j & [] & _)]. exact H.
  - assert (Hacc' : NoDup (collect S acc j)).
    { unfold collect. destruct (_ && _); [|exact Hacc].
      destruct (map_id j); [now apply SetFacts.add_NoDup | exact Hacc]. }
    destruct (IH _ Hacc') as [ND HIn].
    split; [exact ND|].
    intro m. rewrite HIn. clear HIn IH ND Hacc'.
    unfold collect, map_id_truthy.
    destruct (JS.Set_has S (project_id (request_payload j))) eqn:Hs;
      destruct (map_id j) as [mj|] eqn:Hm; simpl.
    + destruct (JS.truthy mj) eqn:Ht.
      * rewrite SetFacts.add_In. apply SetFacts.has_In in Hs.
        apply SetFacts.truthy_nonempty in Ht.
        split.
        -- intros [[H| ->]|(j' & Hj' & R)].
           ++ now left.
           ++ right. exists j. auto.
           ++ right. exists j'. auto.
        -- intros [H|(j' & [<-|Hj'] & Hp & Hm' & Hne)].
           ++ auto.
           ++ left. right. congruence.
           ++ right. exists j'. auto.
      * split.
        -- intros [H|(j' & Hj' & R)]; [now left|]. right. exists j'. auto.
        -- intros [H|(j' & [<-|Hj'] & Hp & Hm' & Hne)]; [auto| |].
           ++ exfalso. assert (mj = m) by congruence. subst.
              apply SetFacts.truthy_nonempty in Hne. congruence.
           ++ right. exists j'. auto.
    + split.
      * intros [H|(j' & Hj' & R)]; [now left|]. right. exists j'. auto.
      * intros [H|(j' & [<-|Hj'] & Hp & Hm' & Hne)]; [auto|congruence|].
        right. exists j'. auto.
    + split.
      * intros [H|(j' & Hj' & R)]; [now left|]. right. exists j'. auto.
      * intros [H|(j' & [<-|Hj'] & Hp & Hm' & Hne)]; [auto| |].
        -- apply SetFacts.has_In in Hp. congruence.
        -- right. exists j'. auto.
    + split.
      * intros [H|(j' & Hj' & R)]; [now left|]. right. exists j'. auto.
      * intros [H|(j' & [<-|Hj'] & Hp & Hm' & Hne)]; [auto|congruence|].
        right. exists j'. auto.
Qed.

(** A duplicate-free array in ascending order is in strictly ascending
    order. *)
Lemma strictly_sorted (l : list string) :
  NoDup l ->
  StronglySorted (fun a b => JS.default_compare a b <= 0) l ->
  StronglySorted (fun a b => JS.string_lt a b = true) l.
Proof.
  induction 2 as [|x l Hl IH Hx]; [constructor|].
  inversion H; subst.
  constructor; [now apply IH|].
  rewrite Forall_forall in *. intros y Hy.
  specialize (Hx y Hy). apply StringOrder.default_compare_le in Hx.
  destruct (JS.string_lt x y) eqn:E; [reflexivity|].
  assert (x = y) by now apply StringOrder.lt_total.
  subst. contradiction.
Qed.

(** C1.  Whatever the jobs, an empty selection gives the empty array; and for
    every selection the result holds exactly the map ids of the jobs whose
    [request_payload.project_id] is selected and whose [map_id] is neither
    [null] nor empty, each once, in strictly ascending order of code units. *)
Theorem getUniqueMapIds_spec (d : ProjectsData) (sel : list string) :
  getUniqueMapIds (Some d) [] = [] /\
  (forall m,
      In m (getUniqueMapIds (Some d) sel) <->
      exists j, In j (jobs (projects d)) /\
                In (project_id (request_payload j)) sel /\
                map_id j = Some m /\ m <> "") /\
  NoDup (getUniqueMapIds (Some d) sel) /\
  StronglySorted (fun a b => JS.string_lt a b = true)
                 (getUniqueMapIds (Some d) sel).
Proof.
  split; [reflexivity|].
  unfold getUniqueMapIds.
  destruct sel as [|s sel]; simpl List.length; cbv iota beta.
  - simpl. repeat split.
    + intros [].
    + intros (j & _ & [] & _).
    + constructor.
    + constructor.
  - change (S (List.length sel) =? 0)%nat with false. cbv iota.
    destruct (collected (s :: sel) (jobs (projects d)) [] (NoDup_nil _))
      as [ND HIn].
    set (mapIds := fold_left _ _ _) in *.
    assert (P := SortFacts.sort_perm JS.default_compare mapIds).
    assert (ND' : NoDup (JS.sort JS.default_compare mapIds))
      by (eapply Permutation_NoDup; [symmetry; exact P | exact ND]).
    repeat split.
    + intro H. apply (Permutation_in _ P) in H. apply HIn in H.
      destruct H as [[]|H]. exact H.
    + intro H. apply (Permutation_in _ (Permutation_sym P)).
      apply HIn. now right.
    + exact ND'.
    + apply strictly_sorted; [exact ND'|].
      apply SortFacts.sort_sorted.
      * apply StringOrder.default_compare_total.
      * apply StringOrder.default_compare_trans.
Qed.

End MapIds.

(** ** sortedProjects *)

Module SortProjects.

Lemma strict_eq_eq (a b : value) : strict_eq a b = true -> a = b.
Proof.
  destruct a as [|[|x]|s|m], b as [|[|y]|t|n]; simpl; try discriminate;
    try reflexivity.
  - intro H. apply Z.eqb_eq in H. now subst.
  - intro H. apply String.eqb_eq in H. now subst.
  - intro H. apply String.eqb_eq in H. now subst.
Qed.

Lemma strict_eq_sym (a b : value) : strict_eq a b = strict_eq b a.
Proof.
  destruct a as [|[|x]|s|m], b as [|[|y]|t|n]; simpl; try reflexivity.
  - apply Z.eqb_sym.
  - apply String.eqb_sym.
  - apply String.eqb_sym.
Qed.

Lemma less_than_irrefl (a : value) : less_than a a = false.
Proof.
  destruct a as [|[|x]|s|m]; simpl; try reflexivity.
  - apply Z.ltb_irrefl.
  - apply StringOrder.lt_irrefl.
Qed.

Lemma less_than_trans (a b c : value) :
  less_than a b = true -> less_than b c = true -> less_than a c = true.
Proof.
  destruct a as [|[|x]|s|m], b as [|[|y]|t|n], c as [|[|z]|u|o]; simpl;
    try discriminate.
  - rewrite !Z.ltb_lt. lia.
  - apply StringOrder.lt_trans.
Qed.

Lemma less_than_asym (a b : value) :
  less_than a b = true -> less_than b a = false.
Proof.
  intro H. destruct (less_than b a) eqn:E; [|reflexivity].
  pose proof (less_than_trans _ _ _ H E) as K.
  now rewrite less_than_irrefl in K.
Qed.

Lemma less_than_not_eq (a b : value) :
  less_than a b = true -> strict_eq a b = false.
Proof.
  intro H. destruct (strict_eq a b) eqn:E; [|reflexivity].
  apply strict_eq_eq in E. subst. now rewrite less_than_irrefl in H.
Qed.

Section Comparator.
Variable Date_getTime : string -> number.

(** The comparator reads one value from each project. *)
Lemma sort_values_key (sortBy : string) :
  exists k : UniqueProject -> value,
    forall a b, sort_values Date_getTime sortBy a b = (k a, k b).
Proof.
  unfold sort_values.
  destruct (_ || _).
  - now exists (fun p => time_of Date_getTime (get p sortBy)).
  - destruct (String.eqb sortBy "author"); [now exists (fun p => Str (author_name p))|].
    destruct (String.eqb sortBy "agency"); [now exists (fun p => Str (agency_name p))|].
    now exists (fun p => get p sortBy).
Qed.

Lemma compare_values_antisym (dir : string) (a b : value) :
  compare_values dir b a = - compare_values dir a b.
Proof.
  unfold compare_values. rewrite (strict_eq_sym b a).
  destruct (strict_eq a b); [reflexivity|].
  destruct (less_than a b) eqn:Hab.
  - rewrite (less_than_asym _ _ Hab). destruct (String.eqb dir "desc"); lia.
  - destruct (less_than b a); destruct (String.eqb dir "desc"); lia.
Qed.

(** When the comparator is negative. *)
Lemma compare_values_neg (dir : string) (a b : value) :
  compare_values dir a b < 0 <->
  (if String.eqb dir "desc" then less_than b a else less_than a b) = true.
Proof.
  unfold compare_values.
  destruct (strict_eq a b) eqn:E.
  - apply strict_eq_eq in E. subst. rewrite less_than_irrefl.
    destruct (String.eqb dir "desc"); split; (lia || discriminate).
  - destruct (less_than a b) eqn:Hab.
    + rewrite (less_than_asym _ _ Hab).
      destruct (String.eqb dir "desc"); split;
        (lia || discriminate || reflexivity).
    + destruct (less_than b a); destruct (String.eqb dir "desc"); split;
        (lia || discriminate || reflexivity).
Qed.

Lemma compare_values_trans (dir : string) (a b c : value) :
  compare_values dir a b < 0 -> compare_values dir b c < 0 ->
  compare_values dir a c < 0.
Proof.
  rewrite !compare_values_neg.
  destruct (String.eqb dir "desc"); intros H1 H2;
    eapply less_than_trans; eassumption.
Qed.

(** Descending negates the comparison. *)
Lemma compare_values_desc (dir : string) (a b : value) :
  dir <> "desc" ->
  compare_values "desc" a b = - compare_values dir a b.
Proof.
  intro H. apply String.eqb_neq in H.
  unfold compare_values. rewrite H. simpl String.eqb.
  destruct (strict_eq a b); [reflexivity|]. lia.
Qed.

Lemma compareProjects_antisym (sortBy dir : string) (a b : UniqueProject) :
  compareProjects Date_getTime sortBy dir b a
  = - compareProjects Date_getTime sortBy dir a b.
Proof.
  unfold compareProjects.
  destruct (sort_values_key sortBy) as [k Hk]. rewrite !Hk.
  apply compare_values_antisym.
Qed.

Lemma compareProjects_trans (sortBy dir : string) (a b c : UniqueProject) :
  compareProjects Date_getTime sortBy dir a b < 0 ->
  compareProjects Date_getTime sortBy dir b c < 0 ->
  compareProjects Date_getTime sortBy dir a c < 0.
Proof.
  unfold compareProjects.
  destruct (sort_values_key sortBy) as [k Hk]. rewrite !Hk.
  apply compare_values_trans.
Qed.

Lemma compareProjects_desc (sortBy dir : string) (a b : UniqueProject) :
  dir <> "desc" ->
  compareProjects Date_getTime sortBy "desc" a b
  = - compareProjects Date_getTime sortBy dir a b.
Proof.
  unfold compareProjects.
  destruct (sort_values_key sortBy) as [k Hk]. rewrite !Hk.
  apply compare_values_desc.
Qed.

(** Whether two projects are tied does not depend on the direction. *)
Lemma tie_any_direction (sortBy dir dir' : string) (a b : UniqueProject) :
  compareProjects Date_getTime sortBy dir a b = 0 ->
  compareProjects Date_getTime sortBy dir' a b = 0.
Proof.
  unfold compareProjects.
  destruct (sort_values_key sortBy) as [k Hk]. rewrite !Hk.
  unfold compare_values.
  destruct (strict_eq (k a) (k b)); [reflexivity|].
  destruct (less_than (k a) (k b)), (less_than (k b) (k a)),
    (String.eqb dir "desc"), (String.eqb dir' "desc"); lia.
Qed.
End Comparator.

(** When no two projects of the list are tied, the descending order is the
    ascending order reversed. *)
Lemma descending_is_reverse (Date_getTime : string -> number)
    (d : ProjectsData) (sortBy : string) :
  ForallOrdPairs
    (fun a b => compareProjects Date_getTime sortBy "asc" a b <> 0)
    (unique_projects (projects d)) ->
  sortedProjects Date_getTime (Some d) sortBy "desc"
  = rev (sortedProjects Date_getTime (Some d) sortBy "asc").
Proof.
  unfold sortedProjects.
  set (P := unique_projects (projects d)).
  set (asc := compareProjects Date_getTime sortBy "asc").
  set (desc := compareProjects Date_getTime sortBy "desc").
  assert (flip : forall a b, desc a b = asc b a).
  { intros a b. subst asc desc.
    rewrite (compareProjects_desc Date_getTime sortBy "asc") by discriminate.
    now rewrite <- compareProjects_antisym. }
  intro NoTies.
  apply SortFacts.sorted_unique with (R := fun a b => desc a b < 0).
  - intros a b Hab Hba. subst desc.
    rewrite compareProjects_antisym in Hba. lia.
  - apply SortFacts.sort_strict.
    + apply compareProjects_antisym.
    + apply compareProjects_trans.
    + clear -NoTies flip.
      induction NoTies as [|x l Hx Hl IH]; constructor; [|exact IH].
      eapply Forall_impl; [|exact Hx].
      intros y Hy. cbv beta in Hy. rewrite flip.
      pose proof (compareProjects_antisym Date_getTime sortBy "asc" x y).
      subst asc. cbv beta in *. lia.
  - assert (S : StronglySorted (fun a b => asc a b < 0) (JS.sort asc P)).
    { apply SortFacts.sort_strict; [apply compareProjects_antisym
                                   | apply compareProjects_trans
                                   | exact NoTies]. }
    apply SortFacts.StronglySorted_rev in S.
    clear -S flip.
    induction S as [|x l Hl IH Hx]; constructor; [exact IH|].
    eapply Forall_impl; [|exact Hx].
    intros y Hy. cbv beta in Hy. now rewrite flip.
  - rewrite SortFacts.sort_perm, <- Permutation_rev.
    symmetry. apply SortFacts.sort_perm.
Qed.

(** The claim C2, that an unrecognized sort field orders the projects as
    [name] does, fails: the field [bogus] leaves the list as it is. *)
Lemma unrecognized_field_is_not_name :
  sortedProjects Host.Date_getTime (Some Sample.data) "bogus" "asc"
  = [Sample.pB; Sample.pA; Sample.pC]
  /\ sortedProjects Host.Date_getTime (Some Sample.data) "name" "asc"
     = [Sample.pA; Sample.pB; Sample.pC]
  /\ sortedProjects Host.Date_getTime (Some Sample.data) "bogus" "asc"
     <> sortedProjects Host.Date_getTime (Some Sample.data) "name" "asc".
Proof.
  repeat split; try reflexivity.
  vm_compute. discriminate.
Qed.

Lemma get_not_own (p q : UniqueProject) (k : string) :
  ~ In k ["id"; "name"; "agency_id"; "agency_name"; "author_id";
          "author_name"; "created_at"; "updated_at"] ->
  strict_eq (get p k) (get q k) = true.
Proof.
  intro H. unfold get.
  repeat match goal with
         | |- context [String.eqb k ?s] =>
             destruct (String.eqb_spec k s) as [->|_];
             [exfalso; apply H; simpl; tauto|]
         end.
  destruct (inherited k); simpl; [apply String.eqb_refl | reflexivity].
Qed.

(** C2, amended.  A sort field outside [name], [agency], [author],
    [created_at], [updated_at] is read as a property name: the sort returns
    every project, comparing [a[sortBy]] with [b[sortBy]]; for a name that
    is no field of the project record the list comes back in its input
    order, and [agency_name] and [author_name] order as [agency] and
    [author] do. *)
Theorem unrecognized_sort_field (Date_getTime : string -> number)
    (d : ProjectsData) (sortBy sortDirection : string) :
  ~ In sortBy ["name"; "agency"; "author"; "created_at"; "updated_at"] ->
  Permutation (sortedProjects Date_getTime (Some d) sortBy sortDirection)
              (unique_projects (projects d))
  /\ (forall a b,
         compareProjects Date_getTime sortBy sortDirection a b
         = compare_values sortDirection (get a sortBy) (get b sortBy))
  /\ (~ In sortBy ["id"; "name"; "agency_id"; "agency_name"; "author_id";
                   "author_name"; "created_at"; "updated_at"] ->
      sortedProjects Date_getTime (Some d) sortBy sortDirection
      = unique_projects (projects d))
  /\ (sortBy = "agency_name" ->
      sortedProjects Date_getTime (Some d) sortBy sortDirection
      = sortedProjects Date_getTime (Some d) "agency" sortDirection)
  /\ (sortBy = "author_name" ->
      sortedProjects Date_getTime (Some d) sortBy sortDirection
      = sortedProjects Date_getTime (Some d) "author" sortDirection).
Proof.
  intro U.
  assert (C : forall a b,
             compareProjects Date_getTime sortBy sortDirection a b
             = compare_values sortDirection (get a sortBy) (get b sortBy)).
  { intros a b. unfold compareProjects, sort_values.
    destruct (String.eqb_spec sortBy "created_at") as [->|_];
      [exfalso; apply U; simpl; tauto|].
    destruct (String.eqb_spec sortBy "updated_at") as [->|_];
      [exfalso; apply U; simpl; tauto|].
    destruct (String.eqb_spec sortBy "author") as [->|_];
      [exfalso; apply U; simpl; tauto|].
    destruct (String.eqb_spec sortBy "agency") as [->|_];
      [exfalso; apply U; simpl; tauto|].
    reflexivity. }
  split; [apply SortFacts.sort_perm|].
  split; [exact C|].
  split; [|split].
  - intro N. unfold sortedProjects.
    apply SortFacts.sort_tied. intros a b _ _.
    rewrite C. unfold compare_values.
    rewrite (get_not_own a b sortBy N). lia.
  - intros ->. unfold sortedProjects. now apply SortFacts.sort_ext.
  - intros ->. unfold sortedProjects. now apply SortFacts.sort_ext.
Qed.

Lemma unrecognized_sort_field_run :
  sortedProjects Host.Date_getTime (Some Sample.data) "bogus" "desc"
  = unique_projects (projects Sample.data).
Proof.
  apply (unrecognized_sort_field Host.Date_getTime Sample.data "bogus" "desc").
  - simpl. intuition discriminate.
  - simpl. intuition discriminate.
Defined.

End SortProjects.

(** ** Objects used as dictionaries *)

Module ObjFacts.

Section Own.
Context {V : Type}.
Implicit Types (o : Obj.t V) (k : string) (v : V).

Lemma own_None o k : Obj.own o k = None <-> ~ In k (map fst o).
Proof.
  induction o as [|[k' v'] o IH]; simpl; [tauto|].
  destruct (String.eqb_spec k k') as [->|N].
  - split; [discriminate | intro H; exfalso; apply H; now left].
  - rewrite IH. intuition congruence.
Qed.

Lemma own_Some_In o k v : Obj.own o k = Some v -> In (k, v) o.
Proof.
  induction o as [|[k' v'] o IH]; simpl; [discriminate|].
  destruct (String.eqb_spec k k') as [->|N].
  - intros [= ->]. now left.
  - intro H. right. now apply IH.
Qed.

Lemma In_own o k v : NoDup (map fst o) -> In (k, v) o -> Obj.own o k = Some v.
Proof.
  induction o as [|[k' v'] o IH]; simpl; intros ND H; [tauto|].
  inversion ND as [|? ? Hk ND']; subst.
  destruct H as [E|I].
  - injection E as -> ->. now rewrite String.eqb_refl.
  - destruct (String.eqb_spec k k') as [->|N]; [|now apply IH].
    exfalso. apply Hk. now apply (in_map fst) in I.
Qed.

Lemma own_app_None o o' k :
  Obj.own o k = None -> Obj.own (o ++ o') k = Obj.own o' k.
Proof.
  induction o as [|[k' v'] o IH]; simpl; [reflexivity|].
  destruct (String.eqb k k'); [discriminate | exact IH].
Qed.

Lemma replace_app_None o o' k v :
  Obj.own o k = None -> Obj.replace (o ++ o') k v = o ++ Obj.replace o' k v.
Proof.
  induction o as [|[k' v'] o IH]; simpl; [reflexivity|].
  destruct (String.eqb k k'); [discriminate|].
  intro H. now rewrite IH.
Qed.

Lemma replace_keys o k v : map fst (Obj.replace o k v) = map fst o.
Proof.
  induction o as [|[k' v'] o IH]; simpl; [reflexivity|].
  destruct (String.eqb k k'); simpl; [reflexivity | now rewrite IH].
Qed.

(** What an object holds after one of its properties got a new value. *)
Lemma replace_In o k v k' v' :
  NoDup (map fst o) ->
  In (k', v') (Obj.replace o k v) ->
  (k' = k /\ v' = v) \/ (k' <> k /\ In (k', v') o).
Proof.
  induction o as [|[k0 v0] o IH]; simpl; [tauto|].
  intro ND. inversion ND as [|? ? Hk ND']; subst.
  destruct (String.eqb_spec k k0) as [->|N]; simpl.
  - intros [E|I].
    + injection E as <- <-. now left.
    + right. split; [|now right].
      intros ->. apply Hk. now apply (in_map fst) in I.
  - intros [E|I].
    + injection E as <- <-. right. split; [congruence | now left].
    + destruct (IH ND' I) as [L|[R1 R2]]; [now left|].
      right. split; [exact R1 | now right].
Qed.

(** [Object.entries] lists every own property once. *)
Lemma entries_perm o : Permutation (Obj.entries o) o.
Proof.
  unfold Obj.entries. rewrite SortFacts.sort_perm.
  induction o as [|e o IH]; simpl; [reflexivity|].
  destruct (Obj.is_index (fst e)); simpl.
  - now apply perm_skip.
  - rewrite <- Permutation_middle. now apply perm_skip.
Qed.
End Own.

End ObjFacts.

(** ** groupedProjects *)

Module Grouping.

Section Dictionary.
Variable groupBy : string.

Lemma filter_key_absent (l : list UniqueProject) (k : string) :
  (forall p, In p l -> groupKey groupBy p <> k) ->
  filter (fun p => String.eqb (groupKey groupBy p) k) l = [].
Proof.
  induction l as [|q l IH]; simpl; intro H; [reflexivity|].
  destruct (String.eqb_spec (groupKey groupBy q) k) as [E|_].
  - exfalso. apply (H q); auto.
  - apply IH. intros p Hp. apply H. now right.
Qed.

(** One turn of the loop, for a key that [Object.prototype] does not
    define. *)
Lemma add_to_group_ok (o : Obj.t (list UniqueProject))
    (l : list UniqueProject) (p : UniqueProject) :
  inherited (groupKey groupBy p) = false ->
  groups_of groupBy l o ->
  exists o', add_to_group groupBy o p = Normal o'
             /\ groups_of groupBy (l ++ [p]) o'.
Proof.
  intros NI (ND & Hm & Hk).
  unfold add_to_group, Obj.read.
  set (k := groupKey groupBy p) in *.
  destruct (Obj.own o k) as [ms|] eqn:Own.
  - (* the key has its array already *)
    rewrite Own. unfold Obj.write. rewrite Own.
    eexists. split; [reflexivity|].
    split; [now rewrite ObjFacts.replace_keys|].
    split.
    + intros k' ms' I.
      apply ObjFacts.replace_In in I; [|exact ND].
      rewrite filter_app. simpl. fold k.
      destruct I as [[-> ->]|[N I]].
      * rewrite String.eqb_refl.
        apply ObjFacts.own_Some_In in Own.
        destruct (Hm _ _ Own) as [_ <-].
        split; [now destruct ms | reflexivity].
      * destruct (String.eqb_spec k k') as [E|_]; [congruence|].
        rewrite app_nil_r. now apply Hm.
    + intros q Hq. rewrite ObjFacts.replace_keys.
      apply in_app_or in Hq. destruct Hq as [Hq|[<-|[]]]; [now apply Hk|].
      fold k. apply ObjFacts.own_Some_In in Own.
      now apply (in_map fst) in Own.
  - (* a new key: an empty array is created, then filled *)
    rewrite NI. unfold Obj.write. rewrite Own.
    rewrite !ObjFacts.own_app_None by exact Own. simpl.
    rewrite !String.eqb_refl.
    rewrite ObjFacts.replace_app_None by exact Own. simpl.
    rewrite String.eqb_refl.
    apply ObjFacts.own_None in Own.
    eexists. split; [reflexivity|].
    split; [|split].
    + rewrite map_app. simpl. apply NoDup_app; [exact ND | | ].
      * constructor; [intros [] | constructor].
      * intros x Hx [<-|[]]. contradiction.
    + intros k' ms' I. rewrite filter_app. simpl. fold k.
      apply in_app_or in I. destruct I as [I|[E|[]]].
      * destruct (String.eqb_spec k k') as [E|_].
        -- exfalso. apply Own. subst k'. now apply (in_map fst) in I.
        -- rewrite app_nil_r. now apply Hm.
      * injection E as <- <-. rewrite String.eqb_refl.
        rewrite filter_key_absent; [split; [discriminate | reflexivity]|].
        intros q Hq E. apply Own. rewrite <- E. now apply Hk.
    + intros q Hq. rewrite map_app, in_app_iff. simpl.
      apply in_app_or in Hq. destruct Hq as [Hq|[<-|[]]]; [left; now apply Hk|].
      right. now left.
Qed.

Lemma forEach_ok (l l0 : list UniqueProject)
    (o : Obj.t (list UniqueProject)) :
  (forall p, In p l -> inherited (groupKey groupBy p) = false) ->
  groups_of groupBy l0 o ->
  exists o', forEach groupBy l o = Normal o'
             /\ groups_of groupBy (l0 ++ l) o'.
Proof.
  revert l0 o.
  induction l as [|p l IH]; intros l0 o NI G; simpl.
  - exists o. now rewrite app_nil_r.
  - destruct (add_to_group_ok o l0 p) as (o1 & -> & G1);
      [apply NI; now left | exact G |]. simpl.
    destruct (IH (l0 ++ [p]) o1) as (o' & E & G');
      [intros q Hq; apply NI; now right | exact G1 |].
    exists o'. split; [exact E|].
    now rewrite <- app_assoc in G'.
Qed.

(** A key that [Object.prototype] defines makes the loop throw. *)
Lemma forEach_throws (l : list UniqueProject)
    (o : Obj.t (list UniqueProject)) :
  (forall k, In k (map fst o) -> inherited k = false) ->
  (exists p, In p l /\ inherited (groupKey groupBy p) = true) ->
  exists e, forEach groupBy l o = Throw e.
Proof.
  revert o.
  induction l as [|q l IH]; intros o Ho (p & Hp & Hi); [destruct Hp|].
  simpl forEach.
  destruct (inherited (groupKey groupBy q)) eqn:Hq.
  - unfold add_to_group, Obj.read.
    assert (Own : Obj.own o (groupKey groupBy q) = None).
    { apply ObjFacts.own_None. intro I. apply Ho in I. congruence. }
    rewrite Own, Hq. simpl. rewrite ?Own, ?Hq. simpl. eauto.
  - destruct Hp as [->|Hp]; [congruence|].
    destruct (add_to_group groupBy o q) as [o1|e] eqn:E; simpl; [|eauto].
    apply IH; [|eauto].
    unfold add_to_group, Obj.read in E.
    destruct (Obj.own o (groupKey groupBy q)) as [ms|] eqn:Own.
    + rewrite Own in E. unfold Obj.write in E. rewrite Own in E.
      injection E as <-. now rewrite ObjFacts.replace_keys.
    + rewrite Hq in E. unfold Obj.write in E. rewrite Own in E.
      rewrite !ObjFacts.own_app_None in E by exact Own. simpl in E.
      rewrite !String.eqb_refl in E.
      rewrite ObjFacts.replace_app_None in E by exact Own. simpl in E.
      rewrite String.eqb_refl in E. injection E as <-.
      intros k. rewrite map_app, in_app_iff. simpl.
      intros [I|[<-|[]]]; [now apply Ho | exact Hq].
Qed.
End Dictionary.

Lemma partition_perm {A} (f : A -> bool) (l : list A) :
  Permutation (filter f l ++ filter (fun x => negb (f x)) l) l.
Proof.
  induction l as [|x l IH]; simpl; [reflexivity|].
  destruct (f x); simpl.
  - now apply perm_skip.
  - rewrite <- Permutation_middle. now apply perm_skip.
Qed.

(** The groups of the keys that occur, laid end to end, are the list. *)
Lemma concat_groups (groupBy : string) (ks : list string)
    (l : list UniqueProject) :
  NoDup ks ->
  (forall p, In p l -> In (groupKey groupBy p) ks) ->
  Permutation
    (List.concat (map (fun k =>
                    filter (fun p => String.eqb (groupKey groupBy p) k) l)
                 ks))
    l.
Proof.
  intro ND. revert l.
  induction ND as [|k ks Hk ND IH]; intros l H; simpl.
  - destruct l as [|p l]; [reflexivity|]. destruct (H p). now left.
  - set (f := fun p => String.eqb (groupKey groupBy p) k).
    etransitivity; [|apply (partition_perm f l)].
    apply Permutation_app_head.
    etransitivity; [|apply (IH (filter (fun x => negb (f x)) l))].
    + apply Permutation_refl'. f_equal.
      apply map_ext_in. intros k' Hk'.
      induction l as [|q l IHl]; simpl; [reflexivity|].
      assert (IHl' : forall p, In p l -> In (groupKey groupBy p) (k :: ks))
        by (intros p Hp; apply H; now right).
      unfold f at 1.
      destruct (String.eqb_spec (groupKey groupBy q) k') as [E|N];
        destruct (String.eqb_spec (groupKey groupBy q) k) as [E'|N'];
        simpl.
      * exfalso. apply Hk. congruence.
      * rewrite E, String.eqb_refl. f_equal. now apply IHl.
      * now apply IHl.
      * destruct (String.eqb_spec (groupKey groupBy q) k'); [contradiction|].
        now apply IHl.
    + intros p Hp. apply filter_In in Hp. destruct Hp as [Hp Hf].
      destruct (H p Hp) as [E|I]; [|exact I].
      unfold f in Hf. rewrite <- E, String.eqb_refl in Hf. discriminate.
Qed.

Lemma StronglySorted_map {A B} (R : B -> B -> Prop) (f : A -> B)
    (l : list A) :
  StronglySorted (fun a b => R (f a) (f b)) l -> StronglySorted R (map f l).
Proof.
  induction 1 as [|x l Hl IH Hx]; simpl; constructor; [exact IH|].
  rewrite Forall_forall in *. intros y Hy.
  apply in_map_iff in Hy. destruct Hy as (z & <- & Hz). now apply Hx.
Qed.

(** The claim C5, that the groups come in ascending lexicographic order of
    their keys, fails in a browser: [alpha] is put before [Zeta], although
    [Zeta] is the smaller string. *)
Lemma groups_not_in_code_unit_order :
  groupedProjects Host.localeCompare
                  (unique_projects (projects Sample.data)) "agency"
  = Normal [ {| Group.key := "alpha"; Group.title := "alpha";
                Group.projects := [Sample.pA; Sample.pC] |};
             {| Group.key := "Zeta"; Group.title := "Zeta";
                Group.projects := [Sample.pB] |} ]
  /\ JS.string_lt "Zeta" "alpha" = true
  /\ ~ StronglySorted (fun a b => JS.string_lt b a = false)
                      ["alpha"; "Zeta"].
Proof.
  split; [reflexivity|]. split; [reflexivity|].
  intro S. inversion S as [|? ? _ F]; subst.
  inversion F as [|? ? H _]; subst. discriminate H.
Qed.

(** The same order comes out on every host that collates [alpha] before
    [Zeta]. *)
Lemma alpha_before_Zeta (localeCompare : string -> string -> Z) :
  localeCompare "Zeta" "alpha" > 0 ->
  groupedProjects localeCompare
                  (unique_projects (projects Sample.data)) "agency"
  = Normal [ {| Group.key := "alpha"; Group.title := "alpha";
                Group.projects := [Sample.pA; Sample.pC] |};
             {| Group.key := "Zeta"; Group.title := "Zeta";
                Group.projects := [Sample.pB] |} ].
Proof.
  intro H. apply Z.gt_lt, Z.leb_gt in H.
  unfold groupedProjects. simpl.
  change (groupKey "agency" Sample.pB) with "Zeta".
  change (groupKey "agency" Sample.pA) with "alpha".
  now rewrite H.
Qed.

(** A project whose key is the name of a member of [Object.prototype]
    makes the grouping throw. *)
Lemma inherited_key_throws (localeCompare : string -> string -> Z)
    (sorted : list UniqueProject) (groupBy : string) :
  groupBy <> "none" ->
  (exists p, In p sorted /\ inherited (groupKey groupBy p) = true) ->
  exists e, groupedProjects localeCompare sorted groupBy = Throw e.
Proof.
  intros N H. unfold groupedProjects.
  apply String.eqb_neq in N. rewrite N.
  destruct (forEach_throws groupBy sorted []) as [e ->];
    [intros k [] | exact H |].
  now exists e.
Qed.

(** C5, amended.  With [groupBy = none] there is one group, of empty title,
    holding the list as it is.  Otherwise, when no key is the name of a
    member of [Object.prototype]: the projects are partitioned by exact
    equality of the key ([author_name] for [author], [agency_name] for
    [agency]); every group holds the projects of its key in the order of the
    list; every project is in the group of its key and in no other, as often
    as in the list; and the groups are ordered by [localeCompare] on their
    keys, whenever [localeCompare] is a consistent comparator. *)
Theorem groupedProjects_spec (localeCompare : string -> string -> Z)
    (sorted : list UniqueProject) (groupBy : string) :
  groupedProjects localeCompare sorted "none"
  = Normal [ {| Group.key := "all"; Group.title := "";
                Group.projects := sorted |} ]
  /\ (forall p, groupKey "author" p = author_name p)
  /\ (forall p, groupKey "agency" p = agency_name p)
  /\ (groupBy <> "none" ->
      (forall p, In p sorted -> inherited (groupKey groupBy p) = false) ->
      exists groups,
        groupedProjects localeCompare sorted groupBy = Normal groups
        /\ NoDup (map Group.key groups)
        /\ (forall g, In g groups ->
                      Group.title g = Group.key g
                      /\ Group.projects g <> []
                      /\ Group.projects g
                         = filter (fun p => String.eqb (groupKey groupBy p)
                                                       (Group.key g))
                                  sorted)
        /\ (forall p, In p sorted ->
                      In (groupKey groupBy p) (map Group.key groups))
        /\ Permutation (List.concat (map Group.projects groups)) sorted
        /\ ((forall a b, localeCompare a b > 0 -> localeCompare b a <= 0) ->
            (forall a b c, localeCompare a b <= 0 -> localeCompare b c <= 0 ->
                           localeCompare a c <= 0) ->
            StronglySorted
              (fun g h => localeCompare (Group.key g) (Group.key h) <= 0)
              groups)).
Proof.
  split; [reflexivity|]. split; [reflexivity|]. split; [reflexivity|].
  intros N NI. unfold groupedProjects.
  apply String.eqb_neq in N. rewrite N.
  destruct (forEach_ok groupBy sorted [] []) as (o & -> & ND & Hm & Hk);
    [exact NI | |].
  { split; [constructor|]. split; [intros ? ? [] | intros ? []]. }
  simpl app in Hm, Hk. simpl bind.
  set (E := JS.sort (fun a b => localeCompare (fst a) (fst b))
                    (Obj.entries o)).
  assert (PE : Permutation E o).
  { subst E. rewrite SortFacts.sort_perm. apply ObjFacts.entries_perm. }
  set (mk := fun e : string * list UniqueProject =>
               {| Group.key := fst e; Group.title := fst e;
                  Group.projects := snd e |}).
  assert (K : map Group.key (map mk E) = map fst E)
    by (rewrite map_map; reflexivity).
  assert (HE : forall e, In e E ->
                 snd e = filter (fun p => String.eqb (groupKey groupBy p)
                                                     (fst e)) sorted
                 /\ snd e <> []).
  { intros [k ms] He. apply (Permutation_in _ PE) in He.
    destruct (Hm _ _ He). simpl. auto. }
  exists (map mk E). split; [reflexivity|].
  split; [|split; [|split; [|split]]].
  - rewrite K. eapply Permutation_NoDup; [|exact ND].
    symmetry. now apply Permutation_map.
  - intros g Hg. apply in_map_iff in Hg. destruct Hg as (e & <- & He).
    destruct (HE e He) as [F NE]. simpl. auto.
  - intros p Hp. rewrite K.
    eapply Permutation_in; [|apply Hk, Hp].
    symmetry. now apply Permutation_map.
  - rewrite map_map. simpl.
    rewrite (map_ext_in _ (fun e => filter
               (fun p => String.eqb (groupKey groupBy p) (fst e)) sorted))
      by (intros e He; apply HE, He).
    rewrite <- (map_map fst (fun k => filter
               (fun p => String.eqb (groupKey groupBy p) k) sorted)).
    apply concat_groups.
    + eapply Permutation_NoDup; [|exact ND].
      symmetry. now apply Permutation_map.
    + intros p Hp. eapply Permutation_in; [|apply Hk, Hp].
      symmetry. now apply Permutation_map.
  - intros total trans.
    apply StronglySorted_map with (R := fun g h =>
      localeCompare (Group.key g) (Group.key h) <= 0).
    subst E. simpl.
    apply (SortFacts.sort_sorted
             (fun a b : string * list UniqueProject =>
                localeCompare (fst a) (fst b))).
    + intros a b. apply total.
    + intros a b c. apply trans.
Qed.

(** A run of C5 on the sample projects, on a host that collates by code
    units. *)
Lemma groupedProjects_spec_run :
  exists groups,
    groupedProjects JS.default_compare
                    (unique_projects (projects Sample.data)) "agency"
    = Normal groups
    /\ NoDup (map Group.key groups)
    /\ Permutation (List.concat (map Group.projects groups))
                   (unique_projects (projects Sample.data))
    /\ StronglySorted
         (fun g h => JS.default_compare (Group.key g) (Group.key h) <= 0)
         groups.
Proof.
  destruct (groupedProjects_spec JS.default_compare
              (unique_projects (projects Sample.data)) "agency")
    as (_ & _ & _ & H).
  destruct H as (groups & E & ND & _ & _ & P & S).
  - discriminate.
  - intros p Hp. simpl in Hp.
    destruct Hp as [<-|[<-|[<-|[]]]]; reflexivity.
  - exists groups. repeat split; try assumption.
    apply S.
    + apply StringOrder.default_compare_total.
    + apply StringOrder.default_compare_trans.
Defined.

(** [groupKey] tests for [author] only: any other value reads
    [agency_name], and the whole grouping, a thrown error included, is the
    one of [agency]. *)
Lemma same_as_agency (localeCompare : string -> string -> Z)
    (sorted : list UniqueProject) (groupBy : string) :
  groupBy <> "none" -> groupBy <> "author" ->
  groupedProjects localeCompare sorted groupBy
  = groupedProjects localeCompare sorted "agency".
Proof.
  intros N A. unfold groupedProjects.
  apply String.eqb_neq in N. rewrite N. simpl String.eqb.
  assert (F : forall l o, forEach groupBy l o = forEach "agency" l o).
  { induction l as [|p l IH]; intro o; simpl; [reflexivity|].
    unfold add_to_group, groupKey.
    apply String.eqb_neq in A. rewrite A. simpl String.eqb.
    destruct (Obj.read o (agency_name p)); simpl;
      repeat match goal with
             | |- context [Obj.read ?x ?y] => destruct (Obj.read x y); simpl
             end;
      auto. }
  now rewrite F.
Qed.

(** The one error the loop throws. *)
Lemma forEach_error (groupBy : string) (l : list UniqueProject) :
  forall (o : Obj.t (list UniqueProject)) (e : string),
    forEach groupBy l o = Throw e ->
    e = "TypeError: groups[groupKey].push is not a function".
Proof.
  induction l as [|p l IH]; intros o e; simpl; [discriminate|].
  destruct (add_to_group groupBy o p) as [o1|e1] eqn:E; simpl.
  - apply IH.
  - intro H. injection H as <-.
    unfold add_to_group in E.
    repeat match type of E with
           | context [match ?x with _ => _ end] => destruct x
           end; congruence.
Qed.

End Grouping.

(** ** Query strings *)

Module QueryString.

Lemma contains_app (c : ascii) (a b : string) :
  Str.contains c (a ++ b) = Str.contains c a || Str.contains c b.
Proof.
  induction a as [|d a IH]; simpl; [reflexivity|].
  now rewrite IH, orb_assoc.
Qed.

Lemma split_none (sep : ascii) (a : string) :
  Str.contains sep a = false -> Str.split sep a = [a].
Proof.
  induction a as [|d a IH]; simpl; [reflexivity|].
  intro H. apply orb_false_iff in H. destruct H as [Hd Ha].
  now rewrite Hd, (IH Ha).
Qed.

Lemma split_app (sep : ascii) (a b : string) :
  Str.contains sep a = false ->
  Str.split sep (a ++ String sep b) = a :: Str.split sep b.
Proof.
  induction a as [|d a IH]; simpl; intro H.
  - now rewrite Ascii.eqb_refl.
  - apply orb_false_iff in H. destruct H as [Hd Ha].
    now rewrite Hd, (IH Ha).
Qed.

(** Splitting what was joined gives the pieces back, when there is at least
    one piece and no piece holds the separator. *)
Lemma split_join (sep : ascii) (pieces : list string) :
  pieces <> [] ->
  (forall x, In x pieces -> Str.contains sep x = false) ->
  Str.split sep (Str.join sep pieces) = pieces.
Proof.
  induction pieces as [|x l IH]; intros NE H; [congruence|].
  destruct l as [|y l].
  - simpl. apply split_none. apply H. now left.
  - change (Str.join sep (x :: y :: l))
      with (x ++ String sep (Str.join sep (y :: l)))%string.
    rewrite split_app by (apply H; now left).
    f_equal. apply IH; [discriminate|].
    intros z Hz. apply H. now right.
Qed.

Lemma cut_app (sep : ascii) (a b : string) :
  Str.contains sep a = false ->
  Str.cut sep (a ++ String sep b) = (a, b).
Proof.
  induction a as [|d a IH]; simpl; intro H.
  - now rewrite Ascii.eqb_refl.
  - apply orb_false_iff in H. destruct H as [Hd Ha].
    now rewrite Hd, (IH Ha).
Qed.

Lemma replace_char_app (x y : ascii) (a b : string) :
  Str.replace_char x y (a ++ b)
  = (Str.replace_char x y a ++ Str.replace_char x y b)%string.
Proof.
  induction a as [|d a IH]; simpl; [reflexivity|]. now rewrite IH.
Qed.

(** *** Encoding and decoding *)

Lemma decode_encode_char (c : ascii) (rest : string) :
  URLSearchParams.percent_decode
    (Str.replace_char "+" " " (URLSearchParams.encode_char c) ++ rest)
  = String c (URLSearchParams.percent_decode rest).
Proof.
  destruct c as [[] [] [] [] [] [] [] []]; reflexivity.
Qed.

Lemma decode_encode (s : string) :
  URLSearchParams.decode (URLSearchParams.encode s) = s.
Proof.
  unfold URLSearchParams.decode.
  induction s as [|c s IH]; [reflexivity|].
  simpl URLSearchParams.encode.
  rewrite replace_char_app, decode_encode_char. now rewrite IH.
Qed.

Lemma encode_char_plain (c : ascii) :
  Str.contains "=" (URLSearchParams.encode_char c) = false
  /\ Str.contains "&" (URLSearchParams.encode_char c) = false
  /\ Str.contains "?" (URLSearchParams.encode_char c) = false.
Proof.
  destruct c as [[] [] [] [] [] [] [] []]; repeat split; reflexivity.
Qed.

Lemma encode_plain (s : string) :
  Str.contains "=" (URLSearchParams.encode s) = false
  /\ Str.contains "&" (URLSearchParams.encode s) = false
  /\ Str.contains "?" (URLSearchParams.encode s) = false.
Proof.
  induction s as [|c s (I1 & I2 & I3)]; [repeat split; reflexivity|].
  simpl URLSearchParams.encode. rewrite !contains_app, I1, I2, I3.
  destruct (encode_char_plain c) as (-> & -> & ->). repeat split.
Qed.

(** *** Writing the parameters out and reading them back *)

Lemma join_nonempty (sep : ascii) (x : string) (l : list string) :
  x <> "" -> Str.join sep (x :: l) <> "".
Proof.
  intro H. destruct l; simpl; [exact H|].
  destruct x; [congruence | discriminate].
Qed.

Lemma piece_parse (n v : string) :
  (let '(a, b) :=
     Str.cut "=" (URLSearchParams.encode n
                  ++ String "=" (URLSearchParams.encode v))%string in
   (URLSearchParams.decode a, URLSearchParams.decode b))
  = (n, v).
Proof.
  rewrite cut_app by apply encode_plain.
  now rewrite !decode_encode.
Qed.

Lemma piece_nonempty (a b : string) :
  negb (String.eqb (a ++ String "=" b) "") = true.
Proof. destruct a; reflexivity. Qed.

Lemma piece_plain (n v : string) :
  Str.contains "&" (URLSearchParams.encode n
                    ++ String "=" (URLSearchParams.encode v)) = false.
Proof.
  rewrite contains_app. simpl.
  destruct (encode_plain n) as (_ & -> & _).
  destruct (encode_plain v) as (_ & -> & _). reflexivity.
Qed.

(** The parameters written to the URL are the parameters read from it. *)
Lemma parse_toString (params : URLSearchParams.t) :
  URLSearchParams.parse (search_of (URLSearchParams.toString params))
  = params.
Proof.
  destruct params as [|p l]; [reflexivity|].
  unfold URLSearchParams.toString.
  set (piece := fun p : string * string =>
                  (URLSearchParams.encode (fst p)
                   ++ String "=" (URLSearchParams.encode (snd p)))%string).
  assert (NE : Str.join "&" (map piece (p :: l)) <> "").
  { simpl map. apply join_nonempty. unfold piece.
    destruct (URLSearchParams.encode (fst p)); discriminate. }
  unfold search_of, URLSearchParams.parse.
  destruct (Str.join "&" (map piece (p :: l))) as [|c q] eqn:E;
    [congruence|].
  change (Ascii.eqb "?" "?") with true. cbv iota.
  rewrite <- E. clear E NE.
  rewrite split_join.
  - rewrite forallb_filter_id.
    + rewrite map_map.
      rewrite (map_ext _ (fun p => p)); [apply List.map_id|].
      intros [n v]. apply piece_parse.
    + apply forallb_forall. intros x Hx.
      apply in_map_iff in Hx. destruct Hx as (y & <- & _).
      apply piece_nonempty.
  - discriminate.
  - intros x Hx. apply in_map_iff in Hx. destruct Hx as (y & <- & _).
    apply piece_plain.
Qed.

(** *** get, set and delete *)

Lemma get_delete_same (params : URLSearchParams.t) (name : string) :
  URLSearchParams.get (URLSearchParams.delete params name) name = None.
Proof.
  induction params as [|[n v] l IH]; simpl; [reflexivity|].
  destruct (String.eqb n name) eqn:E; simpl; [exact IH|].
  now rewrite E.
Qed.

Lemma get_delete_other (params : URLSearchParams.t) (name other : string) :
  other <> name ->
  URLSearchParams.get (URLSearchParams.delete params name) other
  = URLSearchParams.get params other.
Proof.
  intro N.
  assert (E : String.eqb name other = false)
    by now apply String.eqb_neq, not_eq_sym.
  induction params as [|[n v] l IH]; simpl; [reflexivity|].
  destruct (String.eqb_spec n name) as [->|Nn]; simpl.
  - now rewrite IH, E.
  - now rewrite IH.
Qed.

Lemma get_set_same (params : URLSearchParams.t) (name value : string) :
  URLSearchParams.get (URLSearchParams.set params name value) name
  = Some value.
Proof.
  induction params as [|[n v] l IH]; simpl.
  - now rewrite String.eqb_refl.
  - destruct (String.eqb n name) eqn:E; simpl; now rewrite E.
Qed.

Lemma get_set_other (params : URLSearchParams.t)
    (name value other : string) :
  other <> name ->
  URLSearchParams.get (URLSearchParams.set params name value) other
  = URLSearchParams.get params other.
Proof.
  intro N.
  assert (E : String.eqb name other = false)
    by now apply String.eqb_neq, not_eq_sym.
  induction params as [|[n v] l IH]; simpl.
  - now rewrite E.
  - destruct (String.eqb_spec n name) as [->|Nn]; simpl.
    + rewrite E. now apply get_delete_other.
    + now rewrite IH.
Qed.

Lemma delete_absent (params : URLSearchParams.t) (name value : string) :
  ~ In (name, value) (URLSearchParams.delete params name).
Proof.
  unfold URLSearchParams.delete. intro H.
  apply filter_In in H. destruct H as [_ H]. simpl in H.
  now rewrite String.eqb_refl in H.
Qed.

(** Deleting or setting one name leaves the pairs of every other name as
    they are, in their order. *)
Lemma delete_frame (keep : string -> bool) (params : URLSearchParams.t)
    (name : string) :
  keep name = false ->
  filter (fun p => keep (fst p)) (URLSearchParams.delete params name)
  = filter (fun p => keep (fst p)) params.
Proof.
  intro K. induction params as [|[n v] l IH]; simpl; [reflexivity|].
  destruct (String.eqb_spec n name) as [->|Nn]; simpl.
  - now rewrite K.
  - now rewrite IH.
Qed.

Lemma set_frame (keep : string -> bool) (params : URLSearchParams.t)
    (name value : string) :
  keep name = false ->
  filter (fun p => keep (fst p)) (URLSearchParams.set params name value)
  = filter (fun p => keep (fst p)) params.
Proof.
  intro K. induction params as [|[n v] l IH]; simpl.
  - now rewrite K.
  - destruct (String.eqb_spec n name) as [->|Nn]; simpl.
    + rewrite K. now apply delete_frame.
    + now rewrite IH.
Qed.

(** [updateUrlParams], seen through the parameters. *)
Lemma parse_updateUrlParams (updates : Updates) (search : string) :
  URLSearchParams.parse (updateUrlParams updates search)
  = updatedParams updates (URLSearchParams.parse search).
Proof. apply parse_toString. Qed.

End QueryString.

(** ** The view state in the URL *)

Module UrlState.
Import QueryString.

Lemma Set_of_from (l acc : list string) :
  NoDup acc ->
  NoDup (fold_left JS.Set_add l acc)
  /\ forall x, In x (fold_left JS.Set_add l acc) <-> In x acc \/ In x l.
Proof.
  revert acc. induction l as [|y l IH]; intros acc ND; simpl.
  - split; [exact ND | intro x; tauto].
  - destruct (IH (JS.Set_add acc y) (SetFacts.add_NoDup acc y ND))
      as [ND' H].
    split; [exact ND'|].
    intro x. rewrite H, SetFacts.add_In. intuition.
Qed.

(** [new Set(array)] holds the members of the array, each once. *)
Lemma Set_of_spec (l : list string) :
  NoDup (JS.Set_of l) /\ forall x, In x (JS.Set_of l) <-> In x l.
Proof.
  destruct (Set_of_from l [] (NoDup_nil _)) as [ND H].
  split; [exact ND|]. intro x. rewrite (H x). simpl. tauto.
Qed.

Lemma Set_of_keeps (l acc : list string) :
  NoDup (acc ++ l) -> fold_left JS.Set_add l acc = acc ++ l.
Proof.
  revert acc. induction l as [|y l IH]; intros acc ND; simpl.
  - now rewrite app_nil_r.
  - assert (N : JS.Set_has acc y = false).
    { destruct (JS.Set_has acc y) eqn:E; [|reflexivity].
      apply SetFacts.has_In in E.
      apply NoDup_remove_2 in ND. exfalso. apply ND.
      apply in_or_app. now left. }
    unfold JS.Set_add at 2. rewrite N.
    rewrite IH; rewrite <- app_assoc; [reflexivity | exact ND].
Qed.

(** An array without repetition becomes the set with the same order. *)
Lemma Set_of_NoDup (l : list string) : NoDup l -> JS.Set_of l = l.
Proof. intro ND. now apply (Set_of_keeps l []). Qed.

Lemma or_default_given (v d : string) :
  v <> "" -> JS.or_default (Some v) d = v.
Proof.
  intro H. unfold JS.or_default.
  now rewrite (proj2 (SetFacts.truthy_nonempty v) H).
Qed.

(** The claim C3, that a value outside the field's enumeration falls back
    to the default, fails: the value is kept as it is. *)
Lemma unparseable_value_is_kept :
  getUrlParams "?env=staging&groupBy=team&sortBy=bogus&sortDir=up"
  = {| environment := "staging"; groupBy := "team"; sortBy := "bogus";
       sortDirection := "up"; selectedProjects := [] |}
  /\ sortBy (getUrlParams "?sortBy=bogus") <> "updated_at".
Proof. split; [reflexivity | discriminate]. Qed.

(** C3, amended.  Each of the four scalar fields takes its default
    ([local], [none], [updated_at], [desc]) when its parameter is absent or
    empty, and otherwise the parameter's value as it is, member of the
    enumeration or not.  The selection is empty when [selected] is absent or
    empty, and otherwise the set of the comma-separated pieces of its
    value. *)
Theorem hydration (search : string) :
  let params := URLSearchParams.parse search in
  let st := getUrlParams search in
  (forall name default field,
      In (name, default, field)
         [ ("env", "local", environment st);
           ("groupBy", "none", groupBy st);
           ("sortBy", "updated_at", sortBy st);
           ("sortDir", "desc", sortDirection st) ] ->
      (URLSearchParams.get params name = None -> field = default)
      /\ (URLSearchParams.get params name = Some "" -> field = default)
      /\ (forall v, URLSearchParams.get params name = Some v -> v <> "" ->
                    field = v))
  /\ (URLSearchParams.get params "selected" = None ->
      selectedProjects st = [])
  /\ (URLSearchParams.get params "selected" = Some "" ->
      selectedProjects st = [])
  /\ (forall v, URLSearchParams.get params "selected" = Some v -> v <> "" ->
                NoDup (selectedProjects st)
                /\ forall x, In x (selectedProjects st)
                             <-> In x (Str.split "," v)).
Proof.
  intros params st. subst st. unfold getUrlParams. fold params. simpl.
  split; [|split; [|split]].
  - intros name default field H.
    repeat (destruct H as [H|H];
            [injection H as <- <- <-;
             split; [intros ->; reflexivity|];
             split; [intros ->; reflexivity|];
             intros v -> Hv; now apply or_default_given|]).
    destruct H.
  - now intros ->.
  - now intros ->.
  - intros v -> Hv.
    rewrite (proj2 (SetFacts.truthy_nonempty v) Hv).
    apply Set_of_spec.
Qed.

Lemma hydration_run :
  environment (getUrlParams "?env=production&selected=p1,p2,p1")
  = "production"
  /\ (forall x, In x (selectedProjects
                        (getUrlParams "?env=production&selected=p1,p2,p1"))
                <-> In x ["p1"; "p2"; "p1"]).
Proof.
  pose proof (hydration "?env=production&selected=p1,p2,p1") as H.
  cbv zeta in H. destruct H as (F & _ & _ & S).
  split.
  - apply (F "env" "local"); [now left | reflexivity | discriminate].
  - apply (S "p1,p2,p1"); [reflexivity | discriminate].
Defined.

(** C7.  An update that carries the selection: when the selection is empty
    no [selected] parameter is left in the query string, with whatever
    value; when it is not, [selected] is there once, with the identifiers
    joined by commas. *)
Theorem selected_parameter (updates : Updates) (search : string)
    (selected : list string) :
  upd_selectedProjects updates = Some selected ->
  let params := URLSearchParams.parse (updateUrlParams updates search) in
  (selected = [] ->
   URLSearchParams.get params "selected" = None
   /\ forall v, ~ In ("selected", v) params)
  /\ (selected <> [] ->
      URLSearchParams.get params "selected"
      = Some (Str.join "," selected)
      /\ forall v, In ("selected", v) params -> v = Str.join "," selected).
Proof.
  intros U params. subst params.
  rewrite parse_updateUrlParams. unfold updatedParams. rewrite U.
  split.
  - intros ->. simpl.
    split; [apply get_delete_same | intro v; apply delete_absent].
  - intro NE. destruct selected as [|x l]; [congruence|].
    simpl Nat.ltb. cbv iota.
    split; [apply get_set_same|].
    generalize (set_if (upd_sortDirection updates) "sortDir"
                  (set_if (upd_sortBy updates) "sortBy"
                     (set_if (upd_groupBy updates) "groupBy"
                        (set_if (upd_environment updates) "env"
                           (URLSearchParams.parse search))))).
    intros ps v. generalize (Str.join "," (x :: l)). intro j.
    induction ps as [|[n w] ps IH]; simpl.
    + intros [E|[]]. congruence.
    + destruct (String.eqb_spec n "selected") as [->|N]; simpl.
      * intros [E|I]; [congruence|].
        exfalso. revert I. apply delete_absent.
      * intros [E|I]; [congruence | now apply IH].
Qed.

Lemma selected_parameter_run :
  URLSearchParams.get
    (URLSearchParams.parse
       (updateUrlParams
          {| upd_environment := None; upd_groupBy := None;
             upd_sortBy := None; upd_sortDirection := None;
             upd_selectedProjects := Some ["p1"; "p2"] |}
          "?env=local&selected=p9"))
    "selected"
  = Some "p1,p2".
Proof.
  apply (selected_parameter
           {| upd_environment := None; upd_groupBy := None;
              upd_sortBy := None; upd_sortDirection := None;
              upd_selectedProjects := Some ["p1"; "p2"] |}
           "?env=local&selected=p9" ["p1"; "p2"]).
  - reflexivity.
  - discriminate.
Defined.

Lemma get_filter (keep : string -> bool) (params : URLSearchParams.t)
    (name : string) :
  keep name = true ->
  URLSearchParams.get (filter (fun p => keep (fst p)) params) name
  = URLSearchParams.get params name.
Proof.
  intro K. induction params as [|[n v] l IH]; simpl; [reflexivity|].
  destruct (String.eqb_spec n name) as [->|N].
  - rewrite K. simpl. now rewrite String.eqb_refl.
  - destruct (keep n); simpl; [|exact IH].
    apply String.eqb_neq in N. now rewrite N.
Qed.

Lemma set_if_frame (updates : Updates) (field : option string)
    (name : string) (params : URLSearchParams.t) :
  (given field = true -> written updates name = true) ->
  filter (fun p => negb (written updates (fst p))) (set_if field name params)
  = filter (fun p => negb (written updates (fst p))) params.
Proof.
  intro W. destruct field as [v|]; simpl; [|reflexivity].
  apply (set_frame (fun n => negb (written updates n))).
  now rewrite W.
Qed.

(** C10.  An update leaves the pairs of every parameter it does not name as
    they were, in their order, whatever their names; so reading such a
    parameter gives what it gave before. *)
Theorem update_frame (updates : Updates) (search : string) :
  filter (fun p => negb (written updates (fst p)))
         (URLSearchParams.parse (updateUrlParams updates search))
  = filter (fun p => negb (written updates (fst p)))
           (URLSearchParams.parse search)
  /\ forall name,
       written updates name = false ->
       URLSearchParams.get
         (URLSearchParams.parse (updateUrlParams updates search)) name
       = URLSearchParams.get (URLSearchParams.parse search) name.
Proof.
  assert (F : filter (fun p => negb (written updates (fst p)))
                (URLSearchParams.parse (updateUrlParams updates search))
              = filter (fun p => negb (written updates (fst p)))
                  (URLSearchParams.parse search)).
  { rewrite parse_updateUrlParams. unfold updatedParams.
    assert (S : forall ps,
               filter (fun p => negb (written updates (fst p)))
                 match upd_selectedProjects updates with
                 | Some selected =>
                     if (0 <? List.length selected)%nat
                     then URLSearchParams.set ps "selected"
                            (Str.join "," selected)
                     else URLSearchParams.delete ps "selected"
                 | None => ps
                 end
               = filter (fun p => negb (written updates (fst p))) ps).
    { intro ps. destruct (upd_selectedProjects updates) as [sel|] eqn:E;
        [|reflexivity].
      assert (W : negb (written updates "selected") = false).
      { unfold written. rewrite E. simpl. now rewrite !orb_true_r. }
      destruct (0 <? List.length sel)%nat.
      - now apply (set_frame (fun n => negb (written updates n))).
      - now apply (delete_frame (fun n => negb (written updates n))). }
    rewrite S.
    rewrite !set_if_frame; [reflexivity | | | | ];
      unfold written; intros ->; simpl; now rewrite ?orb_true_r. }
  split; [exact F|].
  intros name W.
  rewrite <- (get_filter (fun n => negb (written updates n))
                _ name) by now rewrite W.
  rewrite F.
  apply (get_filter (fun n => negb (written updates n))). now rewrite W.
Qed.

(** *** The round trip *)

Lemma parse_synchronize (st : ViewState) (search : string) :
  URLSearchParams.parse (synchronize st search)
  = let params :=
      URLSearchParams.set
        (URLSearchParams.set
           (URLSearchParams.set
              (URLSearchParams.set (URLSearchParams.parse search)
                                   "env" (environment st))
              "groupBy" (groupBy st))
           "sortBy" (sortBy st))
        "sortDir" (sortDirection st) in
    if (0 <? List.length (selectedProjects st))%nat
    then URLSearchParams.set params "selected"
           (Str.join "," (selectedProjects st))
    else URLSearchParams.delete params "selected".
Proof.
  unfold synchronize. now rewrite !parse_updateUrlParams.
Qed.

Lemma join_truthy (sep : ascii) (l : list string) :
  l <> [] -> l <> [""] -> Str.join sep l <> "".
Proof.
  destruct l as [|x [|y l]]; intros H1 H2.
  - congruence.
  - simpl. intros ->. congruence.
  - simpl. destruct x; discriminate.
Qed.

(** The claim C4, that every view state comes back from the URL, fails for
    an identifier that holds a comma: it comes back as two. *)
Lemma comma_breaks_round_trip :
  selectedProjects
    (getUrlParams
       (synchronize {| environment := "local"; groupBy := "none";
                       sortBy := "updated_at"; sortDirection := "desc";
                       selectedProjects := ["a,b"] |} ""))
  = ["a"; "b"]
  /\ ~ (forall x,
          In x (selectedProjects
                  (getUrlParams
                     (synchronize
                        {| environment := "local"; groupBy := "none";
                           sortBy := "updated_at"; sortDirection := "desc";
                           selectedProjects := ["a,b"] |} "")))
          <-> In x ["a,b"]).
Proof.
  split; [reflexivity|].
  intro H. specialize (H "a"). vm_compute in H.
  destruct H as [H _]. destruct (H (or_introl eq_refl)) as [E|[]].
  discriminate E.
Qed.

(** The selection that holds the empty identifier alone is lost as well:
    [selected=] reads as no selection. *)
Lemma empty_identifier_is_lost :
  synchronize {| environment := "local"; groupBy := "none";
                 sortBy := "updated_at"; sortDirection := "desc";
                 selectedProjects := [""] |} ""
  = "?env=local&groupBy=none&sortBy=updated_at&sortDir=desc&selected="
  /\ selectedProjects
       (getUrlParams
          "?env=local&groupBy=none&sortBy=updated_at&sortDir=desc&selected=")
     = [].
Proof. split; reflexivity. Qed.

(** C4, amended.  A view state whose four scalar fields are not empty (no
    member of the enumerations is), whose selected identifiers hold no
    comma, and whose selection is not the empty identifier alone, comes
    back from the query string the five effects write, whatever the query
    string was before: the scalar fields as they were and the selection
    with the same members (here even in the same order). *)
Theorem round_trip (st : ViewState) (search : string) :
  environment st <> "" -> groupBy st <> "" -> sortBy st <> "" ->
  sortDirection st <> "" ->
  NoDup (selectedProjects st) ->
  (forall x, In x (selectedProjects st) -> Str.contains "," x = false) ->
  selectedProjects st <> [""] ->
  getUrlParams (synchronize st search) = st.
Proof.
  intros He Hg Hs Hd ND NC NE.
  unfold getUrlParams. rewrite parse_synchronize. cbv zeta.
  destruct st as [e g s d sel]. simpl in *.
  set (ps := URLSearchParams.set _ "sortDir" d).
  assert (G : forall name,
             name <> "selected" ->
             URLSearchParams.get
               (if (0 <? List.length sel)%nat
                then URLSearchParams.set ps "selected" (Str.join "," sel)
                else URLSearchParams.delete ps "selected") name
             = URLSearchParams.get ps name).
  { intros name N. destruct (0 <? List.length sel)%nat.
    - now apply get_set_other.
    - now apply get_delete_other. }
  rewrite !G by discriminate. subst ps.
  f_equal.
  - rewrite !get_set_other by discriminate.
    rewrite get_set_same. now apply or_default_given.
  - rewrite !get_set_other by discriminate.
    rewrite get_set_same. now apply or_default_given.
  - rewrite !get_set_other by discriminate.
    rewrite get_set_same. now apply or_default_given.
  - rewrite get_set_same. now apply or_default_given.
  - destruct sel as [|x l].
    + change (0 <? List.length (@nil string))%nat with false. cbv iota.
      now rewrite get_delete_same.
    + change (0 <? List.length (x :: l))%nat with true. cbv iota.
      rewrite get_set_same.
      rewrite (proj2 (SetFacts.truthy_nonempty _)
                     (join_truthy "," (x :: l) ltac:(discriminate) NE)).
      rewrite split_join; [now apply Set_of_NoDup | discriminate | exact NC].
Qed.

Lemma round_trip_run :
  getUrlParams
    (synchronize {| environment := "production"; groupBy := "agency";
                    sortBy := "name"; sortDirection := "asc";
                    selectedProjects := ["p1"; "p2"] |}
                 "?env=local&tab=3")
  = {| environment := "production"; groupBy := "agency";
       sortBy := "name"; sortDirection := "asc";
       selectedProjects := ["p1"; "p2"] |}.
Proof.
  apply round_trip; simpl; try discriminate.
  - repeat constructor; simpl; intuition discriminate.
  - intros x [<-|[<-|[]]]; reflexivity.
Defined.

Lemma update_frame_run :
  URLSearchParams.get
    (URLSearchParams.parse
       (updateUrlParams
          {| upd_environment := None; upd_groupBy := Some "author";
             upd_sortBy := None; upd_sortDirection := None;
             upd_selectedProjects := Some [] |}
          "?tab=3&env=production&selected=p1"))
    "tab"
  = URLSearchParams.get
      (URLSearchParams.parse "?tab=3&env=production&selected=p1") "tab".
Proof.
  apply (update_frame
           {| upd_environment := None; upd_groupBy := Some "author";
              upd_sortBy := None; upd_sortDirection := None;
              upd_selectedProjects := Some [] |}
           "?tab=3&env=production&selected=p1").
  reflexivity.
Defined.

End UrlState.

(** ** Fetching *)

Module Fetch.

(** [getProjects] settles by fulfilling, however the request settles. *)
Lemma getProjects_fulfills (environment : string) (net : Network) :
  exists response,
    getProjects environment net
    = (Fulfilled response,
       {| outcome := outcome net; sent := sent net ++ [environment] |}).
Proof.
  unfold getProjects, apiClient_get.
  destruct (outcome net (List.length (sent net))); eauto.
Qed.

(** C8.  When the request fails with an error that carries a message (every
    error of the HTTP client does), [getProjects] does not reject: it
    fulfils with [success = false], no data and that message, having sent
    exactly one request.  [fetchProjects] then leaves [loading] off, the
    data as it was and a message in [error], so that the error panel with
    its [Try Again] button is shown; it has sent one request too. *)
Theorem fetch_failure (environment : string) (net : Network)
    (st : FetchState) (reason : thrown) :
  outcome net (List.length (sent net)) = Rejected reason ->
  match reason with Error message => message <> "" | NotAnError => True end ->
  (exists response message,
      getProjects environment net
      = (Fulfilled response,
         {| outcome := outcome net; sent := sent net ++ [environment] |})
      /\ Api.success response = false
      /\ Api.data response = None
      /\ Api.error response = Some message
      /\ message <> "")
  /\ (exists message,
         fetchProjects environment st net
         = ({| data := data st; loading := false; error := Some message |},
            {| outcome := outcome net; sent := sent net ++ [environment] |})
         /\ message <> ""
         /\ render {| data := data st; loading := false;
                      error := Some message |}
            = ErrorPanel message
         /\ offers_refetch (ErrorPanel message) = true).
Proof.
  intros R M.
  unfold fetchProjects, getProjects, apiClient_get. rewrite R.
  split.
  - eexists. eexists. split; [reflexivity|].
    repeat split. destruct reason; [exact M | discriminate].
  - simpl.
    set (m := match reason with
              | Error message => message
              | NotAnError => "Unknown error occurred"
              end).
    assert (Hm : m <> "") by (subst m; destruct reason; [exact M | discriminate]).
    exists m. unfold JS.or_default, render. simpl.
    rewrite (proj2 (SetFacts.truthy_nonempty m) Hm).
    repeat split. exact Hm.
Qed.

Lemma fetch_failure_run :
  exists message,
    fetchProjects "production"
      {| data := Some Sample.data; loading := false; error := None |}
      {| outcome := fun _ => Rejected (Error "Network Error"); sent := [] |}
    = ({| data := Some Sample.data; loading := false;
          error := Some message |},
       {| outcome := fun _ => Rejected (Error "Network Error");
          sent := ["production"] |})
    /\ message <> "".
Proof.
  destruct (fetch_failure "production"
              {| outcome := fun _ => Rejected (Error "Network Error");
                 sent := [] |}
              {| data := Some Sample.data; loading := false; error := None |}
              (Error "Network Error"))
    as (_ & message & E & N & _).
  - reflexivity.
  - discriminate.
  - exists message. split; [exact E | exact N].
Defined.

(** Whatever the error, [fetchProjects] ends with a message to show: an
    empty one is replaced. *)
Lemma fetchProjects_shows_error (environment : string) (net : Network)
    (st : FetchState) (reason : thrown) :
  outcome net (List.length (sent net)) = Rejected reason ->
  exists message,
    render (fst (fetchProjects environment st net)) = ErrorPanel message.
Proof.
  intro R. unfold fetchProjects, getProjects, apiClient_get. rewrite R.
  simpl. unfold render, JS.or_default. simpl.
  destruct reason as [m|]; simpl; [|eauto].
  destruct m; simpl; eauto.
Qed.

End Fetch.

(** ** The scenarios of the specification *)

Module Scenarios.

(** Jobs j1 (p1, m1), j2 (p2, m2), j3 (p1, m1) and the selection {p1}. *)
Example map_ids_of_p1 :
  getUniqueMapIds (Some Sample.data) ["p1"] = ["m1"].
Proof. reflexivity. Qed.

Example map_ids_null_and_empty :
  getUniqueMapIds
    (Some (Sample.snapshot [Sample.job "j1" "p1" None;
                            Sample.job "j2" "p1" (Some "");
                            Sample.job "j3" "p1" (Some "m9");
                            Sample.job "j4" "p1" (Some "m10")] []))
    ["p1"]
  = ["m10"; "m9"].
Proof. reflexivity. Qed.

(** B updated on 2025-01-02, A on 2025-01-01, by [updated_at], descending. *)
Example newest_first :
  map name (sortedProjects Host.Date_getTime
              (Some (Sample.snapshot [] [Sample.pB; Sample.pA]))
              "updated_at" "desc")
  = ["B"; "A"].
Proof. reflexivity. Qed.

(** Agencies Zeta, Alpha, Alpha. *)
Example two_agencies :
  match groupedProjects Host.localeCompare
          [Sample.project "p1" "x" "Zeta" "kim" "2025-01-02";
           Sample.project "p2" "y" "Alpha" "kim" "2025-01-02";
           Sample.project "p3" "z" "Alpha" "kim" "2025-01-02"] "agency"
  with
  | Normal groups =>
      map (fun g => (Group.key g, List.length (Group.projects g))) groups
  | Throw _ => []
  end
  = [("Alpha", 2%nat); ("Zeta", 1%nat)].
Proof. reflexivity. Qed.

Example constructor_agency_throws :
  groupedProjects Host.localeCompare
    [Sample.project "p1" "x" "constructor" "kim" "2025-01-02"] "agency"
  = Throw "TypeError: groups[groupKey].push is not a function".
Proof. reflexivity. Qed.

(** An empty [selected] parameter, then Select All on three projects. *)
Example select_all :
  selectedProjects (getUrlParams "?env=local&selected=") = []
  /\ handleSelectAll (Some Sample.data) [] = ["p1"; "p2"; "p3"]
  /\ updateUrlParams
       {| upd_environment := None; upd_groupBy := None; upd_sortBy := None;
          upd_sortDirection := None;
          upd_selectedProjects :=
            Some (handleSelectAll (Some Sample.data) []) |}
       "?env=local&selected="
     = "?env=local&selected=p1%2Cp2%2Cp3".
Proof. repeat split. Qed.

Example toggle_selection :
  handleProjectSelect ["p1"; "p2"] "p3" true = ["p1"; "p2"; "p3"]
  /\ handleProjectSelect ["p1"; "p2"] "p1" true = ["p1"; "p2"]
  /\ handleProjectSelect ["p1"; "p2"] "p1" false = ["p2"]
  /\ handleClearAll = [].
Proof. repeat split. Qed.

End Scenarios.

(** ** More on the sort *)

Module SortOrder.

Section Relative.
Context {A : Type}.
Variable cmp : A -> A -> Z.

(** The order of the result, for a comparator that is consistent on the
    members of the array. *)
Lemma sort_sorted_on (l : list A) :
  (forall a b, In a l -> In b l -> cmp a b > 0 -> cmp b a <= 0) ->
  (forall a b c, In a l -> In b l -> In c l ->
                 cmp a b <= 0 -> cmp b c <= 0 -> cmp a c <= 0) ->
  StronglySorted (fun a b => cmp a b <= 0) (JS.sort cmp l).
Proof.
  induction l as [|x l IH]; intros total trans; simpl; [constructor|].
  assert (S : StronglySorted (fun a b => cmp a b <= 0) (JS.sort cmp l)).
  { apply IH.
    - intros a b Ha Hb. apply total; now right.
    - intros a b c Ha Hb Hc. apply trans; now right. }
  assert (I : forall y, In y (JS.sort cmp l) -> In y (x :: l))
    by (intros y Hy; right; now apply (proj1 (SortFacts.sort_In cmp l y))).
  revert S I. generalize (JS.sort cmp l). intros s S.
  induction S as [|y s Hs IHs Hy]; intro I; simpl.
  - constructor; constructor.
  - destruct (cmp x y <=? 0) eqn:E.
    + apply Z.leb_le in E.
      constructor; [now constructor|].
      constructor; [exact E|].
      rewrite Forall_forall in *. intros z Hz.
      apply (trans x y z); simpl; auto.
      * apply I. now left.
      * apply I. now right.
    + apply Z.leb_gt in E.
      constructor; [apply IHs; intros z Hz; apply I; now right|].
      rewrite Forall_forall in *. intros z Hz.
      apply (Permutation_in _ (SortFacts.insert_perm cmp x s)) in Hz.
      destruct Hz as [<-|Hz]; [|now apply Hy].
      apply total; simpl; auto; [apply I; now left | lia].
Qed.

(** An array that is in order already comes back as it is. *)
Lemma sort_of_sorted (l : list A) :
  StronglySorted (fun a b => cmp a b <= 0) l -> JS.sort cmp l = l.
Proof.
  induction 1 as [|x l Hl IH Hx]; simpl; [reflexivity|].
  rewrite IH. destruct l as [|y l]; simpl; [reflexivity|].
  apply Forall_inv in Hx. apply Z.leb_le in Hx. now rewrite Hx.
Qed.
End Relative.

Lemma StronglySorted_weaken {A} (R R' : A -> A -> Prop) (l : list A) :
  (forall a b, In a l -> In b l -> R a b -> R' a b) ->
  StronglySorted R l -> StronglySorted R' l.
Proof.
  intros W S. induction S as [|x l Hl IH Hx]; constructor.
  - apply IH. intros a b Ha Hb. apply W; now right.
  - rewrite Forall_forall in *. intros y Hy.
    apply W; [now left | now right | now apply Hx].
Qed.

Import SortProjects.

Lemma comparable_cases (a b : value) :
  comparable a b = true ->
  less_than a b = true \/ less_than b a = true \/ a = b.
Proof.
  unfold comparable. intro H.
  apply orb_true_iff in H. destruct H as [H|H].
  - apply orb_true_iff in H. tauto.
  - right. right. now apply strict_eq_eq.
Qed.

(** When the comparator does not put [b] before [a]. *)
Lemma compare_values_le (dir : string) (a b : value) :
  compare_values dir a b <= 0 <->
  (if String.eqb dir "desc" then less_than a b else less_than b a) = false.
Proof.
  pose proof (compare_values_antisym dir a b) as An.
  pose proof (compare_values_neg dir b a) as N.
  destruct (if String.eqb dir "desc" then less_than a b else less_than b a);
    split; intro H; try discriminate; try reflexivity.
  - assert (compare_values dir b a < 0) by now apply N. lia.
  - destruct (Z.le_gt_cases (compare_values dir a b) 0) as [L|G];
      [exact L|].
    assert (compare_values dir b a < 0) by lia.
    apply N in H0. discriminate.
Qed.

Lemma compare_values_total (dir : string) (a b : value) :
  compare_values dir a b > 0 -> compare_values dir b a <= 0.
Proof. rewrite (compare_values_antisym dir a b). lia. Qed.

Lemma compare_values_trans_on (dir : string) (a b c : value) :
  comparable a b = true -> comparable b c = true ->
  compare_values dir a b <= 0 -> compare_values dir b c <= 0 ->
  compare_values dir a c <= 0.
Proof.
  intros Cab Cbc. rewrite !compare_values_le.
  apply comparable_cases in Cab. apply comparable_cases in Cbc.
  destruct (String.eqb dir "desc"); intros Hab Hbc.
  - destruct (less_than a c) eqn:Hac; [|reflexivity].
    destruct Cbc as [L|[L| ->]]; try congruence.
    rewrite (less_than_trans _ _ _ Hac L) in Hab. discriminate.
  - destruct (less_than c a) eqn:Hca; [|reflexivity].
    destruct Cab as [L|[L| ->]]; try congruence.
    rewrite (less_than_trans _ _ _ Hca L) in Hbc. discriminate.
Qed.

Lemma comparable_strings (s t : string) : comparable (Str s) (Str t) = true.
Proof.
  unfold comparable. simpl.
  destruct (JS.string_lt s t) eqn:A; [reflexivity|].
  destruct (JS.string_lt t s) eqn:B; [reflexivity|].
  rewrite (StringOrder.lt_total s t A B). simpl. apply String.eqb_refl.
Qed.

Lemma comparable_integers (x y : Z) :
  comparable (Num (Int x)) (Num (Int y)) = true.
Proof.
  unfold comparable. simpl.
  destruct (Z.ltb_spec x y); [reflexivity|].
  destruct (Z.ltb_spec y x); [reflexivity|].
  simpl. apply Z.eqb_eq. lia.
Qed.

Lemma comparable_properties (a b : UniqueProject) (k : string) :
  comparable (get a k) (get b k) = true.
Proof.
  unfold get.
  repeat match goal with
         | |- context [String.eqb k ?s] => destruct (String.eqb k s)
         end;
    try apply comparable_strings; try apply comparable_integers.
  destruct (inherited k); unfold comparable; simpl;
    [now rewrite String.eqb_refl | reflexivity].
Qed.

Section Projects.
Variable Date_getTime : string -> number.
Variable sortBy : string.
Variable P : list UniqueProject.

(** Every date that the sort reads is a valid one. *)
Hypothesis valid_created :
  sortBy = "created_at" ->
  forall p, In p P -> Date_getTime (created_at p) <> NaN.
Hypothesis valid_updated :
  sortBy = "updated_at" ->
  forall p, In p P -> Date_getTime (updated_at p) <> NaN.

Lemma keys_comparable (a b : UniqueProject) :
  In a P -> In b P ->
  comparable (fst (sort_values Date_getTime sortBy a b))
             (snd (sort_values Date_getTime sortBy a b)) = true.
Proof.
  intros Ha Hb. unfold sort_values.
  destruct (String.eqb_spec sortBy "created_at") as [E|_].
  - specialize (valid_created E). rewrite E. simpl.
    pose proof (valid_created a Ha). pose proof (valid_created b Hb).
    destruct (Date_getTime (created_at a)), (Date_getTime (created_at b));
      try congruence.
    apply comparable_integers.
  - destruct (String.eqb_spec sortBy "updated_at") as [E|_].
    + specialize (valid_updated E). rewrite E. simpl.
      pose proof (valid_updated a Ha). pose proof (valid_updated b Hb).
      destruct (Date_getTime (updated_at a)), (Date_getTime (updated_at b));
        try congruence.
      apply comparable_integers.
    + simpl.
      destruct (String.eqb sortBy "author"); [apply comparable_strings|].
      destruct (String.eqb sortBy "agency"); [apply comparable_strings|].
      apply comparable_properties.
Qed.

Lemma compareProjects_total (dir : string) (a b : UniqueProject) :
  compareProjects Date_getTime sortBy dir a b > 0 ->
  compareProjects Date_getTime sortBy dir b a <= 0.
Proof. rewrite (compareProjects_antisym _ _ _ a b). lia. Qed.

Lemma compareProjects_trans_on (dir : string) (a b c : UniqueProject) :
  In a P -> In b P -> In c P ->
  compareProjects Date_getTime sortBy dir a b <= 0 ->
  compareProjects Date_getTime sortBy dir b c <= 0 ->
  compareProjects Date_getTime sortBy dir a c <= 0.
Proof.
  intros Ha Hb Hc.
  pose proof (keys_comparable a b Ha Hb) as Cab.
  pose proof (keys_comparable b c Hb Hc) as Cbc.
  revert Cab Cbc. unfold compareProjects.
  destruct (sort_values_key Date_getTime sortBy) as [k Hk].
  rewrite !Hk. simpl. apply compare_values_trans_on.
Qed.

(** The projects come out in the order of the comparator. *)
Lemma in_comparator_order (dir : string) :
  StronglySorted
    (fun a b => compareProjects Date_getTime sortBy dir a b <= 0)
    (JS.sort (compareProjects Date_getTime sortBy dir) P).
Proof.
  apply sort_sorted_on.
  - intros a b _ _. apply compareProjects_total.
  - intros a b c. apply compareProjects_trans_on.
Qed.
End Projects.

End SortOrder.

(** ** The sorted list *)

Module SortedList.
Import SortProjects SortOrder.

(** X1.  Sorting loses no project and invents none: the result is a
    rearrangement of the snapshot's project list, whatever the sort field,
    the direction and the way dates parse; without a snapshot it is empty. *)
Theorem sorted_keeps_every_project (Date_getTime : string -> number)
    (data : option ProjectsData) (sortBy sortDirection : string) :
  match data with
  | Some d =>
      Permutation (sortedProjects Date_getTime data sortBy sortDirection)
                  (unique_projects (projects d))
  | None => sortedProjects Date_getTime data sortBy sortDirection = []
  end.
Proof.
  destruct data as [d|]; [|reflexivity].
  apply SortFacts.sort_perm.
Qed.

(** X2.  When every date the sort reads is valid, the result is in the
    order of the comparator: no project is followed, anywhere later in the
    list, by one that the comparator puts strictly before it. *)
Theorem sorted_in_comparator_order (Date_getTime : string -> number)
    (d : ProjectsData) (sortBy sortDirection : string) :
  (sortBy = "created_at" ->
   forall p, In p (unique_projects (projects d)) ->
             Date_getTime (created_at p) <> NaN) ->
  (sortBy = "updated_at" ->
   forall p, In p (unique_projects (projects d)) ->
             Date_getTime (updated_at p) <> NaN) ->
  StronglySorted
    (fun a b => compareProjects Date_getTime sortBy sortDirection a b <= 0)
    (sortedProjects Date_getTime (Some d) sortBy sortDirection).
Proof. intros Hc Hu. now apply in_comparator_order. Qed.

Lemma sorted_in_comparator_order_run :
  StronglySorted
    (fun a b => compareProjects Host.Date_getTime "updated_at" "desc" a b <= 0)
    (sortedProjects Host.Date_getTime (Some Sample.data) "updated_at" "desc").
Proof.
  apply sorted_in_comparator_order.
  - discriminate.
  - intros _ p Hp. simpl in Hp.
    destruct Hp as [<-|[<-|[<-|[]]]]; discriminate.
Defined.

(** X3.  By [name], [author] or [agency] the projects come out with their
    names (author names, agency names) in ascending order of code units, and
    in descending order when the direction is [desc]; equal names may
    follow one another. *)
Theorem sorted_by_text (Date_getTime : string -> number) (d : ProjectsData)
    (sortBy sortDirection : string) (key : UniqueProject -> string) :
  In (sortBy, key)
     [("name", name); ("author", author_name); ("agency", agency_name)] ->
  StronglySorted
    (fun a b =>
       if String.eqb sortDirection "desc"
       then JS.string_lt (key a) (key b) = false
       else JS.string_lt (key b) (key a) = false)
    (sortedProjects Date_getTime (Some d) sortBy sortDirection).
Proof.
  intro H.
  assert (S : StronglySorted
                (fun a b => compareProjects Date_getTime sortBy
                                            sortDirection a b <= 0)
                (sortedProjects Date_getTime (Some d) sortBy sortDirection)).
  { apply in_comparator_order;
      intros ->; destruct H as [H|[H|[H|[]]]]; discriminate H. }
  revert S. apply StronglySorted_weaken. intros a b _ _.
  assert (C : compareProjects Date_getTime sortBy sortDirection a b
              = compare_values sortDirection (Str (key a)) (Str (key b))).
  { destruct H as [H|[H|[H|[]]]]; injection H as <- <-; reflexivity. }
  rewrite C, compare_values_le. simpl.
  now destruct (String.eqb sortDirection "desc").
Qed.

Lemma sorted_by_text_run :
  StronglySorted
    (fun a b => JS.string_lt (agency_name b) (agency_name a) = false)
    (sortedProjects Host.Date_getTime (Some Sample.data) "agency" "asc").
Proof.
  apply (sorted_by_text Host.Date_getTime Sample.data "agency" "asc"
                        agency_name).
  right. right. now left.
Defined.

(** X4.  By [created_at] or [updated_at], when every such date of the list
    is valid, the projects come out with their time values in ascending
    order, and in descending order when the direction is [desc]. *)
Theorem sorted_by_time (Date_getTime : string -> number) (d : ProjectsData)
    (sortBy sortDirection : string) (field : UniqueProject -> string) :
  In (sortBy, field)
     [("created_at", created_at); ("updated_at", updated_at)] ->
  (forall p, In p (unique_projects (projects d)) ->
             Date_getTime (field p) <> NaN) ->
  StronglySorted
    (fun a b =>
       exists x y,
         Date_getTime (field a) = Int x /\ Date_getTime (field b) = Int y
         /\ if String.eqb sortDirection "desc" then y <= x else x <= y)
    (sortedProjects Date_getTime (Some d) sortBy sortDirection).
Proof.
  intros H V.
  assert (S : StronglySorted
                (fun a b => compareProjects Date_getTime sortBy
                                            sortDirection a b <= 0)
                (sortedProjects Date_getTime (Some d) sortBy sortDirection)).
  { destruct H as [H|[H|[]]]; injection H as <- <-;
      apply in_comparator_order; intros E p Hp;
        try discriminate E; now apply V. }
  revert S. apply StronglySorted_weaken. intros a b Ha Hb.
  assert (C : compareProjects Date_getTime sortBy sortDirection a b
              = compare_values sortDirection
                  (Num (Date_getTime (field a)))
                  (Num (Date_getTime (field b)))).
  { destruct H as [H|[H|[]]]; injection H as <- <-; reflexivity. }
  rewrite C, compare_values_le.
  apply (Permutation_in _ (SortFacts.sort_perm _ _)) in Ha, Hb.
  pose proof (V a Ha). pose proof (V b Hb).
  destruct (Date_getTime (field a)) as [|x]; [congruence|].
  destruct (Date_getTime (field b)) as [|y]; [congruence|].
  simpl. intro L. exists x, y. repeat split.
  destruct (String.eqb sortDirection "desc");
    apply Z.ltb_ge in L; lia.
Qed.

Lemma sorted_by_time_run :
  StronglySorted
    (fun a b =>
       exists x y,
         Host.Date_getTime (updated_at a) = Int x
         /\ Host.Date_getTime (updated_at b) = Int y /\ y <= x)
    (sortedProjects Host.Date_getTime (Some Sample.data)
                    "updated_at" "desc").
Proof.
  apply (sorted_by_time Host.Date_getTime Sample.data "updated_at" "desc"
                        updated_at).
  - right. now left.
  - intros p Hp. simpl in Hp.
    destruct Hp as [<-|[<-|[<-|[]]]]; discriminate.
Defined.

(** X5.  Sorting is idempotent: when every date the sort reads is valid, a
    snapshot whose project list is an already sorted list comes out of the
    same sort as it is. *)
Theorem sorting_again_changes_nothing (Date_getTime : string -> number)
    (d d' : ProjectsData) (sortBy sortDirection : string) :
  (sortBy = "created_at" ->
   forall p, In p (unique_projects (projects d)) ->
             Date_getTime (created_at p) <> NaN) ->
  (sortBy = "updated_at" ->
   forall p, In p (unique_projects (projects d)) ->
             Date_getTime (updated_at p) <> NaN) ->
  unique_projects (projects d')
  = sortedProjects Date_getTime (Some d) sortBy sortDirection ->
  sortedProjects Date_getTime (Some d') sortBy sortDirection
  = sortedProjects Date_getTime (Some d) sortBy sortDirection.
Proof.
  intros Hc Hu E. unfold sortedProjects at 1. rewrite E.
  apply sort_of_sorted. now apply in_comparator_order.
Qed.

Lemma sorting_again_changes_nothing_run :
  sortedProjects Host.Date_getTime
    (Some (Sample.snapshot []
             (sortedProjects Host.Date_getTime (Some Sample.data)
                             "name" "desc")))
    "name" "desc"
  = sortedProjects Host.Date_getTime (Some Sample.data) "name" "desc".
Proof.
  apply sorting_again_changes_nothing;
    [discriminate | discriminate | reflexivity].
Defined.

(** X6.  Only the value [desc] sorts downwards: every other direction,
    also one that is neither [asc] nor [desc], sorts as [asc] does. *)
Theorem direction_other_than_desc_is_asc (Date_getTime : string -> number)
    (data : option ProjectsData) (sortBy sortDirection : string) :
  sortDirection <> "desc" ->
  sortedProjects Date_getTime data sortBy sortDirection
  = sortedProjects Date_getTime data sortBy "asc".
Proof.
  intro N. destruct data as [d|]; [|reflexivity].
  apply SortFacts.sort_ext. intros a b.
  unfold compareProjects.
  destruct (sort_values Date_getTime sortBy a b) as [va vb].
  unfold compare_values.
  apply String.eqb_neq in N. now rewrite N.
Qed.

Lemma direction_other_than_desc_is_asc_run :
  sortedProjects Host.Date_getTime (Some Sample.data) "name" "up"
  = sortedProjects Host.Date_getTime (Some Sample.data) "name" "asc".
Proof.
  apply direction_other_than_desc_is_asc. discriminate.
Defined.

(** X7.  When none of the dates parses, sorting by [created_at] or
    [updated_at] leaves the list in its input order, in either direction:
    every comparison of two invalid time values is 0. *)
Theorem invalid_dates_keep_order (Date_getTime : string -> number)
    (d : ProjectsData) (sortBy sortDirection : string)
    (field : UniqueProject -> string) :
  In (sortBy, field)
     [("created_at", created_at); ("updated_at", updated_at)] ->
  (forall p, In p (unique_projects (projects d)) ->
             Date_getTime (field p) = NaN) ->
  sortedProjects Date_getTime (Some d) sortBy sortDirection
  = unique_projects (projects d).
Proof.
  intros H V. apply SortFacts.sort_tied. intros a b Ha Hb.
  assert (C : compareProjects Date_getTime sortBy sortDirection a b
              = compare_values sortDirection
                  (Num (Date_getTime (field a)))
                  (Num (Date_getTime (field b)))).
  { destruct H as [H|[H|[]]]; injection H as <- <-; reflexivity. }
  rewrite C, (V a Ha), (V b Hb). unfold compare_values. simpl.
  destruct (String.eqb sortDirection "desc"); lia.
Qed.

Lemma invalid_dates_keep_order_run :
  sortedProjects (fun _ => NaN) (Some Sample.data) "created_at" "asc"
  = unique_projects (projects Sample.data).
Proof.
  apply (invalid_dates_keep_order (fun _ => NaN) Sample.data
                                  "created_at" "asc" created_at).
  - now left.
  - reflexivity.
Defined.

End SortedList.

(** ** The selection and the map ids of the side panel *)

Module Selection.

(** What [getUniqueMapIds] returns for a snapshot: its members, without
    repetition, in strictly ascending order. *)
Lemma map_ids_facts (d : ProjectsData) (sel : list string) :
  (forall m,
      In m (getUniqueMapIds (Some d) sel) <->
      exists j, In j (jobs (projects d)) /\
                In (project_id (request_payload j)) sel /\
                map_id j = Some m /\ m <> "")
  /\ NoDup (getUniqueMapIds (Some d) sel)
  /\ StronglySorted (fun a b => JS.string_lt a b = true)
                    (getUniqueMapIds (Some d) sel).
Proof.
  unfold getUniqueMapIds.
  destruct sel as [|s sel].
  - simpl. repeat split; try constructor.
    + intros [].
    + intros (j & _ & [] & _).
  - change (List.length (s :: sel) =? 0)%nat with false. cbv iota.
    destruct (MapIds.collected (s :: sel) (jobs (projects d)) []
                               (NoDup_nil _)) as [ND HIn].
    set (mapIds := fold_left _ _ _) in *.
    assert (P := SortFacts.sort_perm JS.default_compare mapIds).
    assert (ND' : NoDup (JS.sort JS.default_compare mapIds))
      by (eapply Permutation_NoDup; [symmetry; exact P | exact ND]).
    repeat split.
    + intro H. apply (Permutation_in _ P) in H. apply HIn in H.
      destruct H as [[]|H]. exact H.
    + intro H. apply (Permutation_in _ (Permutation_sym P)).
      apply HIn. now right.
    + exact ND'.
    + apply MapIds.strictly_sorted; [exact ND'|].
      apply SortFacts.sort_sorted.
      * apply StringOrder.default_compare_total.
      * apply StringOrder.default_compare_trans.
Qed.

Lemma delete_In (s : list string) (x y : string) :
  In y (JS.Set_delete s x) <-> In y s /\ y <> x.
Proof.
  unfold JS.Set_delete. rewrite filter_In, negb_true_iff.
  split; intros [H N]; split; try exact H.
  - intros ->. now rewrite String.eqb_refl in N.
  - apply String.eqb_neq. congruence.
Qed.

Lemma has_eq (s t : list string) (x : string) :
  (In x s <-> In x t) -> JS.Set_has s x = JS.Set_has t x.
Proof.
  intro H.
  destruct (JS.Set_has s x) eqn:A, (JS.Set_has t x) eqn:B; try reflexivity.
  - apply SetFacts.has_In, H, SetFacts.has_In in A. congruence.
  - apply SetFacts.has_In, H, SetFacts.has_In in B. congruence.
Qed.

(** The members of the set a click on a checkbox produces. *)
Lemma select_In (sel : list string) (i : string) (b : bool) (x : string) :
  In x (handleProjectSelect sel i b) <->
  if b then In x sel \/ x = i else In x sel /\ x <> i.
Proof.
  unfold handleProjectSelect.
  destruct (UrlState.Set_of_spec sel) as [_ M].
  destruct b.
  - rewrite SetFacts.add_In, M. tauto.
  - rewrite delete_In, M. tauto.
Qed.

Lemma select_NoDup (sel : list string) (i : string) (b : bool) :
  NoDup (handleProjectSelect sel i b).
Proof.
  unfold handleProjectSelect.
  destruct (UrlState.Set_of_spec sel) as [ND _].
  destruct b.
  - now apply SetFacts.add_NoDup.
  - now apply NoDup_filter.
Qed.

(** X8.  The map ids depend on which projects are selected and on which
    jobs the snapshot holds, not on the order of either nor on repetitions:
    two selections with the same members, over two job lists with the same
    members, give the same array. *)
Theorem map_ids_depend_on_members (d d' : ProjectsData)
    (sel sel' : list string) :
  (forall x, In x sel <-> In x sel') ->
  (forall j, In j (jobs (projects d)) <-> In j (jobs (projects d'))) ->
  getUniqueMapIds (Some d) sel = getUniqueMapIds (Some d') sel'.
Proof.
  intros Hs Hj.
  destruct (map_ids_facts d sel) as (M & ND & S).
  destruct (map_ids_facts d' sel') as (M' & ND' & S').
  apply SortFacts.sorted_unique
    with (R := fun a b => JS.string_lt a b = true); try assumption.
  - intros a b Hab Hba. rewrite (StringOrder.lt_asym _ _ Hab) in Hba.
    discriminate.
  - apply NoDup_Permutation; try assumption.
    intro m. rewrite M, M'.
    split; intros (j & Ij & Ip & R); exists j;
      (split; [now apply Hj | split; [now apply Hs | exact R]]).
Qed.

Lemma map_ids_depend_on_members_run :
  getUniqueMapIds (Some Sample.data) ["p1"; "p2"]
  = getUniqueMapIds
      (Some (Sample.snapshot [Sample.job "j3" "p1" (Some "m1");
                              Sample.job "j2" "p2" (Some "m2");
                              Sample.job "j1" "p1" (Some "m1")] []))
      ["p2"; "p1"; "p2"].
Proof.
  apply map_ids_depend_on_members.
  - intro x. simpl. tauto.
  - intro j. simpl. tauto.
Defined.

(** X9.  A larger selection shows at least the map ids of a smaller one,
    and there are never more map ids than jobs. *)
Theorem map_ids_grow_with_selection (d : ProjectsData)
    (sel sel' : list string) :
  (forall x, In x sel -> In x sel') ->
  (forall m, In m (getUniqueMapIds (Some d) sel) ->
             In m (getUniqueMapIds (Some d) sel'))
  /\ (List.length (getUniqueMapIds (Some d) sel')
      <= List.length (jobs (projects d)))%nat.
Proof.
  intro Sub.
  destruct (map_ids_facts d sel) as (M & _ & _).
  destruct (map_ids_facts d sel') as (M' & ND' & _).
  split.
  - intros m Hm. apply M in Hm. destruct Hm as (j & Ij & Ip & R).
    apply M'. exists j. auto.
  - set (ids := flat_map (fun j => match map_id j with
                                   | Some m => [m]
                                   | None => []
                                   end) (jobs (projects d))).
    apply Nat.le_trans with (List.length ids).
    + apply NoDup_incl_length; [exact ND'|].
      intros m Hm. apply M' in Hm. destruct Hm as (j & Ij & _ & E & _).
      apply in_flat_map. exists j. split; [exact Ij|].
      rewrite E. now left.
    + subst ids. clear. generalize (jobs (projects d)). intro J.
      induction J as [|j J IH]; simpl; [lia|].
      rewrite length_app. destruct (map_id j); simpl; lia.
Qed.

Lemma map_ids_grow_with_selection_run :
  (forall m, In m (getUniqueMapIds (Some Sample.data) ["p1"]) ->
             In m (getUniqueMapIds (Some Sample.data) ["p2"; "p1"]))
  /\ (List.length (getUniqueMapIds (Some Sample.data) ["p2"; "p1"])
      <= List.length (jobs (projects Sample.data)))%nat.
Proof.
  apply map_ids_grow_with_selection.
  intros x [<-|[]]. simpl. tauto.
Defined.

(** X10.  A click on a project's checkbox gives a set without repetition:
    ticking adds the identifier to the members and unticking removes it;
    the box of that project then shows what was clicked and every other box
    is as before; and the same click again changes nothing. *)
Theorem checkbox_click (sel : list string) (i : string) (b : bool) :
  NoDup (handleProjectSelect sel i b)
  /\ (forall x, In x (handleProjectSelect sel i b) <->
                if b then In x sel \/ x = i else In x sel /\ x <> i)
  /\ JS.Set_has (handleProjectSelect sel i b) i = b
  /\ (forall x, x <> i ->
                JS.Set_has (handleProjectSelect sel i b) x
                = JS.Set_has sel x)
  /\ handleProjectSelect (handleProjectSelect sel i b) i b
     = handleProjectSelect sel i b.
Proof.
  pose proof (select_NoDup sel i b) as ND.
  pose proof (select_In sel i b) as M.
  split; [exact ND|]. split; [exact M|]. split; [|split].
  - destruct b.
    + apply SetFacts.has_In, M. now right.
    + destruct (JS.Set_has (handleProjectSelect sel i false) i) eqn:E;
        [|reflexivity].
      apply SetFacts.has_In, M in E. tauto.
  - intros x N. apply has_eq. rewrite M. destruct b; tauto.
  - unfold handleProjectSelect at 1.
    rewrite (UrlState.Set_of_NoDup _ ND).
    destruct b.
    + unfold JS.Set_add.
      assert (H : JS.Set_has (handleProjectSelect sel i true) i = true)
        by (apply SetFacts.has_In, M; now right).
      now rewrite H.
    + unfold JS.Set_delete. apply forallb_filter_id, forallb_forall.
      intros y Hy. apply M in Hy. destruct Hy as [_ N].
      apply negb_true_iff, String.eqb_neq. congruence.
Qed.

(** X11.  Select All replaces the selection by the identifiers of the
    projects of the snapshot, each once, so that every project's box is
    ticked and identifiers that are not in the snapshot are dropped;
    without a snapshot it leaves the selection as it is. *)
Theorem select_all_replaces_selection (data : option ProjectsData)
    (sel : list string) :
  match data with
  | Some d =>
      NoDup (handleSelectAll data sel)
      /\ (forall x, In x (handleSelectAll data sel) <->
                    exists p, In p (unique_projects (projects d))
                              /\ id p = x)
      /\ (forall p, In p (unique_projects (projects d)) ->
                    JS.Set_has (handleSelectAll data sel) (id p) = true)
  | None => handleSelectAll data sel = sel
  end.
Proof.
  destruct data as [d|]; [|reflexivity].
  unfold handleSelectAll.
  destruct (UrlState.Set_of_spec (map id (unique_projects (projects d))))
    as [ND M].
  split; [exact ND|]. split.
  - intro x. rewrite M, in_map_iff.
    split; intros (p & A & B); exists p; auto.
  - intros p Hp. apply SetFacts.has_In, M. now apply in_map.
Qed.

(** X12.  The side panel follows the boxes: ticking a project keeps every
    map id that was shown, unticking one shows no map id that was not
    shown, Select All shows the map ids of all jobs of listed projects, and
    Clear All shows none. *)
Theorem side_panel_follows_selection (d : ProjectsData) (sel : list string)
    (i : string) :
  (forall m, In m (getUniqueMapIds (Some d) sel) ->
             In m (getUniqueMapIds (Some d)
                                   (handleProjectSelect sel i true)))
  /\ (forall m, In m (getUniqueMapIds (Some d)
                                      (handleProjectSelect sel i false)) ->
                In m (getUniqueMapIds (Some d) sel))
  /\ (forall m, In m (getUniqueMapIds (Some d)
                                      (handleSelectAll (Some d) sel)) <->
                exists j p, In j (jobs (projects d))
                            /\ In p (unique_projects (projects d))
                            /\ project_id (request_payload j) = id p
                            /\ map_id j = Some m /\ m <> "")
  /\ getUniqueMapIds (Some d) handleClearAll = [].
Proof.
  destruct (map_ids_facts d sel) as (M & _ & _).
  split; [|split; [|split]].
  - destruct (map_ids_facts d (handleProjectSelect sel i true))
      as (M' & _ & _).
    intros m Hm. apply M in Hm. destruct Hm as (j & Ij & Ip & R).
    apply M'. exists j. split; [exact Ij|]. split; [|exact R].
    apply (select_In sel i true). now left.
  - destruct (map_ids_facts d (handleProjectSelect sel i false))
      as (M' & _ & _).
    intros m Hm. apply M' in Hm. destruct Hm as (j & Ij & Ip & R).
    apply M. exists j. split; [exact Ij|]. split; [|exact R].
    apply (select_In sel i false) in Ip. tauto.
  - destruct (map_ids_facts d (handleSelectAll (Some d) sel))
      as (M' & _ & _).
    destruct (UrlState.Set_of_spec (map id (unique_projects (projects d))))
      as [_ A].
    intro m. rewrite M'. unfold handleSelectAll. split.
    + intros (j & Ij & Ip & E & N).
      apply A, in_map_iff in Ip. destruct Ip as (p & Ep & Hp).
      exists j, p. auto.
    + intros (j & p & Ij & Hp & Ep & E & N).
      exists j. split; [exact Ij|]. split; [|auto].
      apply A. rewrite Ep. now apply in_map.
  - reflexivity.
Qed.

End Selection.

(** ** When the grouping throws *)

Module GroupingErrors.
Import Grouping.

(** X13.  Grouping by anything but [none] throws exactly when some project's
    key is the name of a member of [Object.prototype] ([constructor],
    [toString], ...): the read of [groups[key]] then finds the inherited
    member, which has no [push].  No group is returned in that case. *)
Theorem grouping_throws_iff (localeCompare : string -> string -> Z)
    (sorted : list UniqueProject) (groupBy : string) :
  groupBy <> "none" ->
  ((exists e, groupedProjects localeCompare sorted groupBy = Throw e)
   <-> exists p, In p sorted /\ inherited (groupKey groupBy p) = true).
Proof.
  intro N. split.
  - intros [e E].
    destruct (existsb (fun p => inherited (groupKey groupBy p)) sorted)
      eqn:X.
    + apply existsb_exists in X. exact X.
    + exfalso.
      assert (NI : forall p, In p sorted ->
                             inherited (groupKey groupBy p) = false).
      { intros p Hp.
        destruct (inherited (groupKey groupBy p)) eqn:I; [|reflexivity].
        assert (existsb (fun p => inherited (groupKey groupBy p)) sorted
                = true) by (apply existsb_exists; eauto).
        congruence. }
      unfold groupedProjects in E.
      apply String.eqb_neq in N. rewrite N in E.
      destruct (forEach_ok groupBy sorted [] []) as (o & F & _);
        [exact NI | |].
      { split; [constructor|]. split; [intros ? ? [] | intros ? []]. }
      rewrite F in E. discriminate E.
  - now apply inherited_key_throws.
Qed.

Lemma grouping_throws_iff_run :
  exists e,
    groupedProjects Host.localeCompare
      [Sample.pA; Sample.project "p9" "N" "toString" "kim" "2025-01-01"]
      "agency"
    = Throw e.
Proof.
  apply (grouping_throws_iff Host.localeCompare
           [Sample.pA; Sample.project "p9" "N" "toString" "kim" "2025-01-01"]
           "agency").
  - discriminate.
  - eexists. split; [right; left; reflexivity | reflexivity].
Defined.

End GroupingErrors.

(** ** Updates of the URL *)

Module UrlUpdates.
Import QueryString.

Lemma getAll_delete_same (params : URLSearchParams.t) (name : string) :
  getAll (URLSearchParams.delete params name) name = [].
Proof.
  unfold getAll, URLSearchParams.delete.
  induction params as [|[n v] l IH]; simpl; [reflexivity|].
  destruct (String.eqb n name) eqn:E; simpl; [exact IH|].
  now rewrite E.
Qed.

Lemma getAll_delete_other (params : URLSearchParams.t)
    (name other : string) :
  other <> name ->
  getAll (URLSearchParams.delete params name) other = getAll params other.
Proof.
  intro N. unfold getAll. f_equal.
  apply (delete_frame (fun n => String.eqb n other)).
  now apply String.eqb_neq, not_eq_sym.
Qed.

Lemma getAll_set_same (params : URLSearchParams.t) (name value : string) :
  getAll (URLSearchParams.set params name value) name = [value].
Proof.
  induction params as [|[n v] l IH]; simpl.
  - unfold getAll. simpl. now rewrite String.eqb_refl.
  - destruct (String.eqb n name) eqn:E.
    + unfold getAll. simpl. rewrite E. simpl. f_equal.
      apply getAll_delete_same.
    + unfold getAll in *. simpl. rewrite E. exact IH.
Qed.

Lemma getAll_set_other (params : URLSearchParams.t)
    (name value other : string) :
  other <> name ->
  getAll (URLSearchParams.set params name value) other = getAll params other.
Proof.
  intro N. unfold getAll. f_equal.
  apply (set_frame (fun n => String.eqb n other)).
  now apply String.eqb_neq, not_eq_sym.
Qed.

Lemma getAll_set_if_other (field : option string)
    (params : URLSearchParams.t) (name other : string) :
  other <> name ->
  getAll (set_if field name params) other = getAll params other.
Proof.
  intro N. destruct field; simpl; [now apply getAll_set_other|reflexivity].
Qed.

(** A name without pairs is not touched by [delete], and a name whose only
    pair holds the value already is not touched by [set]. *)
Lemma delete_none (params : URLSearchParams.t) (name : string) :
  getAll params name = [] -> URLSearchParams.delete params name = params.
Proof.
  unfold getAll, URLSearchParams.delete.
  induction params as [|[n v] l IH]; simpl; [reflexivity|].
  destruct (String.eqb n name); simpl; [discriminate|].
  intro H. now rewrite IH.
Qed.

Lemma set_settled (params : URLSearchParams.t) (name value : string) :
  getAll params name = [value] ->
  URLSearchParams.set params name value = params.
Proof.
  induction params as [|[n v] l IH]; unfold getAll; simpl; [discriminate|].
  destruct (String.eqb n name) eqn:E; simpl.
  - intros [= -> H]. f_equal. apply delete_none.
    unfold getAll. exact H.
  - intro H. f_equal. now apply IH.
Qed.

Lemma get_getAll (params : URLSearchParams.t) (name : string) :
  URLSearchParams.get params name = hd_error (getAll params name).
Proof.
  unfold getAll.
  induction params as [|[n v] l IH]; simpl; [reflexivity|].
  destruct (String.eqb n name); simpl; [reflexivity | exact IH].
Qed.

(** What the parameters hold after an update, name by name. *)
Lemma updated_values (updates : Updates) (params : URLSearchParams.t) :
  let q := updatedParams updates params in
  (forall name field,
      In (name, field)
         [ ("env", upd_environment updates);
           ("groupBy", upd_groupBy updates);
           ("sortBy", upd_sortBy updates);
           ("sortDir", upd_sortDirection updates) ] ->
      getAll q name = match field with
                      | Some v => [v]
                      | None => getAll params name
                      end)
  /\ getAll q "selected"
     = match upd_selectedProjects updates with
       | Some selected =>
           if (0 <? List.length selected)%nat
           then [Str.join "," selected] else []
       | None => getAll params "selected"
       end.
Proof.
  intro q. subst q. unfold updatedParams.
  set (p1 := set_if (upd_environment updates) "env" params).
  set (p2 := set_if (upd_groupBy updates) "groupBy" p1).
  set (p3 := set_if (upd_sortBy updates) "sortBy" p2).
  set (p4 := set_if (upd_sortDirection updates) "sortDir" p3).
  assert (S : forall name,
             name <> "selected" ->
             getAll match upd_selectedProjects updates with
                    | Some selected =>
                        if (0 <? List.length selected)%nat
                        then URLSearchParams.set p4 "selected"
                               (Str.join "," selected)
                        else URLSearchParams.delete p4 "selected"
                    | None => p4
                    end name
             = getAll p4 name).
  { intros name N. destruct (upd_selectedProjects updates) as [sel|];
      [|reflexivity].
    destruct (0 <? List.length sel)%nat;
      [now apply getAll_set_other | now apply getAll_delete_other]. }
  split.
  - intros name field H.
    destruct H as [H|[H|[H|[H|[]]]]]; injection H as <- <-;
      rewrite S by discriminate; subst p4 p3 p2 p1;
      rewrite ?getAll_set_if_other by discriminate;
      match goal with
      | |- getAll (set_if ?f _ _) _ = _ =>
          destruct f; simpl;
          [apply getAll_set_same
          | rewrite ?getAll_set_if_other by discriminate; reflexivity]
      end.
  - destruct (upd_selectedProjects updates) as [sel|].
    + destruct (0 <? List.length sel)%nat;
        [apply getAll_set_same | apply getAll_delete_same].
    + subst p4 p3 p2 p1.
      now rewrite !getAll_set_if_other by discriminate.
Qed.

(** The same update, applied to its own result, changes nothing. *)
Lemma updatedParams_again (updates : Updates) (params : URLSearchParams.t) :
  updatedParams updates (updatedParams updates params)
  = updatedParams updates params.
Proof.
  destruct (updated_values updates params) as [F Sel].
  cbv zeta in F, Sel.
  set (q := updatedParams updates params) in *.
  unfold updatedParams at 1.
  assert (K : forall name field,
             In (name, field)
                [ ("env", upd_environment updates);
                  ("groupBy", upd_groupBy updates);
                  ("sortBy", upd_sortBy updates);
                  ("sortDir", upd_sortDirection updates) ] ->
             set_if field name q = q).
  { intros name field H. specialize (F name field H).
    destruct field as [v|]; simpl; [|reflexivity].
    now apply set_settled. }
  rewrite (K "env") by (simpl; tauto).
  rewrite (K "groupBy") by (simpl; tauto).
  rewrite (K "sortBy") by (simpl; tauto).
  rewrite (K "sortDir") by (simpl; tauto).
  destruct (upd_selectedProjects updates) as [sel|]; [|reflexivity].
  destruct (0 <? List.length sel)%nat;
    [now apply set_settled | now apply delete_none].
Qed.

(** X14.  The five effects that write the view state to the URL, run one
    after the other, leave the same query string as one call of
    [updateUrlParams] with all five fields. *)
Theorem five_effects_are_one_update (st : ViewState) (search : string) :
  synchronize st search = updateUrlParams (full_update st) search.
Proof.
  unfold synchronize. unfold updateUrlParams at 1.
  now rewrite !parse_updateUrlParams.
Qed.

(** X15.  Writing an update a second time does not change the URL:
    [updateUrlParams] is idempotent, as text, for every update and every
    URL; so is the whole synchronization. *)
Theorem update_twice_is_update_once (updates : Updates) (st : ViewState)
    (search : string) :
  updateUrlParams updates (updateUrlParams updates search)
  = updateUrlParams updates search
  /\ synchronize st (synchronize st search) = synchronize st search.
Proof.
  assert (I : forall u s,
             updateUrlParams u (updateUrlParams u s) = updateUrlParams u s).
  { intros u s. unfold updateUrlParams at 1.
    rewrite parse_updateUrlParams, updatedParams_again. reflexivity. }
  split; [apply I|].
  assert (E : forall s, synchronize st s
                        = updateUrlParams (full_update st) s).
  { intro s. unfold synchronize. unfold updateUrlParams at 1.
    now rewrite !parse_updateUrlParams. }
  rewrite !E. apply I.
Qed.

(** X16.  After an update, each parameter the update gives has exactly one
    pair, holding the given value, however many pairs of that name the URL
    had; [selected] has one pair with the joined identifiers, or none when
    the selection is empty; the parameters the update does not give keep
    all their values. *)
Theorem update_writes_one_pair_each (updates : Updates) (search : string) :
  let q := URLSearchParams.parse (updateUrlParams updates search) in
  let p := URLSearchParams.parse search in
  (forall name field,
      In (name, field)
         [ ("env", upd_environment updates);
           ("groupBy", upd_groupBy updates);
           ("sortBy", upd_sortBy updates);
           ("sortDir", upd_sortDirection updates) ] ->
      getAll q name = match field with
                      | Some v => [v]
                      | None => getAll p name
                      end)
  /\ getAll q "selected"
     = match upd_selectedProjects updates with
       | Some selected =>
           if (0 <? List.length selected)%nat
           then [Str.join "," selected] else []
       | None => getAll p "selected"
       end.
Proof.
  cbv zeta. rewrite parse_updateUrlParams. apply updated_values.
Qed.

End UrlUpdates.

(** ** Hydration after an update *)

Module Hydration.
Import QueryString UrlUpdates.

Lemma or_default_nonempty (x : option string) (d : string) :
  d <> "" -> JS.or_default x d <> "".
Proof.
  intro H. unfold JS.or_default. destruct x as [v|]; [|exact H].
  destruct (JS.truthy v) eqn:T; [|exact H].
  now apply SetFacts.truthy_nonempty.
Qed.

(** No piece of a split holds the separator. *)
Lemma split_pieces_plain (sep : ascii) (s x : string) :
  In x (Str.split sep s) -> Str.contains sep x = false.
Proof.
  revert x. induction s as [|c s IH]; simpl; intro x.
  - intros [<-|[]]. reflexivity.
  - destruct (Ascii.eqb c sep) eqn:E.
    + intros [<-|H]; [reflexivity | now apply IH].
    + destruct (Str.split sep s) as [|piece pieces] eqn:P.
      * intros [<-|[]]. simpl. now rewrite E.
      * intros [<-|H].
        -- simpl. rewrite E. apply IH. now left.
        -- apply IH. now right.
Qed.

(** A well-formed state comes back from the URL it was written to. *)
Lemma comes_back (st : ViewState) (search : string) :
  environment st <> "" -> groupBy st <> "" -> sortBy st <> "" ->
  sortDirection st <> "" ->
  NoDup (selectedProjects st) ->
  (forall x, In x (selectedProjects st) -> Str.contains "," x = false) ->
  selectedProjects st <> [""] ->
  getUrlParams (synchronize st search) = st.
Proof.
  intros He Hg Hs Hd ND NC NE.
  unfold getUrlParams. rewrite UrlState.parse_synchronize. cbv zeta.
  destruct st as [e g s d sel]. simpl in *.
  set (ps := URLSearchParams.set _ "sortDir" d).
  assert (G : forall name,
             name <> "selected" ->
             URLSearchParams.get
               (if (0 <? List.length sel)%nat
                then URLSearchParams.set ps "selected" (Str.join "," sel)
                else URLSearchParams.delete ps "selected") name
             = URLSearchParams.get ps name).
  { intros name N. destruct (0 <? List.length sel)%nat;
      [now apply get_set_other | now apply get_delete_other]. }
  rewrite !G by discriminate. subst ps.
  f_equal.
  - rewrite !get_set_other by discriminate.
    rewrite get_set_same. now apply UrlState.or_default_given.
  - rewrite !get_set_other by discriminate.
    rewrite get_set_same. now apply UrlState.or_default_given.
  - rewrite !get_set_other by discriminate.
    rewrite get_set_same. now apply UrlState.or_default_given.
  - rewrite get_set_same. now apply UrlState.or_default_given.
  - destruct sel as [|x l].
    + change (0 <? List.length (@nil string))%nat with false. cbv iota.
      now rewrite get_delete_same.
    + change (0 <? List.length (x :: l))%nat with true. cbv iota.
      rewrite get_set_same.
      rewrite (proj2 (SetFacts.truthy_nonempty _)
                     (UrlState.join_truthy "," (x :: l)
                                           ltac:(discriminate) NE)).
      rewrite split_join;
        [now apply UrlState.Set_of_NoDup | discriminate | exact NC].
Qed.

(** X17.  Reading the state from the URL after an update gives, for every
    field of the update, what hydration makes of the written value (the
    value itself, or the default when it is empty), and for every other
    field what it was before the update. *)
Theorem update_then_hydrate (updates : Updates) (search : string) :
  getUrlParams (updateUrlParams updates search)
  = {| environment :=
         match upd_environment updates with
         | Some v => JS.or_default (Some v) "local"
         | None => environment (getUrlParams search)
         end;
       groupBy :=
         match upd_groupBy updates with
         | Some v => JS.or_default (Some v) "none"
         | None => groupBy (getUrlParams search)
         end;
       sortBy :=
         match upd_sortBy updates with
         | Some v => JS.or_default (Some v) "updated_at"
         | None => sortBy (getUrlParams search)
         end;
       sortDirection :=
         match upd_sortDirection updates with
         | Some v => JS.or_default (Some v) "desc"
         | None => sortDirection (getUrlParams search)
         end;
       selectedProjects :=
         match upd_selectedProjects updates with
         | Some selected =>
             if JS.truthy (Str.join "," selected)
             then JS.Set_of (Str.split "," (Str.join "," selected))
             else []
         | None => selectedProjects (getUrlParams search)
         end |}.
Proof.
  unfold getUrlParams. rewrite parse_updateUrlParams.
  destruct (updated_values updates (URLSearchParams.parse search))
    as [F Sel].
  cbv zeta in F, Sel.
  rewrite !get_getAll, Sel.
  rewrite (F "env" (upd_environment updates)) by (simpl; tauto).
  rewrite (F "groupBy" (upd_groupBy updates)) by (simpl; tauto).
  rewrite (F "sortBy" (upd_sortBy updates)) by (simpl; tauto).
  rewrite (F "sortDir" (upd_sortDirection updates)) by (simpl; tauto).
  f_equal.
  - now destruct (upd_environment updates).
  - now destruct (upd_groupBy updates).
  - now destruct (upd_sortBy updates).
  - now destruct (upd_sortDirection updates).
  - destruct (upd_selectedProjects updates) as [[|x l]|]; reflexivity.
Qed.

(** X18.  Whatever the query string, the state read from it has four
    non-empty scalar fields and a selection without repetition whose
    identifiers hold no comma; and unless that selection is the empty
    identifier alone, writing the state to any URL and reading it again
    gives the same state. *)
Theorem hydrated_state_comes_back (search search' : string) :
  let st := getUrlParams search in
  environment st <> "" /\ groupBy st <> "" /\ sortBy st <> ""
  /\ sortDirection st <> ""
  /\ NoDup (selectedProjects st)
  /\ (forall x, In x (selectedProjects st) -> Str.contains "," x = false)
  /\ (selectedProjects st <> [""] ->
      getUrlParams (synchronize st search') = st).
Proof.
  intro st.
  assert (W : environment st <> "" /\ groupBy st <> "" /\ sortBy st <> ""
              /\ sortDirection st <> ""
              /\ NoDup (selectedProjects st)
              /\ (forall x, In x (selectedProjects st) ->
                            Str.contains "," x = false)).
  { subst st. unfold getUrlParams. simpl.
    repeat (split; [apply or_default_nonempty; discriminate|]).
    destruct (URLSearchParams.get (URLSearchParams.parse search) "selected")
      as [v|]; [|split; [constructor | intros ? []]].
    destruct (JS.truthy v); [|split; [constructor | intros ? []]].
    destruct (UrlState.Set_of_spec (Str.split "," v)) as [ND M].
    split; [exact ND|].
    intros x Hx. apply M in Hx. now apply split_pieces_plain in Hx. }
  destruct W as (A & B & C & D & E & F).
  repeat (split; [assumption|]).
  intro NE. now apply comes_back.
Qed.

End Hydration.

(** ** What a fetch leaves behind *)

Module FetchOutcome.

(** X19.  However the request settles, [fetchProjects] ends with [loading]
    off and exactly one request sent.  It stores the snapshot and clears the
    error exactly when the response says [success] and carries data; in every
    other case (a failed request, [success = false], or no data) it keeps
    the snapshot it had and sets a non-empty error message. *)
Theorem fetch_outcome (environment : string) (st : FetchState)
    (net : Network) :
  let st' := fst (fetchProjects environment st net) in
  let net' := snd (fetchProjects environment st net) in
  loading st' = false
  /\ sent net' = sent net ++ [environment]
  /\ outcome net' = outcome net
  /\ match outcome net (List.length (sent net)) with
     | Fulfilled response =>
         match Api.success response, Api.data response with
         | true, Some d => data st' = Some d /\ error st' = None
         | _, _ =>
             data st' = data st
             /\ exists message, error st' = Some message /\ message <> ""
         end
     | Rejected _ =>
         data st' = data st
         /\ exists message, error st' = Some message /\ message <> ""
     end.
Proof.
  cbv zeta. unfold fetchProjects, getProjects, apiClient_get.
  assert (D : forall e : option string,
             JS.or_default e "Failed to fetch projects" <> "").
  { intros [v|]; unfold JS.or_default; [|discriminate].
    destruct (JS.truthy v) eqn:T; [|discriminate].
    now apply SetFacts.truthy_nonempty. }
  destruct (outcome net (List.length (sent net))) as [response|reason];
    simpl.
  - destruct (Api.success response), (Api.data response); simpl;
      repeat split; eauto.
  - repeat split. eexists. split; [reflexivity|].
    apply (D (Some match reason with
                   | Error message => message
                   | NotAnError => "Unknown error occurred"
                   end)).
Qed.


End FetchOutcome.

(** ** From the snapshot to the grid *)

Module Pipeline.
Import Grouping.

Lemma StronglySorted_filter {A} (R : A -> A -> Prop) (f : A -> bool)
    (l : list A) :
  StronglySorted R l -> StronglySorted R (filter f l).
Proof.
  induction 1 as [|x l Hl IH Hx]; simpl; [constructor|].
  destruct (f x); [|exact IH].
  constructor; [exact IH|].
  rewrite Forall_forall in *. intros y Hy.
  apply filter_In in Hy. now apply Hx.
Qed.

(** A grouping that returns has met no inherited key. *)
Lemma returned_without_inherited_key (localeCompare : string -> string -> Z)
    (l : list UniqueProject) (groupBy : string) (groups : list Group.t) :
  groupBy <> "none" ->
  groupedProjects localeCompare l groupBy = Normal groups ->
  forall p, In p l -> inherited (groupKey groupBy p) = false.
Proof.
  intros N E p Hp.
  destruct (inherited (groupKey groupBy p)) eqn:I; [|reflexivity].
  destruct (inherited_key_throws localeCompare l groupBy N) as [e T];
    [eauto|].
  congruence.
Qed.

(** The groups that are returned: the properties of a dictionary of the
    list, in some order. *)
Lemma returned_groups (localeCompare : string -> string -> Z)
    (l : list UniqueProject) (groupBy : string) (groups : list Group.t) :
  groupBy <> "none" ->
  groupedProjects localeCompare l groupBy = Normal groups ->
  exists o,
    groups_of groupBy l o
    /\ Permutation (map (fun g => (Group.key g, Group.projects g)) groups) o.
Proof.
  intros N E.
  pose proof (returned_without_inherited_key _ _ _ _ N E) as NI.
  unfold groupedProjects in E.
  apply String.eqb_neq in N. rewrite N in E.
  destruct (forEach_ok groupBy l [] []) as (o & F & G); [exact NI | |].
  { split; [constructor|]. split; [intros ? ? [] | intros ? []]. }
  rewrite F in E. simpl in E, G. injection E as <-.
  exists o. split; [exact G|].
  rewrite map_map. simpl.
  rewrite (map_ext _ (fun e => e)) by (now intros []).
  rewrite List.map_id, SortFacts.sort_perm.
  apply ObjFacts.entries_perm.
Qed.

(** X21.  From the snapshot to the grid: whatever the sort field, the
    direction and the grouping, when the grouping returns, every project of
    the snapshot is in the groups exactly as often as in the snapshot; and
    when every date the sort reads is valid, the projects of each group
    are in the order of the comparator. *)
Theorem grid_shows_every_project_in_order
    (Date_getTime : string -> number)
    (localeCompare : string -> string -> Z)
    (d : ProjectsData) (sortBy sortDirection groupBy : string)
    (groups : list Group.t) :
  groupedProjects localeCompare
    (sortedProjects Date_getTime (Some d) sortBy sortDirection) groupBy
  = Normal groups ->
  Permutation (List.concat (map Group.projects groups))
              (unique_projects (projects d))
  /\ ((sortBy = "created_at" ->
       forall p, In p (unique_projects (projects d)) ->
                 Date_getTime (created_at p) <> NaN) ->
      (sortBy = "updated_at" ->
       forall p, In p (unique_projects (projects d)) ->
                 Date_getTime (updated_at p) <> NaN) ->
      forall g, In g groups ->
                StronglySorted
                  (fun a b => compareProjects Date_getTime sortBy
                                              sortDirection a b <= 0)
                  (Group.projects g)).
Proof.
  intro E.
  set (sorted := sortedProjects Date_getTime (Some d) sortBy sortDirection)
    in *.
  assert (PS : Permutation sorted (unique_projects (projects d)))
    by apply SortFacts.sort_perm.
  destruct (String.eqb_spec groupBy "none") as [->|N].
  - unfold groupedProjects in E. simpl in E. injection E as <-. simpl.
    rewrite app_nil_r. split; [exact PS|].
    intros Hc Hu g [<-|[]]. simpl.
    now apply SortOrder.in_comparator_order.
  - destruct (returned_groups _ _ _ _ N E) as (o & (ND & Hm & Hk) & P).
    assert (Sh : forall g, In g groups ->
                   Group.projects g
                   = filter (fun p => String.eqb (groupKey groupBy p)
                                                 (Group.key g)) sorted).
    { intros g Hg.
      assert (I : In (Group.key g, Group.projects g) o).
      { eapply Permutation_in; [exact P|].
        apply (in_map (fun g => (Group.key g, Group.projects g))), Hg. }
      now destruct (Hm _ _ I). }
    split.
    + rewrite <- PS.
      rewrite (map_ext_in _ (fun g => filter
                 (fun p => String.eqb (groupKey groupBy p) (Group.key g))
                 sorted)) by exact Sh.
      rewrite <- (map_map Group.key (fun k => filter
                 (fun p => String.eqb (groupKey groupBy p) k) sorted)).
      assert (PK : Permutation (map Group.key groups) (map fst o)).
      { apply (Permutation_map fst) in P.
        now rewrite map_map in P. }
      apply concat_groups.
      * eapply Permutation_NoDup; [symmetry; exact PK | exact ND].
      * intros p Hp. eapply Permutation_in; [symmetry; exact PK|].
        now apply Hk.
    + intros Hc Hu g Hg. rewrite (Sh g Hg).
      apply StronglySorted_filter.
      now apply SortOrder.in_comparator_order.
Qed.

Lemma grid_shows_every_project_in_order_run :
  exists groups,
    groupedProjects Host.localeCompare
      (sortedProjects Host.Date_getTime (Some Sample.data) "name" "desc")
      "agency"
    = Normal groups
    /\ Permutation (List.concat (map Group.projects groups))
                   (unique_projects (projects Sample.data)).
Proof.
  eexists. split; [reflexivity|].
  apply (grid_shows_every_project_in_order
           Host.Date_getTime Host.localeCompare Sample.data
           "name" "desc" "agency").
  reflexivity.
Defined.

End Pipeline.

(** ** The engine's sort and the sort of the language *)

Module V8Facts.

Lemma sorted_app_inv {A} (R : A -> A -> Prop) (l1 l2 : list A) :
  StronglySorted R (l1 ++ l2) ->
  StronglySorted R l1 /\ StronglySorted R l2
  /\ forall x y, In x l1 -> In y l2 -> R x y.
Proof.
  induction l1 as [|a l1 IH]; simpl; intro S.
  - split; [constructor|]. split; [exact S|]. intros x y [].
  - inversion S as [|? ? S' F]; subst.
    destruct (IH S') as (S1 & S2 & C).
    rewrite Forall_forall in F.
    split; [|split; [exact S2|]].
    + constructor; [exact S1|]. rewrite Forall_forall.
      intros y Hy. apply F, in_or_app. now left.
    + intros x y [<-|Hx] Hy; [|now apply C].
      apply F, in_or_app. now right.
Qed.

Lemma sorted_app {A} (R : A -> A -> Prop) (l1 l2 : list A) :
  StronglySorted R l1 -> StronglySorted R l2 ->
  (forall x y, In x l1 -> In y l2 -> R x y) ->
  StronglySorted R (l1 ++ l2).
Proof.
  induction 1 as [|a l1 S1 IH F]; simpl; intros S2 C; [exact S2|].
  constructor.
  - apply IH; [exact S2|]. intros x y Hx. apply C. now right.
  - rewrite Forall_forall in *. intros y Hy.
    apply in_app_or in Hy. destruct Hy as [Hy|Hy]; [now apply F|].
    apply C; [now left | exact Hy].
Qed.

Lemma firstn_exact {A} (l1 l2 : list A) :
  firstn (List.length l1) (l1 ++ l2) = l1.
Proof. induction l1; simpl; [now destruct l2 | now f_equal]. Qed.

Lemma skipn_exact {A} (l1 l2 : list A) :
  skipn (List.length l1) (l1 ++ l2) = l2.
Proof. induction l1; simpl; auto. Qed.

Lemma firstn_one_more {A} (l1 l2 : list A) (e : A) :
  firstn (S (List.length l1)) (l1 ++ e :: l2) = l1 ++ [e].
Proof.
  induction l1 as [|a l1 IH]; [now destruct l2|].
  change (firstn (S (List.length (a :: l1))) ((a :: l1) ++ e :: l2))
    with (a :: firstn (S (List.length l1)) (l1 ++ e :: l2)).
  now rewrite IH.
Qed.

Lemma skipn_one_more {A} (l1 l2 : list A) (e : A) :
  skipn (S (List.length l1)) (l1 ++ e :: l2) = l2.
Proof. induction l1; simpl; auto. Qed.

Section Agreement.
Context {A : Type}.
Variable cmp : A -> A -> Z.
Variable l0 : list A.

(** The comparator is consistent on the members of [l0]. *)
Hypothesis sym :
  forall a b, In a l0 -> In b l0 -> (cmp a b < 0 <-> cmp b a > 0).
Hypothesis trans :
  forall a b c, In a l0 -> In b l0 -> In c l0 ->
                cmp a b <= 0 -> cmp b c <= 0 -> cmp a c <= 0.

Lemma ge_le (a b : A) :
  In a l0 -> In b l0 -> cmp a b >= 0 -> cmp b a <= 0.
Proof.
  intros Ha Hb H. destruct (Z.le_gt_cases (cmp b a) 0) as [L|G]; [exact L|].
  apply Z.lt_gt, (sym a b Ha Hb) in G. lia.
Qed.

Lemma le_ge (a b : A) :
  In a l0 -> In b l0 -> cmp a b <= 0 -> cmp b a >= 0.
Proof.
  intros Ha Hb H. destruct (Z.lt_ge_cases (cmp b a) 0) as [L|G]; [|lia].
  apply (sym b a Hb Ha) in L. lia.
Qed.

Lemma lt_le_trans (a b c : A) :
  In a l0 -> In b l0 -> In c l0 ->
  cmp a b < 0 -> cmp b c <= 0 -> cmp a c < 0.
Proof.
  intros Ha Hb Hc Hab Hbc.
  assert (Hac : cmp a c <= 0) by (apply (trans a b c); auto; lia).
  destruct (Z.lt_ge_cases (cmp a c) 0) as [L|G]; [exact L|].
  assert (Hca : cmp c a <= 0) by (apply ge_le; auto; lia).
  assert (Hba : cmp b a <= 0) by (apply (trans b c a); auto).
  apply (sym a b Ha Hb) in Hab. lia.
Qed.

Lemma le_lt_trans (a b c : A) :
  In a l0 -> In b l0 -> In c l0 ->
  cmp a b <= 0 -> cmp b c < 0 -> cmp a c < 0.
Proof.
  intros Ha Hb Hc Hab Hbc.
  assert (Hac : cmp a c <= 0) by (apply (trans a b c); auto; lia).
  destruct (Z.lt_ge_cases (cmp a c) 0) as [L|G]; [exact L|].
  assert (Hca : cmp c a <= 0) by (apply ge_le; auto; lia).
  assert (Hcb : cmp c b <= 0) by (apply (trans c a b); auto).
  apply (sym b c Hb Hc) in Hbc. lia.
Qed.

Lemma tie_trans (x y z : A) :
  In x l0 -> In y l0 -> In z l0 ->
  cmp x y = 0 -> cmp x z = 0 -> cmp y z = 0.
Proof.
  intros Hx Hy Hz Hxy Hxz.
  assert (cmp y x <= 0) by (apply ge_le; auto; lia).
  assert (cmp z x <= 0) by (apply ge_le; auto; lia).
  assert (cmp y z <= 0) by (apply (trans y x z); auto; lia).
  assert (cmp z y <= 0) by (apply (trans z x y); auto; lia).
  assert (cmp y z >= 0) by (apply le_ge; auto).
  lia.
Qed.

Lemma tie_self (x : A) : In x l0 -> cmp x x = 0.
Proof.
  intro Hx. pose proof (sym x x Hx Hx) as S.
  destruct (Z.lt_trichotomy (cmp x x) 0) as [L|[E|G]]; [|exact E|].
  - apply S in L. lia.
  - apply Z.lt_gt, S in G. lia.
Qed.

(** *** The binary search *)

Lemma search_spec (fuel : nat) (pivot : A) (arr : list A) :
  In pivot l0 -> Forall (fun e => In e l0) arr ->
  StronglySorted (fun a b => cmp a b <= 0) arr ->
  forall left right,
    (left <= right)%nat -> (right <= List.length arr)%nat ->
    (right - left <= fuel)%nat ->
    Forall (fun e => cmp pivot e >= 0) (firstn left arr) ->
    Forall (fun e => cmp pivot e < 0) (skipn right arr) ->
    Forall (fun e => cmp pivot e >= 0)
           (firstn (V8.search cmp fuel pivot arr left right) arr)
    /\ Forall (fun e => cmp pivot e < 0)
              (skipn (V8.search cmp fuel pivot arr left right) arr).
Proof.
  intros Hp Harr Srt.
  induction fuel as [|fuel IH]; intros left right LR RL M Fl Fr; simpl.
  - assert (left = right) by lia. subst. auto.
  - destruct (Nat.ltb_spec left right) as [Lt|Ge];
      [|assert (left = right) by lia; subst; auto].
    set (mid := (left + Nat.div2 (right - left))%nat).
    assert (Hd : (Nat.div2 (right - left) < right - left)%nat)
      by (apply Nat.lt_div2; lia).
    assert (B : (mid < List.length arr)%nat /\ (left <= mid)%nat
                /\ (mid < right)%nat /\ (mid - left <= fuel)%nat
                /\ (right - Datatypes.S mid <= fuel)%nat)
      by (unfold mid; clear -Lt RL Hd M;
          revert Hd; generalize (Nat.div2 (right - left)); intros; lia).
    destruct B as (Hmid & B1 & B2 & B3 & B4).
    destruct (nth_split arr pivot Hmid) as (l1 & l2 & E & L1).
    set (e := nth mid arr pivot) in *.
    assert (He : In e l0).
    { rewrite Forall_forall in Harr. apply Harr. rewrite E.
      apply in_or_app. right. now left. }
    rewrite E in Srt. destruct (sorted_app_inv _ _ _ Srt) as (S1 & S2 & C).
    rewrite Forall_forall in Harr.
    destruct (Z.ltb_spec (cmp pivot e) 0) as [Neg|Pos].
    + apply IH; try lia; [exact Fl|].
      rewrite E, <- L1, skipn_exact.
      constructor; [exact Neg|].
      apply StronglySorted_inv in S2. destruct S2 as [_ F2].
      rewrite Forall_forall in *. intros x Hx.
      assert (In x l0)
        by (apply Harr; rewrite E; apply in_or_app; right; now right).
      apply (lt_le_trans pivot e x); auto.
    + apply IH; try lia; [|exact Fr].
      rewrite E, <- L1, firstn_one_more.
      apply Forall_app. split; [|constructor; [lia | constructor]].
      rewrite Forall_forall. intros x Hx.
      assert (In x l0)
        by (apply Harr; rewrite E; apply in_or_app; now left).
      apply le_ge; auto. apply (trans x e pivot); auto.
      * apply C; [exact Hx | now left].
      * apply ge_le; auto. lia.
Qed.

(** Where binary insertion puts the pivot. *)
Lemma place_spec (pre : list A) (pivot : A) :
  In pivot l0 -> Forall (fun e => In e l0) pre ->
  StronglySorted (fun a b => cmp a b <= 0) pre ->
  exists before after,
    pre = before ++ after
    /\ V8.place cmp pre pivot = before ++ pivot :: after
    /\ Forall (fun e => cmp pivot e >= 0) before
    /\ Forall (fun e => cmp pivot e < 0) after.
Proof.
  intros Hp Hpre S. unfold V8.place.
  set (i := V8.search cmp _ pivot pre 0 _).
  destruct (search_spec (List.length pre) pivot pre Hp Hpre S
                        0%nat (List.length pre)) as [F1 F2];
    try lia.
  - constructor.
  - rewrite skipn_all. constructor.
  - exists (firstn i pre), (skipn i pre).
    split; [symmetry; apply firstn_skipn|]. auto.
Qed.

(** *** Binary insertion *)

Lemma binary_insertion_spec (rest pre : list A) :
  Forall (fun e => In e l0) (pre ++ rest) ->
  StronglySorted (fun a b => cmp a b <= 0) pre ->
  Permutation (V8.binary_insertion cmp pre rest) (pre ++ rest)
  /\ StronglySorted (fun a b => cmp a b <= 0)
                    (V8.binary_insertion cmp pre rest)
  /\ forall x, In x l0 ->
               filter (fun y => cmp x y =? 0)
                      (V8.binary_insertion cmp pre rest)
               = filter (fun y => cmp x y =? 0) (pre ++ rest).
Proof.
  revert pre. induction rest as [|pivot rest IH]; intros pre Hin Srt.
  - unfold V8.binary_insertion. simpl. rewrite app_nil_r. auto.
  - apply Forall_app in Hin. destruct Hin as [Hpre Hrest].
    inversion Hrest as [|? ? Hp Hrest']; subst.
    destruct (place_spec pre pivot Hp Hpre Srt)
      as (before & after & E & P & Fb & Fa).
    rewrite E in Srt, Hpre.
    destruct (sorted_app_inv _ _ _ Srt) as (Sb & Sa & C).
    apply Forall_app in Hpre. destruct Hpre as [Hb Ha].
    rewrite Forall_forall in Hb, Ha, Fb, Fa.
    assert (Srt' : StronglySorted (fun a b => cmp a b <= 0)
                                  (V8.place cmp pre pivot)).
    { rewrite P. apply sorted_app; [exact Sb | |].
      - constructor; [exact Sa|]. rewrite Forall_forall.
        intros y Hy. specialize (Fa y Hy). lia.
      - intros x y Hx [<-|Hy]; [|now apply C].
        apply ge_le; auto. }
    assert (Hin' : Forall (fun e => In e l0)
                          (V8.place cmp pre pivot ++ rest)).
    { rewrite P. rewrite Forall_forall. intros y Hy.
      apply in_app_or in Hy. destruct Hy as [Hy|Hy].
      - apply in_app_or in Hy. destruct Hy as [Hy|[<-|Hy]]; auto.
      - rewrite Forall_forall in Hrest'. auto. }
    destruct (IH _ Hin' Srt') as (Pm & S' & F').
    change (V8.binary_insertion cmp pre (pivot :: rest))
      with (V8.binary_insertion cmp (V8.place cmp pre pivot) rest).
    split; [|split; [exact S'|]].
    + rewrite Pm, P, E. rewrite <- !app_assoc. simpl.
      apply Permutation_app_head.
      apply Permutation_middle.
    + intros x Hx. rewrite (F' x Hx), P, E.
      rewrite !filter_app. simpl.
      destruct (cmp x pivot =? 0) eqn:T; [|reflexivity].
      apply Z.eqb_eq in T.
      assert (N : filter (fun y => cmp x y =? 0) after = []).
      { clear -Fa Ha T Hx Hp sym trans.
        induction after as [|y t IHt]; [reflexivity|]. simpl.
        destruct (cmp x y =? 0) eqn:Ty.
        - exfalso. apply Z.eqb_eq in Ty.
          assert (cmp pivot y = 0)
            by (apply (tie_trans x pivot y); auto; apply Ha; now left).
          specialize (Fa y (or_introl eq_refl)). lia.
        - apply IHt; intros; [apply Ha | apply Fa]; now right. }
      rewrite N, app_nil_r. now rewrite <- app_assoc.
Qed.

(** *** The first run *)

Lemma extend_spec (descending : bool) (rest : list A) :
  forall previous run,
    Forall (fun e => In e l0) ((previous :: run) ++ rest) ->
    StronglySorted
      (fun x y => if descending then cmp x y < 0 else cmp y x <= 0)
      (previous :: run) ->
    rev (fst (V8.extend cmp descending previous (previous :: run) rest))
    ++ snd (V8.extend cmp descending previous (previous :: run) rest)
    = rev (previous :: run) ++ rest
    /\ StronglySorted
         (fun x y => if descending then cmp x y < 0 else cmp y x <= 0)
         (fst (V8.extend cmp descending previous (previous :: run) rest)).
Proof.
  induction rest as [|current rest IH]; intros previous run Hin Srt.
  - simpl. auto.
  - simpl V8.extend.
    destruct (if descending
              then 0 <=? cmp current previous
              else cmp current previous <? 0) eqn:Stop; [simpl; auto|].
    assert (Hin' : Forall (fun e => In e l0)
                          ((current :: previous :: run) ++ rest)).
    { rewrite Forall_forall in *. intros y Hy. apply Hin.
      simpl in *. rewrite in_app_iff in *. simpl. tauto. }
    assert (Hc : In current l0 /\ In previous l0).
    { rewrite Forall_forall in Hin. split; apply Hin; simpl;
        [right; apply in_or_app; right; now left | now left]. }
    destruct Hc as [Hc Hp].
    assert (Srt' : StronglySorted
                     (fun x y => if descending then cmp x y < 0
                                 else cmp y x <= 0)
                     (current :: previous :: run)).
    { constructor; [exact Srt|].
      apply StronglySorted_inv in Srt. destruct Srt as [_ F].
      rewrite Forall_forall in F, Hin.
      assert (Hz : forall z, In z run -> In z l0)
        by (intros z Hz; apply Hin; simpl; right;
            apply in_or_app; now left).
      destruct descending.
      - apply Z.leb_gt in Stop.
        constructor; [exact Stop|]. rewrite Forall_forall.
        intros z Iz. specialize (F z Iz).
        apply (lt_le_trans current previous z); auto. lia.
      - apply Z.ltb_ge in Stop.
        assert (cmp previous current <= 0) by (apply ge_le; auto; lia).
        constructor; [assumption|]. rewrite Forall_forall.
        intros z Iz. specialize (F z Iz).
        apply (trans z previous current); auto. }
    destruct (IH current (previous :: run) Hin' Srt') as [E S'].
    split; [|exact S'].
    rewrite E. simpl. now rewrite <- !app_assoc.
Qed.

(** A strictly ascending array holds at most one member of a class of
    tied members, so turning it round moves none of them. *)
Lemma one_per_class (s : list A) (x : A) :
  StronglySorted (fun a b => cmp a b < 0) s ->
  Forall (fun e => In e l0) s -> In x l0 ->
  filter (fun y => cmp x y =? 0) (rev s) = filter (fun y => cmp x y =? 0) s.
Proof.
  intros Srt Hin Hx. rewrite filter_rev.
  assert (One : filter (fun y => cmp x y =? 0) s = []
                \/ exists e, filter (fun y => cmp x y =? 0) s = [e]).
  { induction Srt as [|y t St IH F]; [now left|].
    inversion Hin as [|? ? Hy Ht]; subst. simpl.
    destruct (cmp x y =? 0) eqn:T; [|now apply IH].
    right. exists y. f_equal.
    apply Z.eqb_eq in T. rewrite Forall_forall in F, Ht.
    clear IH St Hin. induction t as [|z t IHt]; [reflexivity|]. simpl.
    destruct (cmp x z =? 0) eqn:Tz.
    - exfalso. apply Z.eqb_eq in Tz.
      assert (cmp y z = 0)
        by (apply (tie_trans x y z); auto; apply Ht; now left).
      specialize (F z (or_introl eq_refl)). lia.
    - apply IHt; intros; [apply F | apply Ht]; now right. }
  destruct One as [-> | [e ->]]; reflexivity.
Qed.

(** *** The result of the engine *)

Lemma sort_spec (l : list A) :
  Forall (fun e => In e l0) l ->
  Permutation (V8.sort cmp l) l
  /\ StronglySorted (fun a b => cmp a b <= 0) (V8.sort cmp l)
  /\ forall x, In x l0 ->
               filter (fun y => cmp x y =? 0) (V8.sort cmp l)
               = filter (fun y => cmp x y =? 0) l.
Proof.
  destruct l as [|first [|second rest]]; intro All.
  - simpl. repeat split; constructor.
  - simpl. repeat split; auto. repeat constructor.
  - unfold V8.sort.
    set (descending := cmp second first <? 0).
    assert (Hf : In first l0 /\ In second l0).
    { rewrite Forall_forall in All. split; apply All; simpl; tauto. }
    destruct Hf as [Hf Hs].
    assert (Srt0 : StronglySorted
                     (fun x y => if descending then cmp x y < 0
                                 else cmp y x <= 0) [second; first]).
    { constructor; [repeat constructor|]. constructor; [|constructor].
      unfold descending.
      destruct (Z.ltb_spec (cmp second first) 0); [assumption|].
      apply ge_le; auto. lia. }
    assert (Hin0 : Forall (fun e => In e l0) ([second; first] ++ rest)).
    { rewrite Forall_forall in *. intros y Hy. apply All.
      simpl in *. tauto. }
    destruct (extend_spec descending rest second [first] Hin0 Srt0)
      as [E Sr].
    destruct (V8.extend cmp descending second [second; first] rest)
      as [run rest'] eqn:X.
    simpl fst in *. simpl snd in *.
    change (rev [second; first] ++ rest) with (first :: second :: rest)
      in E.
    assert (Hrun : Forall (fun e => In e l0) (rev run ++ rest'))
      by now rewrite E.
    apply Forall_app in Hrun. destruct Hrun as [Hrun Hrest'].
    assert (Hrun' : Forall (fun e => In e l0) run).
    { rewrite Forall_forall in *. intros y Hy. apply Hrun.
      now apply in_rev in Hy. }
    set (prefix := if descending then run else rev run).
    assert (Pp : Permutation prefix (rev run)
                 /\ StronglySorted (fun a b => cmp a b <= 0) prefix
                 /\ forall x, In x l0 ->
                       filter (fun y => cmp x y =? 0) prefix
                       = filter (fun y => cmp x y =? 0) (rev run)).
    { subst prefix. destruct descending.
      - split; [apply Permutation_rev|]. split.
        + revert Sr. apply SortOrder.StronglySorted_weaken.
          intros; lia.
        + intros x Hx. symmetry. now apply one_per_class.
      - split; [reflexivity|]. split; [|reflexivity].
        now apply SortFacts.StronglySorted_rev in Sr. }
    destruct Pp as (Pp & Sp & Fp).
    assert (Hin : Forall (fun e => In e l0) (prefix ++ rest')).
    { apply Forall_app. split; [|exact Hrest'].
      rewrite Forall_forall in *. intros y Hy. apply Hrun.
      now apply (Permutation_in _ Pp). }
    destruct (binary_insertion_spec rest' prefix Hin Sp) as (P & S' & F).
    split; [|split; [exact S'|]].
    + rewrite P, Pp. now rewrite E.
    + intros x Hx. rewrite (F x Hx), filter_app, (Fp x Hx).
      rewrite <- filter_app. now rewrite E.
Qed.

(** *** One result only

    Two arrangements of the same members, both in the order of the
    comparator and both with tied members in the same order, are equal. *)
Lemma stable_unique (l1 : list A) :
  forall l2,
    Forall (fun e => In e l0) l1 ->
    Permutation l1 l2 ->
    StronglySorted (fun a b => cmp a b <= 0) l1 ->
    StronglySorted (fun a b => cmp a b <= 0) l2 ->
    (forall x, In x l0 ->
               filter (fun y => cmp x y =? 0) l1
               = filter (fun y => cmp x y =? 0) l2) ->
    l1 = l2.
Proof.
  induction l1 as [|a t1 IH]; intros l2 Hin P S1 S2 F.
  - apply Permutation_nil in P. now subst.
  - destruct l2 as [|b t2];
      [symmetry in P; apply Permutation_nil in P; discriminate|].
    inversion Hin as [|? ? Ha Ht1]; subst.
    assert (Hb : In b l0).
    { rewrite Forall_forall in Hin. apply Hin.
      eapply Permutation_in; [symmetry; exact P | now left]. }
    apply StronglySorted_inv in S1. destruct S1 as [S1 F1].
    apply StronglySorted_inv in S2. destruct S2 as [S2 F2].
    rewrite Forall_forall in F1, F2.
    assert (E : a = b).
    { assert (Ia : In a (b :: t2))
        by (eapply Permutation_in; [exact P | now left]).
      assert (Ib : In b (a :: t1))
        by (eapply Permutation_in; [symmetry; exact P | now left]).
      destruct Ia as [->|Ia]; [reflexivity|].
      destruct Ib as [->|Ib]; [reflexivity|].
      pose proof (F1 b Ib) as Lab. pose proof (F2 a Ia) as Lba.
      pose proof (le_ge _ _ Hb Ha Lba) as Gab.
      assert (T : cmp a b = 0) by lia.
      specialize (F a Ha). simpl in F.
      rewrite (tie_self a Ha), T in F. simpl in F. congruence. }
    subst b. f_equal. apply IH; auto.
    + now apply Permutation_cons_inv in P.
    + intros x Hx. specialize (F x Hx). simpl in F.
      destruct (cmp x a =? 0); congruence.
Qed.

(** On a comparator that is consistent on the array, the engine returns
    what the stable insertion returns. *)
Lemma sort_agrees : V8.sort cmp l0 = JS.sort cmp l0.
Proof.
  assert (All : Forall (fun e => In e l0) l0)
    by (apply Forall_forall; auto).
  destruct (sort_spec l0 All) as (P & S & F).
  apply stable_unique; auto.
  - rewrite Forall_forall. intros y Hy.
    now apply (Permutation_in _ P).
  - rewrite P. symmetry. apply SortFacts.sort_perm.
  - apply SortOrder.sort_sorted_on.
    + intros a b Ha Hb G. apply ge_le; auto. lia.
    + exact trans.
  - intros x Hx. rewrite (F x Hx). symmetry.
    apply SortFacts.sort_stable.
    intros a b Ha Hb Ta Tb.
    apply Z.eqb_eq in Ta, Tb.
    pose proof (tie_trans x a b Hx Ha Hb Ta Tb). lia.
Qed.

End Agreement.
End V8Facts.

(** ** Tied projects and the direction of the sort *)

Module TieOrder.
Import SortProjects.

Section Engine.
Variable Date_getTime : string -> number.
Variable sortBy : string.
Variable P : list UniqueProject.

Lemma compareProjects_sym (dir : string) (a b : UniqueProject) :
  compareProjects Date_getTime sortBy dir a b < 0
  <-> compareProjects Date_getTime sortBy dir b a > 0.
Proof.
  rewrite (compareProjects_antisym Date_getTime sortBy dir a b). lia.
Qed.

(** In a list without ties, two members that compare 0 are one member. *)
Lemma untied_same (a b : UniqueProject) :
  ForallOrdPairs
    (fun a b => compareProjects Date_getTime sortBy "asc" a b <> 0) P ->
  In a P -> In b P ->
  compareProjects Date_getTime sortBy "asc" a b = 0 -> a = b.
Proof.
  intro N. induction N as [|x l Hx Hl IH]; intros Ha Hb T; [destruct Ha|].
  rewrite Forall_forall in Hx.
  destruct Ha as [<-|Ha], Hb as [<-|Hb]; auto.
  - exfalso. now apply (Hx b Hb).
  - exfalso. apply (Hx a Ha).
    rewrite (compareProjects_antisym Date_getTime sortBy "asc" a x), T.
    reflexivity.
Qed.

(** Without ties the comparator is consistent on the list, whatever the
    dates are. *)
Lemma untied_trans (dir : string) (a b c : UniqueProject) :
  ForallOrdPairs
    (fun a b => compareProjects Date_getTime sortBy "asc" a b <> 0) P ->
  In a P -> In b P -> In c P ->
  compareProjects Date_getTime sortBy dir a b <= 0 ->
  compareProjects Date_getTime sortBy dir b c <= 0 ->
  compareProjects Date_getTime sortBy dir a c <= 0.
Proof.
  intros N Ha Hb Hc Hab Hbc.
  destruct (Z.eq_dec (compareProjects Date_getTime sortBy dir a b) 0)
    as [T|T].
  - apply (tie_any_direction Date_getTime sortBy dir "asc") in T.
    apply untied_same in T; auto. now subst.
  - destruct (Z.eq_dec (compareProjects Date_getTime sortBy dir b c) 0)
      as [T'|T'].
    + apply (tie_any_direction Date_getTime sortBy dir "asc") in T'.
      apply untied_same in T'; auto. now subst.
    + assert (compareProjects Date_getTime sortBy dir a c < 0)
        by (apply (compareProjects_trans Date_getTime sortBy dir a b c);
            lia).
      lia.
Qed.

(** The engine and the insertion return the same list when no two projects
    are tied, *)
Lemma engine_without_ties (dir : string) :
  ForallOrdPairs
    (fun a b => compareProjects Date_getTime sortBy "asc" a b <> 0) P ->
  V8.sort (compareProjects Date_getTime sortBy dir) P
  = JS.sort (compareProjects Date_getTime sortBy dir) P.
Proof.
  intro N. apply V8Facts.sort_agrees.
  - intros a b _ _. apply compareProjects_sym.
  - intros a b c. now apply untied_trans.
Qed.

(** and when every date that the sort reads is valid. *)
Lemma engine_with_valid_dates (dir : string) :
  (sortBy = "created_at" ->
   forall p, In p P -> Date_getTime (created_at p) <> NaN) ->
  (sortBy = "updated_at" ->
   forall p, In p P -> Date_getTime (updated_at p) <> NaN) ->
  V8.sort (compareProjects Date_getTime sortBy dir) P
  = JS.sort (compareProjects Date_getTime sortBy dir) P.
Proof.
  intros Vc Vu. apply V8Facts.sort_agrees.
  - intros a b _ _. apply compareProjects_sym.
  - intros a b c.
    apply (SortOrder.compareProjects_trans_on Date_getTime sortBy P Vc Vu).
Qed.
End Engine.

(** The claim C6, that projects that are tied keep their input order
    whatever the list is, fails.  Sorted by [updated_at], ascending, the
    projects [p3] (whose date does not parse) and [p4] are tied, [p3] comes
    before [p4] in the list, and the engine returns [p4] before [p3]: an
    invalid date is tied with every date, the comparator is not consistent,
    and the order is the engine's. *)
Lemma invalid_date_swaps_tied_projects :
  unique_projects (projects Dated.data)
  = [Dated.p1; Dated.p2; Dated.p3; Dated.p4]
  /\ (forall a b,
         In a [Dated.p3; Dated.p4] -> In b [Dated.p3; Dated.p4] ->
         compareProjects Host.Date_getTime "updated_at" "asc" a b = 0)
  /\ V8.sortedProjects Host.Date_getTime (Some Dated.data)
                       "updated_at" "asc"
     = [Dated.p4; Dated.p2; Dated.p1; Dated.p3]
  /\ filter (fun p => String.eqb (id p) "p3" || String.eqb (id p) "p4")
            (unique_projects (projects Dated.data))
     = [Dated.p3; Dated.p4]
  /\ filter (fun p => String.eqb (id p) "p3" || String.eqb (id p) "p4")
            (V8.sortedProjects Host.Date_getTime (Some Dated.data)
                               "updated_at" "asc")
     = [Dated.p4; Dated.p3]
  /\ filter (fun p => String.eqb (id p) "p3" || String.eqb (id p) "p4")
            (V8.sortedProjects Host.Date_getTime (Some Dated.data)
                               "updated_at" "asc")
     <> filter (fun p => String.eqb (id p) "p3" || String.eqb (id p) "p4")
               (unique_projects (projects Dated.data)).
Proof.
  split; [reflexivity|]. split.
  - intros a b [<-|[<-|[]]] [<-|[<-|[]]]; reflexivity.
  - repeat split; try reflexivity. vm_compute. discriminate.
Qed.

(** C6, amended.  Whatever the sort field: when no two projects of the list
    are tied, the descending order is the ascending order reversed; and when
    every date that the sort reads is valid, then in either direction the
    projects that are tied with one another keep the order they had in the
    list.  In both cases the comparator is consistent on the list, and the
    list is the one the engine returns. *)
Theorem reversal_and_stability (Date_getTime : string -> number)
    (d : ProjectsData) (sortBy : string) :
  (ForallOrdPairs
     (fun a b => compareProjects Date_getTime sortBy "asc" a b <> 0)
     (unique_projects (projects d)) ->
   sortedProjects Date_getTime (Some d) sortBy "desc"
   = rev (sortedProjects Date_getTime (Some d) sortBy "asc")
   /\ forall sortDirection : string,
        V8.sortedProjects Date_getTime (Some d) sortBy sortDirection
        = sortedProjects Date_getTime (Some d) sortBy sortDirection)
  /\
  ((sortBy = "created_at" ->
    forall p, In p (unique_projects (projects d)) ->
              Date_getTime (created_at p) <> NaN) ->
   (sortBy = "updated_at" ->
    forall p, In p (unique_projects (projects d)) ->
              Date_getTime (updated_at p) <> NaN) ->
   forall sortDirection : string,
     V8.sortedProjects Date_getTime (Some d) sortBy sortDirection
     = sortedProjects Date_getTime (Some d) sortBy sortDirection
     /\ forall tied : UniqueProject -> bool,
          (forall a b,
              In a (unique_projects (projects d)) ->
              In b (unique_projects (projects d)) ->
              tied a = true -> tied b = true ->
              compareProjects Date_getTime sortBy sortDirection a b = 0) ->
          filter tied
                 (sortedProjects Date_getTime (Some d) sortBy sortDirection)
          = filter tied (unique_projects (projects d))).
Proof.
  split.
  - intro NoTies. split.
    + now apply descending_is_reverse.
    + intro dir. now apply engine_without_ties.
  - intros Vc Vu dir. split.
    + now apply engine_with_valid_dates.
    + intros tied H. apply SortFacts.sort_stable.
      intros a b Ha Hb Ta Tb. rewrite (H a b Ha Hb Ta Tb). lia.
Qed.

(** A run of C6: by name no two sample projects are tied; by update time
    the two projects of 2025-01-01 are, and every date is valid. *)
Lemma reversal_and_stability_run :
  (sortedProjects Host.Date_getTime (Some Sample.data) "name" "desc"
   = rev (sortedProjects Host.Date_getTime (Some Sample.data) "name" "asc")
   /\ V8.sortedProjects Host.Date_getTime (Some Sample.data) "name" "desc"
      = [Sample.pC; Sample.pB; Sample.pA])
  /\
  (V8.sortedProjects Host.Date_getTime (Some Sample.data)
                     "updated_at" "desc"
   = sortedProjects Host.Date_getTime (Some Sample.data)
                    "updated_at" "desc"
   /\ filter (fun p => String.eqb (updated_at p) "2025-01-01")
             (sortedProjects Host.Date_getTime (Some Sample.data)
                             "updated_at" "desc")
      = [Sample.pA; Sample.pC]).
Proof.
  split.
  - destruct (proj1 (reversal_and_stability
                       Host.Date_getTime Sample.data "name")) as [R E].
    + repeat constructor; vm_compute; discriminate.
    + split; [exact R|]. rewrite (E "desc"). reflexivity.
  - destruct (proj2 (reversal_and_stability
                       Host.Date_getTime Sample.data "updated_at")
                    ltac:(discriminate)
                    ltac:(intros _ p [<-|[<-|[<-|[]]]]; vm_compute;
                          discriminate)
                    "desc") as [E S].
    split; [exact E|].
    apply (S (fun p => String.eqb (updated_at p) "2025-01-01")).
    intros a b Ha Hb Ta Tb.
    simpl in Ha, Hb.
    destruct Ha as [<-|[<-|[<-|[]]]]; destruct Hb as [<-|[<-|[<-|[]]]];
      (reflexivity || discriminate).
Defined.

End TieOrder.

(** ** Grouping by a value that is neither [none] nor [author] *)

Module AgencyFallback.
Import Grouping.

(** The groups of a list no key of which [Object.prototype] defines. *)
Lemma partition_by_key (localeCompare : string -> string -> Z)
    (sorted : list UniqueProject) (groupBy : string) :
  groupBy <> "none" ->
  (forall p, In p sorted -> inherited (groupKey groupBy p) = false) ->
  exists groups,
    groupedProjects localeCompare sorted groupBy = Normal groups
    /\ NoDup (map Group.key groups)
    /\ (forall g, In g groups ->
                  Group.title g = Group.key g
                  /\ Group.projects g <> []
                  /\ Group.projects g
                     = filter (fun p => String.eqb (groupKey groupBy p)
                                                   (Group.key g))
                              sorted)
    /\ (forall p, In p sorted ->
                  In (groupKey groupBy p) (map Group.key groups))
    /\ Permutation (List.concat (map Group.projects groups)) sorted.
Proof.
  intros N NI.
  destruct (forEach_ok groupBy sorted [] []) as (o & F & _);
    [exact NI | |].
  { split; [constructor|]. split; [intros ? ? [] | intros ? []]. }
  assert (E : exists groups,
             groupedProjects localeCompare sorted groupBy = Normal groups
             /\ forall g, In g groups -> Group.title g = Group.key g).
  { unfold groupedProjects. pose proof N as N'.
    apply String.eqb_neq in N'. rewrite N', F. simpl.
    eexists. split; [reflexivity|].
    intros g Hg. apply in_map_iff in Hg. now destruct Hg as (e & <- & _). }
  destruct E as (groups & E & T).
  destruct (Pipeline.returned_groups _ _ _ _ N E)
    as (o' & (ND & Hm & Hk) & Po).
  assert (K : Permutation (map Group.key groups) (map fst o')).
  { apply (Permutation_map fst) in Po.
    now rewrite map_map in Po. }
  exists groups. split; [exact E|].
  split; [|split; [|split]].
  - eapply Permutation_NoDup; [symmetry; exact K | exact ND].
  - intros g Hg. split; [now apply T|].
    assert (I : In (Group.key g, Group.projects g) o').
    { eapply Permutation_in; [exact Po|].
      now apply (in_map (fun g => (Group.key g, Group.projects g))). }
    destruct (Hm _ _ I). auto.
  - intros p Hp. eapply Permutation_in; [symmetry; exact K|].
    now apply Hk.
  - rewrite (map_ext_in _ (fun g => filter
               (fun p => String.eqb (groupKey groupBy p) (Group.key g))
               sorted)).
    + rewrite <- (map_map Group.key (fun k => filter
               (fun p => String.eqb (groupKey groupBy p) k) sorted)).
      apply concat_groups.
      * eapply Permutation_NoDup; [symmetry; exact K | exact ND].
      * intros p Hp. eapply Permutation_in; [symmetry; exact K|].
        now apply Hk.
    + intros g Hg.
      assert (I : In (Group.key g, Group.projects g) o').
      { eapply Permutation_in; [exact Po|].
        now apply (in_map (fun g => (Group.key g, Group.projects g))). }
      now destruct (Hm _ _ I).
Qed.

(** C9.  For a [groupBy] value other than [none] and [author], the grouping
    is the one of [agency].  When no [agency_name] of the list is the name of
    a member of [Object.prototype], it is the partition of the list by
    [agency_name]: the groups have distinct keys, each holds the projects of
    that [agency_name], in the order of the list, and is not empty, and the
    groups together hold every project, as often as the list does.  When
    some [agency_name] is such a name ([constructor], [toString], ...), no
    group is returned: the grouping throws. *)
Theorem other_groupBy_partitions_by_agency
    (localeCompare : string -> string -> Z)
    (sorted : list UniqueProject) (groupBy : string) :
  groupBy <> "none" -> groupBy <> "author" ->
  groupedProjects localeCompare sorted groupBy
  = groupedProjects localeCompare sorted "agency"
  /\ ((forall p, In p sorted -> inherited (agency_name p) = false) ->
      exists groups,
        groupedProjects localeCompare sorted groupBy = Normal groups
        /\ NoDup (map Group.key groups)
        /\ (forall g, In g groups ->
                      Group.title g = Group.key g
                      /\ Group.projects g <> []
                      /\ Group.projects g
                         = filter (fun p => String.eqb (agency_name p)
                                                       (Group.key g))
                                  sorted)
        /\ (forall p, In p sorted ->
                      In (agency_name p) (map Group.key groups))
        /\ Permutation (List.concat (map Group.projects groups)) sorted)
  /\ ((exists p, In p sorted /\ inherited (agency_name p) = true) ->
      groupedProjects localeCompare sorted groupBy
      = Throw "TypeError: groups[groupKey].push is not a function").
Proof.
  intros N A.
  rewrite (same_as_agency localeCompare sorted groupBy N A).
  split; [reflexivity|]. split.
  - intro NI.
    apply (partition_by_key localeCompare sorted "agency");
      [discriminate | exact NI].
  - intro H.
    destruct (inherited_key_throws localeCompare sorted "agency")
      as [e E]; [discriminate | exact H |].
    rewrite E. f_equal.
    unfold groupedProjects in E. simpl String.eqb in E. cbv iota in E.
    destruct (forEach "agency" sorted []) as [o|e'] eqn:F;
      [discriminate|].
    simpl in E. injection E as <-.
    now apply (forEach_error "agency" sorted [] e').
Qed.

(** A run of C9, with [groupBy = team]: a list with an agency named
    [constructor] makes the grouping throw; the sample projects come back
    in the two groups of their agencies. *)
Lemma other_groupBy_partitions_by_agency_run :
  groupedProjects Host.localeCompare
    [Sample.pB; Sample.project "p4" "D" "constructor" "kim" "2025-01-02"]
    "team"
  = Throw "TypeError: groups[groupKey].push is not a function"
  /\ groupedProjects Host.localeCompare
       (unique_projects (projects Sample.data)) "team"
     = Normal [ {| Group.key := "alpha"; Group.title := "alpha";
                   Group.projects := [Sample.pA; Sample.pC] |};
                {| Group.key := "Zeta"; Group.title := "Zeta";
                   Group.projects := [Sample.pB] |} ].
Proof.
  split.
  - apply (other_groupBy_partitions_by_agency Host.localeCompare
             [Sample.pB;
              Sample.project "p4" "D" "constructor" "kim" "2025-01-02"]
             "team"); [discriminate | discriminate |].
    exists (Sample.project "p4" "D" "constructor" "kim" "2025-01-02").
    split; [right; now left | reflexivity].
  - rewrite (proj1 (other_groupBy_partitions_by_agency Host.localeCompare
                      (unique_projects (projects Sample.data)) "team"
                      ltac:(discriminate) ltac:(discriminate))).
    reflexivity.
Defined.

End AgencyFallback.
